(** * syncenv: the blob pipeline (archive, crypto, storage keys, env diff)

    A shallow embedding of the Go packages [internal/crypto],
    [internal/archive], [internal/storage], [internal/config] and
    [internal/git], and of the helpers and commands of [internal/cli],
    followed by the properties the specification states about them and
    by further properties of the code.

    Conventions.
    - A Go [[]byte] is a [list ascii]; a Go [string] is a Rocq [string]
      (both are plain byte sequences, no encoding is assumed).
    - A Go [(T, error)] result is a [result T]; a run-time panic is the
      third outcome [Panic].
    - A Go [map[string]string] is a [gmap string string]; ranging over a
      map visits its entries in an unspecified order, so loops over maps
      take the enumeration as an argument.
    - [crypto/rand], the file system and the object store are explicit
      arguments that are threaded through the calls. *)

From Stdlib Require Import ZArith NArith List Ascii String Bool Lia Btauto.
From stdpp Require Import gmap strings list fin_maps pretty.

(** ** Results of fallible calls *)

Inductive result (A : Type) : Type :=
| Ok (a : A)
| Err (msg : string)
| Panic (msg : string).
Arguments Ok {A} a.
Arguments Err {A} msg.
Arguments Panic {A} msg.

Definition is_Ok {A} (r : result A) : bool :=
  match r with Ok _ => true | _ => false end.

Definition is_Err {A} (r : result A) : bool :=
  match r with Err _ => true | _ => false end.

(** [fmt.Errorf("<ctx>: %w", err)] *)
Definition wrap (ctx msg : string) : string := ctx +:+ ": " +:+ msg.

#[global] Instance result_ret : MRet result := fun _ a => Ok a.
#[global] Instance result_bind : MBind result := fun _ _ k r =>
  match r with Ok a => k a | Err e => Err e | Panic m => Panic m end.

(** [if err != nil { return nil, fmt.Errorf("<ctx>: %w", err) }] *)
Definition orWrap {A} (ctx : string) (r : result A) : result A :=
  match r with Err e => Err (wrap ctx e) | _ => r end.

Abbreviation bytes := (list ascii).

(** [string(b)] and [[]byte(s)] *)
Definition string_of_bytes (b : bytes) : string := string_of_list_ascii b.
Definition bytes_of_string (s : string) : bytes := list_ascii_of_string s.

(** ** Byte and block arithmetic *)

(** Big-endian reading of a byte sequence and the 16 bytes of a 128-bit
    block, most significant first. *)
Definition be_N (b : bytes) : N :=
  fold_left (fun acc c => acc * 256 + N_of_ascii c)%N b 0%N.

Definition byte_at (x : N) (i : nat) : ascii :=
  ascii_of_N (N.land (N.shiftr x (8 * N.of_nat (15 - i))) 255).

Definition bytes_of_block (x : N) : bytes := map (byte_at x) (seq 0 16).

(** A block read from at most 16 bytes, zero-padded on the right. *)
Definition block_of_bytes (b : bytes) : N :=
  be_N (take 16 b ++ replicate (16 - length b) zero).

Definition xor_ascii (a b : ascii) : ascii :=
  match a, b with
  | Ascii a0 a1 a2 a3 a4 a5 a6 a7, Ascii b0 b1 b2 b3 b4 b5 b6 b7 =>
      Ascii (xorb a0 b0) (xorb a1 b1) (xorb a2 b2) (xorb a3 b3)
            (xorb a4 b4) (xorb a5 b5) (xorb a6 b6) (xorb a7 b7)
  end.

Definition xorBytes (a b : bytes) : bytes := zip_with xor_ascii a b.

(** [bytes.Equal] / [subtle.ConstantTimeCompare(a, b) == 1] *)
Definition bytes_eqb (a b : bytes) : bool := bool_decide (a = b).

(** ** [encoding/hex] *)

Module hex.

Definition fromHexChar (c : ascii) : option N :=
  let n := N_of_ascii c in
  if (48 <=? n)%N && (n <=? 57)%N then Some (n - 48)%N
  else if (97 <=? n)%N && (n <=? 102)%N then Some (n - 97 + 10)%N
  else if (65 <=? n)%N && (n <=? 70)%N then Some (n - 65 + 10)%N
  else None.

(** [hex.DecodeString]: pairs of hexadecimal digits of either case; an
    invalid digit or an odd length is an error. *)
Fixpoint DecodeString (s : string) : result bytes :=
  match s with
  | EmptyString => Ok []
  | String a EmptyString =>
      match fromHexChar a with
      | Some _ => Err "encoding/hex: odd length hex string"
      | None => Err "encoding/hex: invalid byte"
      end
  | String a (String b rest) =>
      match fromHexChar a, fromHexChar b with
      | Some x, Some y =>
          match DecodeString rest with
          | Ok r => Ok (ascii_of_N (16 * x + y) :: r)
          | e => e
          end
      | _, _ => Err "encoding/hex: invalid byte"
      end
  end.

(** The bytes a hexadecimal literal stands for ([[]] when it is not one). *)
Definition lit (s : string) : bytes :=
  match DecodeString s with Ok b => b | _ => [] end.

Definition hextable : string := "0123456789abcdef".

(** [hextable[i]] *)
Definition hexDigit (i : N) : ascii :=
  match String.get (N.to_nat i) hextable with Some c => c | None => zero end.

(** [hex.EncodeToString]: [hextable[v>>4]] and [hextable[v&0x0f]] for
    every byte [v]. *)
Fixpoint EncodeToString (src : bytes) : string :=
  match src with
  | [] => EmptyString
  | v :: src =>
      String (hexDigit (N.shiftr (N_of_ascii v) 4))
        (String (hexDigit (N.land (N_of_ascii v) 15)) (EncodeToString src))
  end.

End hex.

(** ** [crypto/aes]: the block cipher of FIPS 197

    A state is the list of its 16 bytes in input order (byte [r + 4c] is
    row [r] of column [c]); bytes are numbers below 256. *)

Module aes.

Definition xtime (a : N) : N :=
  let d := N.land (N.shiftl a 1) 255 in
  if N.testbit a 7 then N.lxor d 27 else d.

Fixpoint gf8_mul_loop (n : nat) (a b acc : N) : N :=
  match n with
  | O => acc
  | S n => gf8_mul_loop n (xtime a) (N.shiftr b 1)
             (if N.odd b then N.lxor acc a else acc)
  end.

(** Multiplication in GF(2^8) modulo x^8 + x^4 + x^3 + x + 1. *)
Definition gf8_mul (a b : N) : N := gf8_mul_loop 8 a b 0.

Fixpoint gf8_inv_loop (n : nat) (p acc : N) : N :=
  match n with
  | O => acc
  | S n => let p2 := gf8_mul p p in gf8_inv_loop n p2 (gf8_mul acc p2)
  end.

(** The multiplicative inverse [a^254] (and 0 for 0). *)
Definition gf8_inv (a : N) : N := gf8_inv_loop 7 a 1.

Definition rotl8 (x : N) (n : N) : N :=
  N.land (N.lor (N.shiftl x n) (N.shiftr x (8 - n))) 255.

Definition sbox_at (x : N) : N :=
  let b := gf8_inv x in
  N.lxor (N.lxor (N.lxor (N.lxor (N.lxor b (rotl8 b 1)) (rotl8 b 2))
                        (rotl8 b 3)) (rotl8 b 4)) 99.

Definition sbox : list N :=
  Eval vm_compute in map (fun i => sbox_at (N.of_nat i)) (seq 0 256).

Definition SubByte (x : N) : N := nth (N.to_nat x) sbox 0%N.

Definition SubBytes (s : list N) : list N := map SubByte s.

Definition ShiftRows (s : list N) : list N :=
  map (fun i => nth (i mod 4 + 4 * ((i / 4 + i mod 4) mod 4)) s 0%N)
      (seq 0 16).

Definition MixColumn (a : list N) : list N :=
  match a with
  | [a0; a1; a2; a3] =>
      [ N.lxor (N.lxor (N.lxor (gf8_mul a0 2) (gf8_mul a1 3)) a2) a3;
        N.lxor (N.lxor (N.lxor a0 (gf8_mul a1 2)) (gf8_mul a2 3)) a3;
        N.lxor (N.lxor (N.lxor a0 a1) (gf8_mul a2 2)) (gf8_mul a3 3);
        N.lxor (N.lxor (N.lxor (gf8_mul a0 3) a1) a2) (gf8_mul a3 2) ]
  | _ => a
  end.

(** The inverse of [MixColumn] (FIPS 197, 5.3.3). Encryption does not
    call it; it is what makes the cipher a permutation. *)
Definition InvMixColumn (a : list N) : list N :=
  match a with
  | [a0; a1; a2; a3] =>
      [ N.lxor (N.lxor (N.lxor (gf8_mul a0 14) (gf8_mul a1 11))
                       (gf8_mul a2 13)) (gf8_mul a3 9);
        N.lxor (N.lxor (N.lxor (gf8_mul a0 9) (gf8_mul a1 14))
                       (gf8_mul a2 11)) (gf8_mul a3 13);
        N.lxor (N.lxor (N.lxor (gf8_mul a0 13) (gf8_mul a1 9))
                       (gf8_mul a2 14)) (gf8_mul a3 11);
        N.lxor (N.lxor (N.lxor (gf8_mul a0 11) (gf8_mul a1 13))
                       (gf8_mul a2 9)) (gf8_mul a3 14) ]
  | _ => a
  end.

(** [n] consecutive chunks of [k] elements. *)
Definition chunks {A} (n k : nat) (l : list A) : list (list A) :=
  map (fun i => take k (drop (k * i) l)) (seq 0 n).

Definition MixColumns (s : list N) : list N :=
  concat (map MixColumn (chunks 4 4 s)).

Definition AddRoundKey (rk s : list N) : list N := zip_with N.lxor s rk.

Definition RotWord (w : list N) : list N :=
  match w with a :: r => r ++ [a] | [] => [] end.

Definition SubWord (w : list N) : list N := map SubByte w.

(** The key schedule, word [i] from words [i-1] and [i-Nk]. *)
Fixpoint expand (n Nk i : nat) (rcon : N) (w : list (list N))
  : list (list N) :=
  match n with
  | O => w
  | S n =>
      let prev := nth (i - 1) w [] in
      let '(temp, rcon') :=
        if (i mod Nk =? 0)%nat then
          (zip_with N.lxor (SubWord (RotWord prev)) [rcon; 0; 0; 0]%N,
           xtime rcon)
        else if (6 <? Nk)%nat && (i mod Nk =? 4)%nat then
          (SubWord prev, rcon)
        else (prev, rcon) in
      expand n Nk (S i) rcon'
             (w ++ [zip_with N.lxor (nth (i - Nk) w []) temp])
  end.

Definition KeyExpansion (key : list N) : list (list N) :=
  let Nk := (length key / 4)%nat in
  let w := expand (4 * (Nk + 7) - Nk) Nk Nk 1 (chunks Nk 4 key) in
  chunks (Nk + 7) 16 (concat w).

Definition round (s rk : list N) : list N :=
  AddRoundKey rk (MixColumns (ShiftRows (SubBytes s))).

Definition finalRound (s rk : list N) : list N :=
  AddRoundKey rk (ShiftRows (SubBytes s)).

Definition Cipher (key input : list N) : list N :=
  match KeyExpansion key with
  | [] => input
  | rk0 :: rks =>
      let s := AddRoundKey rk0 input in
      let s := fold_left round (removelast rks) s in
      finalRound s (List.last rks [])
  end.

(** The cipher under [key] on 128-bit blocks read big-endian. *)
Definition encryptBlock (key : bytes) (x : N) : N :=
  be_N (map ascii_of_N
            (Cipher (map N_of_ascii key)
                    (map N_of_ascii (bytes_of_block x)))).

(** [aes.NewCipher]: keys of 16, 24 or 32 bytes. *)
Definition NewCipher (key : bytes) : result (N -> N) :=
  let k := length key in
  if bool_decide (k = 16 \/ k = 24 \/ k = 32)%nat then Ok (encryptBlock key)
  else Err ("crypto/aes: invalid key size " +:+ pretty k).

End aes.

(** ** [crypto/cipher]: Galois/Counter Mode (NIST SP 800-38D)

    The mode [cipher.NewGCM] wraps around a 128-bit block cipher: 96-bit
    nonces, 128-bit tags. [E] is the block cipher under its key. *)

Module gcm.

Definition gcmBlockSize : nat := 16.
Definition gcmTagSize : nat := 16.
Definition gcmStandardNonceSize : nat := 12.

(** [((1<<32)-2) * gcmBlockSize], the longest plaintext of one call. *)
Definition maxPlaintext : N := ((2 ^ 32 - 2) * 16)%N.

Definition errOpen : string := "cipher: message authentication failed".

Definition R : N := N.shiftl 225 120.

Fixpoint mul_loop (n : nat) (x v z : N) : N :=
  match n with
  | O => z
  | S n =>
      let z := if N.testbit x (N.of_nat n) then N.lxor z v else z in
      let v := if N.odd v then N.lxor (N.shiftr v 1) R else N.shiftr v 1 in
      mul_loop n x v z
  end.

(** Multiplication in GF(2^128), blocks read most significant bit first. *)
Definition mul (x y : N) : N := mul_loop 128 x y 0.

Section Mode.
Variable E : N -> N.

(** The hash key. *)
Definition H : N := E 0.

(** GHASH over the 16-byte blocks of [data], the last one zero-padded. *)
Definition updateBlocks (y : N) (data : bytes) : N :=
  fold_left
    (fun y i => mul (N.lxor y (block_of_bytes (drop (16 * i) data))) H)
    (seq 0 ((length data + 15) / 16)) y.

(** The initial counter block of a 96-bit nonce: [nonce || 0^31 || 1]. *)
Definition deriveCounter (nonce : bytes) : N :=
  (be_N nonce * 2 ^ 32 + 1)%N.

(** The last four bytes incremented as a big-endian number, wrapping. *)
Definition gcmInc32 (c : N) : N :=
  (N.shiftl (N.shiftr c 32) 32
   + (N.land c (2 ^ 32 - 1) + 1) mod 2 ^ 32)%N.

Fixpoint keyStream (n : nat) (ctr : N) : bytes :=
  match n with
  | O => []
  | S n => bytes_of_block (E ctr) ++ keyStream n (gcmInc32 ctr)
  end.

(** Counter mode: [src] xor the key stream from [ctr] on. *)
Definition counterCrypt (src : bytes) (ctr : N) : bytes :=
  xorBytes src (keyStream ((length src + 15) / 16) ctr).

(** The tag of [ciphertext] and [additionalData] under [tagMask]. *)
Definition auth (ciphertext additionalData : bytes) (tagMask : N) : bytes :=
  let y := updateBlocks 0 additionalData in
  let y := updateBlocks y ciphertext in
  let lens :=
    (N.shiftl (N.of_nat (length additionalData) * 8) 64
     + N.of_nat (length ciphertext) * 8)%N in
  bytes_of_block (N.lxor (mul (N.lxor y lens) H) tagMask).

(** [Seal(dst, nonce, plaintext, additionalData)] *)
Definition Seal (dst nonce plaintext data : bytes) : result bytes :=
  if negb (length nonce =? gcmStandardNonceSize)%nat then
    Panic "crypto/cipher: incorrect nonce length given to GCM"
  else if (maxPlaintext <? N.of_nat (length plaintext))%N then
    Panic "crypto/cipher: message too large for GCM"
  else
    let counter := deriveCounter nonce in
    let tagMask := E counter in
    let ct := counterCrypt plaintext (gcmInc32 counter) in
    Ok (dst ++ ct ++ auth ct data tagMask).

(** [Open(dst, nonce, ciphertext, additionalData)] *)
Definition Open (dst nonce ciphertext data : bytes) : result bytes :=
  if negb (length nonce =? gcmStandardNonceSize)%nat then
    Panic "crypto/cipher: incorrect nonce length given to GCM"
  else if (length ciphertext <? gcmTagSize)%nat then Err errOpen
  else if (maxPlaintext + 16 <? N.of_nat (length ciphertext))%N then
    Err errOpen
  else
    let n := (length ciphertext - gcmTagSize)%nat in
    let tag := drop n ciphertext in
    let ct := take n ciphertext in
    let counter := deriveCounter nonce in
    let tagMask := E counter in
    let expectedTag := auth ct data tagMask in
    if negb (bytes_eqb expectedTag tag) then Err errOpen
    else Ok (dst ++ counterCrypt ct (gcmInc32 counter)).
End Mode.

End gcm.

(** ** [crypto/rand] and [io.ReadFull]

    The random source is the sequence of bytes it will deliver; reading
    [n] bytes consumes them and fails when fewer are left. *)

Module rand.

Definition ReadFull (rng : bytes) (n : nat) : result bytes * bytes :=
  if (n <=? length rng)%nat then (Ok (take n rng), drop n rng)
  else (Err "unexpected EOF", []).

End rand.

(** ** [strings] and [bufio]: what the env parser uses *)

Module strings.

(** The encodings of the code points [unicode.IsSpace] accepts: the six
    ASCII ones, U+0085, U+00A0, U+1680, U+2000 to U+200A, U+2028, U+2029,
    U+202F, U+205F and U+3000. *)
Definition spaces : list bytes :=
  map (map ascii_of_nat)
    ([[9]; [10]; [11]; [12]; [13]; [32]; [194; 133]; [194; 160];
      [225; 154; 128]]
     ++ map (fun i => [226; 128; 128 + i]) (seq 0 11)
     ++ [[226; 128; 168]; [226; 128; 169]; [226; 128; 175];
         [226; 129; 159]; [227; 128; 128]]).

(** [s] without its prefix [p], when it has it. *)
Fixpoint cutPrefix (p s : bytes) : option bytes :=
  match p, s with
  | [], _ => Some s
  | a :: p, b :: s => if Ascii.eqb a b then cutPrefix p s else None
  | _ :: _, [] => None
  end.

(** [s] without the first of the prefixes [ps] it starts with. *)
Fixpoint cutAny (ps : list bytes) (s : bytes) : option bytes :=
  match ps with
  | [] => None
  | p :: ps =>
      match cutPrefix p s with
      | Some r => Some r
      | None => cutAny ps s
      end
  end.

(** Leading characters among [ps] removed, one per round. *)
Fixpoint trimLoop (fuel : nat) (ps : list bytes) (s : bytes) : bytes :=
  match fuel with
  | O => s
  | S fuel =>
      match cutAny ps s with
      | Some r => trimLoop fuel ps r
      | None => s
      end
  end.

Definition trimLeft (s : bytes) : bytes := trimLoop (length s) spaces s.

(** Trailing characters removed: the same loop on the reversed bytes. *)
Definition trimRight (s : bytes) : bytes :=
  reverse (trimLoop (length s) (map reverse spaces) (reverse s)).

(** [strings.TrimSpace]: leading, then trailing white space removed. *)
Definition TrimSpace (s : string) : string :=
  string_of_bytes (trimRight (trimLeft (bytes_of_string s))).

(** [strings.HasPrefix(s, prefix)] *)
Definition HasPrefix (s prefix : string) : bool := String.prefix prefix s.

(** [strings.HasSuffix(s, suffix)]:
    [len(s) >= len(suffix) && s[len(s)-len(suffix):] == suffix] *)
Definition HasSuffix (s suffix : string) : bool :=
  (String.length suffix <=? String.length s)%nat
  && String.eqb (substring (String.length s - String.length suffix)
                           (String.length suffix) s) suffix.

(** [s] cut around the first byte [sep]. *)
Fixpoint cutBytes (sep : ascii) (s : bytes) : option (bytes * bytes) :=
  match s with
  | [] => None
  | c :: s =>
      if Ascii.eqb c sep then Some ([], s)
      else match cutBytes sep s with
           | Some (a, b) => Some (c :: a, b)
           | None => None
           end
  end.

Definition cut (sep : ascii) (s : string) : option (string * string) :=
  match cutBytes sep (bytes_of_string s) with
  | Some (a, b) => Some (string_of_bytes a, string_of_bytes b)
  | None => None
  end.

(** [strings.SplitN(s, sep, 2)] for a one-byte separator. *)
Definition SplitN2 (s : string) (sep : ascii) : list string :=
  match cut sep s with
  | Some (a, b) => [a; b]
  | None => [s]
  end.

(** [strings.Join(elems, sep)] *)
Fixpoint Join (elems : list string) (sep : string) : string :=
  match elems with
  | [] => EmptyString
  | [e] => e
  | e :: elems => e +:+ sep +:+ Join elems sep
  end.

End strings.

Module bufio.

Definition MaxScanTokenSize : nat := 64 * 1024.

(** The raw lines of [data]: the runs between newlines, and the run
    after the last newline when it is not empty. *)
Fixpoint rawLines (data : bytes) : list bytes :=
  match data with
  | [] => []
  | c :: data =>
      if Ascii.eqb c "010" then [] :: rawLines data
      else match rawLines data with
           | [] => [[c]]
           | line :: lines => (c :: line) :: lines
           end
  end.

(** [dropCR]: one trailing carriage return removed. *)
Definition dropCR (line : bytes) : bytes :=
  match reverse line with
  | c :: r => if Ascii.eqb c "013" then reverse r else line
  | [] => line
  end.

(** One step of a [Scanner] with [ScanLines] and the default buffer: the
    next token, or the error [ErrTooLong] when the line does not fit the
    buffer together with its terminator. *)
Definition token (raw : bytes) : result string :=
  if (MaxScanTokenSize <=? length raw)%nat then
    Err "bufio.Scanner: token too long"
  else Ok (string_of_bytes (dropCR raw)).

End bufio.

(** ** [os]: the files the program reads

    A file system maps a path to a file; a file may exist and still be
    unreadable. A path with a NUL byte names no file ([EINVAL]), a path
    through a file names none either ([ENOTDIR]); any other path that
    is not in the map does not exist ([ENOENT]): every directory can be
    searched, and names are within the lengths the system allows. *)

Module os.

Record File := { contents : bytes; perm : N; readable : bool }.

Abbreviation FS := (gmap string File).

(** [os.FileMode] is a [uint32]. *)
Definition FileMode (n : N) : N := (n mod 2 ^ 32)%N.

Fixpoint hasNUL (s : string) : bool :=
  match s with
  | EmptyString => false
  | String c s => Ascii.eqb c zero || hasNUL s
  end.

(** The paths in front of the separators of [name]: what has to be a
    directory for [name] to name a file. *)
Fixpoint parents (front name : string) : list string :=
  match name with
  | EmptyString => []
  | String c name =>
      (if Ascii.eqb c "/" then [front] else [])
      ++ parents (front +:+ String c EmptyString) name
  end.

(** A file is in the way of [name]. *)
Definition notDir (fs : FS) (name : string) : bool :=
  existsb (fun p => bool_decide (is_Some (fs !! p))) (parents "" name).

Definition lookupPath (fs : FS) (name : string) : result File :=
  if hasNUL name then Err ("open " +:+ name +:+ ": invalid argument")
  else match fs !! name with
       | Some f => Ok f
       | None =>
           if notDir fs name then
             Err ("open " +:+ name +:+ ": not a directory")
           else Err ("open " +:+ name +:+ ": no such file or directory")
       end.

Definition ReadFile (fs : FS) (name : string) : result bytes :=
  f ← lookupPath fs name;
  if readable f then Ok (contents f)
  else Err ("open " +:+ name +:+ ": permission denied").

(** [os.Stat(name)] followed by [info.Mode()] *)
Definition Stat (fs : FS) (name : string) : result N :=
  f ← lookupPath fs name; Ok (FileMode (perm f)).

(** [_, err := os.Stat(name); os.IsNotExist(err)]: the error is
    [ENOENT]. *)
Definition notExist (fs : FS) (name : string) : bool :=
  negb (hasNUL name) && bool_decide (fs !! name = None)
  && negb (notDir fs name).

(** What the operating system decides for the process: its umask; for
    a path the error, if any, with which writing the file there fails
    ([openErr]: a missing or unwritable directory, a read-only file, a
    full disk, ...) and, for a write that fails, how far it gets
    ([failsAfter]: [None] when the open with
    [O_WRONLY|O_CREATE|O_TRUNC] is refused, [Some (op, n)] when the file
    is opened and the later call [op], [write] or [close], fails with
    [n] bytes written); and the error, if any, of creating a path as a
    directory. *)
Record Sys := {
  umask : N;
  openErr : string -> option string;
  failsAfter : string -> option (string * nat);
  mkdirErr : string -> option string }.

(** [ModeSetuid | ModeSetgid | ModeSticky], the bits of a [FileMode]
    that reach the system call besides the nine permission bits. *)
Definition ModeSpecial : N := 2 ^ 23 + 2 ^ 22 + 2 ^ 20.

(** The mode of a file created with [perm]: the umask clears permission
    bits. *)
Definition createMode (sys : Sys) (perm : N) : N :=
  N.lor (N.land perm ModeSpecial)
        (N.ldiff (N.land perm 511) (N.land (umask sys) 511)).

(** The file at [name] once it is opened for writing and holds
    [written]: a file that exists is truncated and keeps its
    permissions; a file that does not is created with [perm] (before
    umask), and its owner can read it when the mode says so. *)
Definition opened (sys : Sys) (fs : FS) (name : string) (perm : N)
    (written : bytes) : File :=
  match fs !! name with
  | Some (Build_File _ oldPerm oldReadable) =>
      {| contents := written; perm := oldPerm; readable := oldReadable |}
  | None =>
      let mode := createMode sys perm in
      {| contents := written; perm := mode; readable := N.testbit mode 8 |}
  end.

(** [os.WriteFile(name, data, perm)]: [OpenFile], [Write], [Close]. A
    refused open changes nothing; a failure after the open leaves the
    file, created or truncated, with the bytes written until then. *)
Definition WriteFile (sys : Sys) (fs : FS) (name : string) (data : bytes)
    (perm : N) : result unit * FS :=
  if hasNUL name then (Err ("open " +:+ name +:+ ": invalid argument"), fs)
  else
    match openErr sys name, failsAfter sys name with
    | Some e, None => (Err ("open " +:+ name +:+ ": " +:+ e), fs)
    | Some e, Some (op, n) =>
        (Err (op +:+ " " +:+ name +:+ ": " +:+ e),
         <[name := opened sys fs name perm (take n data)]> fs)
    | None, _ => (Ok (), <[name := opened sys fs name perm data]> fs)
    end.

(** [os.MkdirAll(path, perm)]: a path that is a file is refused; the
    directories themselves are not part of [FS]. *)
Definition MkdirAll (sys : Sys) (fs : FS) (path : string) (perm : N)
  : result unit :=
  if hasNUL path then Err ("mkdir " +:+ path +:+ ": invalid argument")
  else if bool_decide (is_Some (fs !! path)) then
    Err ("mkdir " +:+ path +:+ ": not a directory")
  else
    match mkdirErr sys path with
    | Some e => Err ("mkdir " +:+ path +:+ ": " +:+ e)
    | None => Ok ()
    end.

End os.

(** ** Package [crypto] *)

Module crypto.

Definition KeySize : nat := 32.

(** [gcm.NonceSize()] *)
Definition NonceSize : nat := gcm.gcmStandardNonceSize.

(** [DecodeKeyFromString] *)
Definition DecodeKeyFromString (keyHex : string) : result bytes :=
  match hex.DecodeString keyHex with
  | Ok key =>
      if negb (length key =? KeySize)%nat then
        Err ("invalid key size: expected " +:+ pretty KeySize
             +:+ " bytes, got " +:+ pretty (length key) +:+ " bytes")
      else Ok key
  | Err e => Err (wrap "failed to decode encryption key" e)
  | Panic m => Panic m
  end.

(** [Encrypt]: [aes.NewCipher], [cipher.NewGCM] (which accepts every
    128-bit block cipher), a nonce read from the random source, and
    [gcm.Seal(nonce, nonce, plaintext, nil)]. The second component is
    what is left of the random source. *)
Definition Encrypt (plaintext key : bytes) (rng : bytes)
  : result bytes * bytes :=
  match aes.NewCipher key with
  | Ok block =>
      match rand.ReadFull rng NonceSize with
      | (Ok nonce, rng') => (gcm.Seal block nonce nonce plaintext [], rng')
      | (Err e, rng') => (Err (wrap "failed to generate nonce" e), rng')
      | (Panic m, rng') => (Panic m, rng')
      end
  | Err e => (Err (wrap "failed to create cipher" e), rng)
  | Panic m => (Panic m, rng)
  end.

(** [Decrypt] *)
Definition Decrypt (ciphertext key : bytes) : result bytes :=
  match aes.NewCipher key with
  | Ok block =>
      let nonceSize := NonceSize in
      if (length ciphertext <? nonceSize)%nat then Err "ciphertext too short"
      else
        let nonce := take nonceSize ciphertext in
        let ciphertext := drop nonceSize ciphertext in
        match gcm.Open block [] nonce ciphertext [] with
        | Ok plaintext => Ok plaintext
        | Err e => Err (wrap "failed to decrypt" e)
        | Panic m => Panic m
        end
  | Err e => Err (wrap "failed to create cipher" e)
  | Panic m => Panic m
  end.

(** [GenerateKey]: [KeySize] bytes of the random source. *)
Definition GenerateKey (rng : bytes) : result bytes * bytes :=
  match rand.ReadFull rng KeySize with
  | (Err e, rng') => (Err (wrap "failed to generate key" e), rng')
  | r => r
  end.

(** [EncodeKeyToString] *)
Definition EncodeKeyToString (key : bytes) : string := hex.EncodeToString key.

(** [SaveKey] *)
Definition SaveKey (sys : os.Sys) (fs : os.FS) (keyPath : string)
    (key : bytes) : result unit * os.FS :=
  let keyHex := hex.EncodeToString key in
  match os.WriteFile sys fs keyPath (bytes_of_string keyHex) 384 with
  | (Err e, fs') => (Err (wrap "failed to save key" e), fs')
  | r => r
  end.

(** [LoadKey] *)
Definition LoadKey (fs : os.FS) (keyPath : string) : result bytes :=
  keyHex ← orWrap "failed to read key file" (os.ReadFile fs keyPath);
  key ← orWrap "failed to decode key" (hex.DecodeString (string_of_bytes keyHex));
  if negb (length key =? KeySize)%nat then
    Err ("invalid key size: expected " +:+ pretty KeySize
         +:+ ", got " +:+ pretty (length key))
  else Ok key.

(** [EncryptFile] *)
Definition EncryptFile (fs : os.FS) (filePath : string) (key rng : bytes)
  : result bytes * bytes :=
  match os.ReadFile fs filePath with
  | Ok data => Encrypt data key rng
  | Err e => (Err (wrap "failed to read file" e), rng)
  | Panic m => (Panic m, rng)
  end.

(** [DecryptToFile] *)
Definition DecryptToFile (sys : os.Sys) (fs : os.FS) (ciphertext key : bytes)
    (filePath : string) : result unit * os.FS :=
  match Decrypt ciphertext key with
  | Ok plaintext =>
      match os.WriteFile sys fs filePath plaintext 384 with
      | (Err e, fs') => (Err (wrap "failed to write file" e), fs')
      | r => r
      end
  | Err e => (Err e, fs)
  | Panic m => (Panic m, fs)
  end.

End crypto.

(** ** [archive/tar] over [compress/gzip]

    The byte format of the container is left to the two libraries: they
    appear as an interface, [Container], whose methods turn the records
    of an archive into bytes and back. What is modelled here is the
    discipline of [tar.Writer] and [tar.Reader]: a header announces
    [Size] bytes, the bytes written after it have to add up to that, and
    reading returns them again. *)

Module tar.

Record Header := { Name : string; Mode : Z; Size : Z }.

(** One record of the stream: a header and the data that follows it. *)
Abbreviation Record_ := (Header * bytes)%type.

Class Container := {
  (** [gzip.Writer] over a buffer, closed *)
  gzip : bytes -> bytes;
  (** [gzip.NewReader] and the reads through it *)
  gunzip : bytes -> result bytes;
  (** the stream [tar.Writer] leaves for the records written *)
  serialize : list Record_ -> bytes;
  (** the records [tar.Reader] finds in a stream *)
  parse : bytes -> result (list Record_) }.

(** A record the writer accepts: the data fills the announced size, the
    mode is a [uint32], the name holds no NUL byte. *)
Definition wf (r : Record_) : Prop :=
  Size r.1 = Z.of_nat (length r.2)
  /\ (0 <= Mode r.1 < 2 ^ 32)%Z
  /\ os.hasNUL (Name r.1) = false.

(** What the two libraries guarantee: reading gives back what was
    written. *)
Class ContainerLaws `{Container} : Prop := {
  gunzip_gzip : forall b, gunzip (gzip b) = Ok b;
  parse_serialize :
    forall rs, Forall wf rs -> parse (serialize rs) = Ok rs }.

(** [tar.Writer]: the records completed so far and the one being
    written. *)
Record Writer := { written : list Record_; current : option Record_ }.

Definition NewWriter : Writer := {| written := []; current := None |}.

(** [Flush]: the current record has to be complete. *)
Definition Flush (tw : Writer) : result Writer :=
  match current tw with
  | None => Ok tw
  | Some (h, d) =>
      if (Z.of_nat (length d) <? Size h)%Z then
        Err ("archive/tar: missed writing "
             +:+ pretty (Size h - Z.of_nat (length d))%Z +:+ " bytes")
      else Ok {| written := written tw ++ [(h, d)]; current := None |}
  end.

Definition WriteHeader (tw : Writer) (hdr : Header) : result Writer :=
  tw ← Flush tw;
  if (Size hdr <? 0)%Z || os.hasNUL (Name hdr) then
    Err "archive/tar: invalid tar header"
  else Ok {| written := written tw; current := Some (hdr, []) |}.

(** [Write]: no more than the announced size. *)
Definition Write (tw : Writer) (b : bytes) : result Writer :=
  match current tw with
  | None =>
      if bool_decide (b = []) then Ok tw
      else Err "archive/tar: write too long"
  | Some (h, d) =>
      if (Size h <? Z.of_nat (length d + length b))%Z then
        Err "archive/tar: write too long"
      else Ok {| written := written tw; current := Some (h, d ++ b) |}
  end.

(** [Close]: flushes and ends the stream; the result is the list of
    records in it. *)
Definition Close (tw : Writer) : result (list Record_) :=
  tw ← Flush tw; Ok (written tw).

(** [tar.Reader]: the records still to come and the unread data of the
    current one. *)
Record Reader := { upcoming : list Record_; unread : bytes }.

Definition NewReader (rs : list Record_) : Reader :=
  {| upcoming := rs; unread := [] |}.

(** [Next]: [None] stands for [io.EOF]. *)
Definition Next (tr : Reader) : option (Header * Reader) :=
  match upcoming tr with
  | [] => None
  | (h, d) :: rs => Some (h, {| upcoming := rs; unread := d |})
  end.

(** [data := make([]byte, size); io.ReadFull(tr, data)] *)
Definition ReadFull (tr : Reader) (size : Z) : result (bytes * Reader) :=
  if (size <? 0)%Z then Panic "runtime error: makeslice: len out of range"
  else
    let n := Z.to_nat size in
    if (length (unread tr) <? n)%nat then
      Err (if bool_decide (unread tr = []) then "EOF" else "unexpected EOF")
    else Ok (take n (unread tr),
             {| upcoming := upcoming tr; unread := drop n (unread tr) |}).

End tar.

(** ** [path/filepath], with [/] as the separator *)

Module filepath.

(** The elements of a path: what lies between its separators. *)
Fixpoint elements (path : bytes) : list bytes :=
  match path with
  | [] => [[]]
  | c :: path =>
      if Ascii.eqb c "/" then [] :: elements path
      else match elements path with
           | e :: es => (c :: e) :: es
           | [] => [[c]]
           end
  end.

(** One element met by [Clean], [out] being the elements kept so far,
    the last one first: an empty element and [.] are dropped, [..]
    removes the element before it when there is one to remove. *)
Definition cleanStep (rooted : bool) (out : list string) (e : string)
  : list string :=
  if String.eqb e "" || String.eqb e "." then out
  else if String.eqb e ".." then
    match out with
    | top :: rest => if String.eqb top ".." then e :: out else rest
    | [] => if rooted then [] else [e]
    end
  else e :: out.

(** [filepath.Clean] *)
Definition Clean (path : string) : string :=
  if String.eqb path "" then "."
  else
    let rooted := strings.HasPrefix path "/" in
    let out := foldl (cleanStep rooted) []
                 (map string_of_bytes (elements (bytes_of_string path))) in
    let body := strings.Join (reverse out) "/" in
    if rooted then "/" +:+ body
    else if String.eqb body "" then "." else body.

(** The reversed path from its last separator on. *)
Fixpoint dropElement (rev : bytes) : bytes :=
  match rev with
  | [] => []
  | c :: r => if Ascii.eqb c "/" then rev else dropElement r
  end.

(** [filepath.Dir]: the path up to its last separator, cleaned. *)
Definition Dir (path : string) : string :=
  Clean (string_of_bytes
           (reverse (dropElement (reverse (bytes_of_string path))))).

End filepath.

(** ** Package [archive] *)

Module archive.

Record FileEntry := { Path : string; Data : bytes; Mode : N }.

Section Archive.
Context `{tar.Container}.

(** The loop of [Create]: one header and one write per file. *)
Fixpoint writeFiles (fs : os.FS) (files : list string) (tw : tar.Writer)
  : result tar.Writer :=
  match files with
  | [] => Ok tw
  | file :: files =>
      data ← orWrap ("failed to read file " +:+ file) (os.ReadFile fs file);
      info ← orWrap ("failed to stat file " +:+ file) (os.Stat fs file);
      let header := {| tar.Name := file;
                       tar.Mode := Z.of_N info;
                       tar.Size := Z.of_nat (length data) |} in
      tw ← orWrap ("failed to write tar header for " +:+ file)
                  (tar.WriteHeader tw header);
      tw ← orWrap ("failed to write file data for " +:+ file)
                  (tar.Write tw data);
      writeFiles fs files tw
  end.

(** [Create] *)
Definition Create (fs : os.FS) (files : list string) : result bytes :=
  tw ← writeFiles fs files tar.NewWriter;
  rs ← orWrap "failed to close tar writer" (tar.Close tw);
  Ok (tar.gzip (tar.serialize rs)).

(** The loop of [Extract]: structural in the records still to come. *)
Fixpoint readEntries (rs : list tar.Record_) (entries : list FileEntry)
  : result (list FileEntry) :=
  match rs with
  | [] => Ok entries
  | (header, d) :: rs =>
      let tr := {| tar.upcoming := rs; tar.unread := d |} in
      '(data, _) ← orWrap ("failed to read file data for "
                            +:+ tar.Name header)
                           (tar.ReadFull tr (tar.Size header));
      readEntries rs
        (entries ++ [{| Path := tar.Name header;
                        Data := data;
                        Mode := os.FileMode (Z.to_N (tar.Mode header
                                                     mod 2 ^ 32)) |}])
  end.

(** [Extract]. An error of either reader ends the call with an error,
    whichever step of the loop it surfaces in. *)
Definition Extract (archiveData : bytes) : result (list FileEntry) :=
  stream ← orWrap "failed to create gzip reader" (tar.gunzip archiveData);
  rs ← orWrap "failed to read tar entry" (tar.parse stream);
  readEntries rs [].

(** [ListFiles] *)
Definition ListFiles (archiveData : bytes) : result (list string) :=
  entries ← Extract archiveData; Ok (map Path entries).

(** The loop of [ExtractToFiles]: the directory of an entry is created
    when it is not the current one, then the file is written with the
    mode of the entry. The first failure ends the loop. *)
Fixpoint writeEntries (sys : os.Sys) (fs : os.FS) (entries : list FileEntry)
  : result unit * os.FS :=
  match entries with
  | [] => (Ok (), fs)
  | entry :: entries =>
      let dir := filepath.Dir (Path entry) in
      let made :=
        if negb (String.eqb dir ".") && negb (String.eqb dir "") then
          orWrap ("failed to create directory " +:+ dir)
                 (os.MkdirAll sys fs dir 493)
        else Ok () in
      match made with
      | Ok _ =>
          match os.WriteFile sys fs (Path entry) (Data entry) (Mode entry) with
          | (Ok _, fs) => writeEntries sys fs entries
          | (Err e, fs) =>
              (Err (wrap ("failed to write file " +:+ Path entry) e), fs)
          | (Panic m, fs) => (Panic m, fs)
          end
      | Err e => (Err e, fs)
      | Panic m => (Panic m, fs)
      end
  end.

(** [ExtractToFiles]; the second component is the file system
    afterwards. *)
Definition ExtractToFiles (sys : os.Sys) (fs : os.FS) (archiveData : bytes)
  : result unit * os.FS :=
  match Extract archiveData with
  | Ok entries => writeEntries sys fs entries
  | Err e => (Err e, fs)
  | Panic m => (Panic m, fs)
  end.
End Archive.

End archive.

(** ** Package [config] *)

Module config.

(** [type StorageType string] and its three constants. *)
Abbreviation StorageType := string (only parsing).

Definition StorageTypeS3 : StorageType := "s3".
Definition StorageTypeAzure : StorageType := "azure".
Definition StorageTypeGCS : StorageType := "gcs".

Record StorageConfig := {
  Type_ : StorageType;
  Prefix : string;
  Bucket : string;
  Region : string;
  AccountName : string;
  ContainerName : string;
  ProjectID : string;
  BucketName : string }.

Record EncryptionConfig := { Enabled : bool; Key : string }.

Record Config := {
  Storage : StorageConfig;
  Encryption : EncryptionConfig;
  EnvFile : string;
  EnvFiles : list string }.

(** [GetEnvFiles] *)
Definition GetEnvFiles (c : Config) : list string :=
  if (0 <? length (EnvFiles c))%nat then EnvFiles c
  else if negb (String.eqb (EnvFile c) "") then [EnvFile c]
  else [".env"].

(** [Validate]: [None] is the nil error. *)
Definition Validate (c : Config) : option string :=
  let st := Storage c in
  if String.eqb (Type_ st) StorageTypeS3 then
    if String.eqb (Bucket st) "" then Some "s3 bucket is required"
    else if String.eqb (Region st) "" then Some "s3 region is required"
    else None
  else if String.eqb (Type_ st) StorageTypeAzure then
    if String.eqb (AccountName st) "" then
      Some "azure account_name is required"
    else if String.eqb (ContainerName st) "" then
      Some "azure container_name is required"
    else None
  else if String.eqb (Type_ st) StorageTypeGCS then
    if String.eqb (BucketName st) "" then Some "gcs bucket_name is required"
    else if String.eqb (ProjectID st) "" then
      Some "gcs project_id is required"
    else None
  else Some ("unsupported storage type: " +:+ Type_ st).

Definition ConfigFileName : string := ".syncenv.yml".

(** [Load]: the file is read from the current directory and handed to
    [unmarshal], which is [yaml.Unmarshal] into an empty [Config]; then
    the defaults are set and a single [env_file] becomes the list. *)
Definition Load (unmarshal : bytes -> result Config) (fs : os.FS)
  : result Config :=
  let configPath := filepath.Clean ("." +:+ "/" +:+ ConfigFileName) in
  data ← orWrap "failed to read config file" (os.ReadFile fs configPath);
  config ← orWrap "failed to parse config file" (unmarshal data);
  let config :=
    if (length (EnvFiles config) =? 0)%nat && String.eqb (EnvFile config) ""
    then {| Storage := Storage config; Encryption := Encryption config;
            EnvFile := ".env"; EnvFiles := EnvFiles config |}
    else config in
  let config :=
    if negb (String.eqb (EnvFile config) "")
       && (length (EnvFiles config) =? 0)%nat
    then {| Storage := Storage config; Encryption := Encryption config;
            EnvFile := EnvFile config; EnvFiles := [EnvFile config] |}
    else config in
  Ok config.


End config.

(** ** Package [storage] *)

Module storage.

(** [BuildKey]: [fmt.Sprintf("%s.env", tag)] without a prefix,
    [fmt.Sprintf("%s%s.env", prefix, tag)] with one. *)
Definition BuildKey (prefix tag : string) : string :=
  if String.eqb prefix "" then tag +:+ ".env"
  else prefix +:+ tag +:+ ".env".

(** The interface [Storage] over the state [S] of a backend. A call
    that changes the store returns the new state next to its error. *)
Class Storage (S : Type) := {
  Upload : S -> string -> bytes -> result unit * S;
  Download : S -> string -> result bytes;
  List : S -> result (list string);
  Exists : S -> string -> result bool;
  Delete : S -> string -> result unit * S }.

(** [MockStorage]: a map from keys to blobs and the error to return. *)
Record MockStorage := {
  data : gmap string bytes;
  Error : option string }.

Definition NewMockStorage : MockStorage := {| data := ∅; Error := None |}.

Definition mockUpload (m : MockStorage) (tag : string) (b : bytes)
  : result unit * MockStorage :=
  match Error m with
  | Some e => (Err e, m)
  | None =>
      let key := BuildKey "" tag in
      (Ok (), {| data := <[key := b]> (data m); Error := Error m |})
  end.

Definition mockDownload (m : MockStorage) (tag : string) : result bytes :=
  match Error m with
  | Some e => Err e
  | None =>
      match data m !! BuildKey "" tag with
      | Some b => Ok b
      | None => Err ("tag " +:+ tag +:+ " not found")
      end
  end.

Definition mockList (m : MockStorage) : result (list string) :=
  match Error m with
  | Some e => Err e
  | None =>
      Ok (omap (fun kv : string * bytes =>
                  let key := kv.1 in
                  if (4 <? String.length key)%nat
                     && String.eqb (substring (String.length key - 4) 4 key)
                                   ".env"
                  then Some (substring 0 (String.length key - 4) key)
                  else None)
               (map_to_list (data m)))
  end.

Definition mockExists (m : MockStorage) (tag : string) : result bool :=
  match Error m with
  | Some e => Err e
  | None => Ok (bool_decide (is_Some (data m !! BuildKey "" tag)))
  end.

Definition mockDelete (m : MockStorage) (tag : string)
  : result unit * MockStorage :=
  match Error m with
  | Some e => (Err e, m)
  | None =>
      (Ok (), {| data := delete (BuildKey "" tag) (data m);
                 Error := Error m |})
  end.

#[global] Instance MockStorage_Storage : Storage MockStorage := {
  Upload := mockUpload;
  Download := mockDownload;
  List := mockList;
  Exists := mockExists;
  Delete := mockDelete }.

(** [Reset] *)
Definition mockReset (m : MockStorage) : MockStorage :=
  {| data := ∅; Error := None |}.

(** The body of the loop of [List] in the S3, GCS and Azure backends:
    the tag listed for a key of the store, if any. The prefix is cut
    off by its length, then one [.env] suffix. *)
Definition tagOfKey (prefix key : string) : option string :=
  let tag := key in
  let tag :=
    if negb (String.eqb prefix "")
       && (String.length prefix <? String.length key)%nat
    then substring (String.length prefix)
                   (String.length key - String.length prefix) key
    else tag in
  let tag :=
    if (4 <? String.length tag)%nat
       && String.eqb (substring (String.length tag - 4) 4 tag) ".env"
    then substring 0 (String.length tag - 4) tag
    else tag in
  if negb (String.eqb tag "") then Some tag else None.

(** The tags the three backends list for the keys the service reports,
    in its order. *)
Definition listTags (prefix : string) (keys : list string) : list string :=
  omap (tagOfKey prefix) keys.

End storage.

(** ** Package [git]

    The commands are run by the operating system; what they print, or
    the error of running them, is the repository as the package sees
    it. *)

Module git.

Record Repo := {
  (** [git describe --tags --exact-match HEAD] *)
  describeExact : result bytes;
  (** [git describe --tags --abbrev=0 HEAD] *)
  describeNearest : result bytes;
  (** [git rev-parse --abbrev-ref HEAD] *)
  abbrevRef : result bytes;
  (** [git rev-parse --git-dir] ran without error *)
  gitDir : bool }.

(** [GetCurrentTag] *)
Definition GetCurrentTag (r : Repo) : result string :=
  match describeExact r with
  | Ok output => Ok (strings.TrimSpace (string_of_bytes output))
  | _ =>
      match describeNearest r with
      | Ok output => Ok (strings.TrimSpace (string_of_bytes output))
      | _ => Err "no git tag found"
      end
  end.

(** [GetCurrentBranch] *)
Definition GetCurrentBranch (r : Repo) : result string :=
  match abbrevRef r with
  | Ok output =>
      let branch := strings.TrimSpace (string_of_bytes output) in
      if String.eqb branch "HEAD" then Err "currently in detached HEAD state"
      else Ok branch
  | Err e => Err (wrap "failed to get current branch" e)
  | Panic m => Panic m
  end.

(** [GetCurrentVersion] *)
Definition GetCurrentVersion (r : Repo) : result string :=
  match GetCurrentTag r with
  | Ok tag =>
      if negb (String.eqb tag "") then Ok tag
      else orWrap "failed to determine current version" (GetCurrentBranch r)
  | _ => orWrap "failed to determine current version" (GetCurrentBranch r)
  end.

(** [IsGitRepository] *)
Definition IsGitRepository (r : Repo) : bool := gitDir r.

End git.

(** ** Package [cli]: the helpers of push, pull and diff *)

Module cli.

(** [git.IsGitRepository] and [git.GetCurrentVersion], as the commands
    see them. *)
Record Git := { IsGitRepository : bool; GetCurrentVersion : result string }.

(** A loop [for key, value := range m { target[key] = value }], run in
    the order [kvs] of the entries of [m]. *)
Definition rangeInsert (kvs : list (string * string))
    (target : gmap string string) : gmap string string :=
  foldl (fun t kv => <[kv.1 := kv.2]> t) target kvs.

(** The loop of [parseEnvFile] over the lines the scanner delivers; it
    ends with [scanner.Err()]. *)
Fixpoint scanLoop (lines : list bytes) (envMap : gmap string string)
  : result (gmap string string) :=
  match lines with
  | [] => Ok envMap
  | raw :: lines =>
      match bufio.token raw with
      | Ok text =>
          let line := strings.TrimSpace text in
          if String.eqb line "" || strings.HasPrefix line "#" then
            scanLoop lines envMap
          else
            let parts := strings.SplitN2 line "=" in
            if (length parts =? 2)%nat then
              let key := strings.TrimSpace (nth 0 parts "") in
              let value := strings.TrimSpace (nth 1 parts "") in
              scanLoop lines (<[key := value]> envMap)
            else scanLoop lines envMap
      | Err e => Err (wrap "failed to parse env file" e)
      | Panic m => Panic m
      end
  end.

(** [parseEnvFile] *)
Definition parseEnvFile (data : bytes) : result (gmap string string) :=
  scanLoop (bufio.rawLines data) ∅.

(** The body of the first loop of [diffEnvMaps], on one entry of
    [newMap]: the key goes to [changed] or to [added]. *)
Definition findAddedChanged (oldMap : gmap string string)
    (acc : gmap string string * gmap string string) (kv : string * string)
  : gmap string string * gmap string string :=
  let '(added, changed) := acc in
  let '(key, newValue) := kv in
  match oldMap !! key with
  | Some oldValue =>
      if negb (String.eqb oldValue newValue) then
        (added, <[key := oldValue +:+ " -> " +:+ newValue]> changed)
      else (added, changed)
  | None => (<[key := newValue]> added, changed)
  end.

(** The body of the second loop, on one entry of [oldMap]. *)
Definition findRemoved (newMap : gmap string string)
    (removed : gmap string string) (kv : string * string)
  : gmap string string :=
  let '(key, value) := kv in
  match newMap !! key with
  | Some _ => removed
  | None => <[key := value]> removed
  end.

(** The loops of [diffEnvMaps], run in the orders [newOrder] and
    [oldOrder] of the entries of the two maps. *)
Definition diffEnvMapsIn (newOrder oldOrder : list (string * string))
    (oldMap newMap : gmap string string)
  : gmap string string * gmap string string * gmap string string :=
  let '(added, changed) :=
    foldl (findAddedChanged oldMap) (∅, ∅) newOrder in
  let removed := foldl (findRemoved newMap) ∅ oldOrder in
  (added, removed, changed).

(** [diffEnvMaps], in the order [map_to_list] enumerates the maps. *)
Definition diffEnvMaps (oldMap newMap : gmap string string)
  : gmap string string * gmap string string * gmap string string :=
  diffEnvMapsIn (map_to_list newMap) (map_to_list oldMap) oldMap newMap.

(** [prepareData]; the second component is what is left of the random
    source. *)
Definition prepareData (data : bytes) (cfg : config.Config) (rng : bytes)
  : result bytes * bytes :=
  if negb (config.Enabled (config.Encryption cfg)) then (Ok data, rng)
  else if String.eqb (config.Key (config.Encryption cfg)) "" then
    (Err "encryption is enabled but no key is configured", rng)
  else
    match crypto.DecodeKeyFromString (config.Key (config.Encryption cfg)) with
    | Ok key =>
        match crypto.Encrypt data key rng with
        | (Ok encrypted, rng') => (Ok encrypted, rng')
        | (Err e, rng') => (Err (wrap "failed to encrypt data" e), rng')
        | (Panic m, rng') => (Panic m, rng')
        end
    | Err e => (Err (wrap "failed to decode encryption key" e), rng)
    | Panic m => (Panic m, rng)
    end.

(** [processData] *)
Definition processData (data : bytes) (cfg : config.Config) : result bytes :=
  if negb (config.Enabled (config.Encryption cfg))
     || String.eqb (config.Key (config.Encryption cfg)) "" then Ok data
  else
    match crypto.DecodeKeyFromString (config.Key (config.Encryption cfg)) with
    | Ok key =>
        match crypto.Decrypt data key with
        | Ok decrypted => Ok decrypted
        | Err _ => Ok data
        | Panic m => Panic m
        end
    | Err e => Err (wrap "failed to decode encryption key" e)
    | Panic m => Panic m
    end.

(** [formatEnvFile], the entries of the map taken in the order [order],
    and in the order [map_to_list] enumerates them. *)
Definition formatEnvFileIn (order : list (string * string)) : string :=
  strings.Join (map (fun kv => kv.1 +:+ "=" +:+ kv.2) order)
               (String "010" EmptyString)
  +:+ String "010" EmptyString.

Definition formatEnvFile (envMap : gmap string string) : string :=
  formatEnvFileIn (map_to_list envMap).

(** The package [git] behind the two calls of the commands. *)
Definition gitOf (r : git.Repo) : Git :=
  {| IsGitRepository := git.IsGitRepository r;
     GetCurrentVersion := git.GetCurrentVersion r |}.

Section Cli.
Context `{tar.Container}.

(** [loadEnvFiles] *)
Definition loadEnvFiles (cfg : config.Config) (fs : os.FS) : result bytes :=
  let files := config.GetEnvFiles cfg in
  match list_find (fun file => os.notExist fs file = true) files with
  | Some (_, file) => Err ("file not found: " +:+ file)
  | None =>
      if (length files =? 1)%nat then
        let file := nth 0 files "" in
        orWrap ("failed to read file " +:+ file) (os.ReadFile fs file)
      else orWrap "failed to create archive" (archive.Create fs files)
  end.

(** The loop of [parseDataToEnvMap] over the entries of the archive. *)
Fixpoint mergeEntries (entries : list archive.FileEntry)
    (envMap : gmap string string) : result (gmap string string) :=
  match entries with
  | [] => Ok envMap
  | entry :: entries =>
      if negb (strings.HasSuffix (archive.Path entry) ".env")
         && negb (strings.HasPrefix (archive.Path entry) ".env") then
        mergeEntries entries envMap
      else
        fileEnv ← orWrap ("failed to parse " +:+ archive.Path entry)
                         (parseEnvFile (archive.Data entry));
        mergeEntries entries (rangeInsert (map_to_list fileEnv) envMap)
  end.

(** [parseDataToEnvMap] *)
Definition parseDataToEnvMap (data : bytes) (cfg : config.Config)
  : result (gmap string string) :=
  let files := config.GetEnvFiles cfg in
  if (length files =? 1)%nat then parseEnvFile data
  else
    entries ← orWrap "failed to extract archive" (archive.Extract data);
    mergeEntries entries ∅.

(** [storage.New]: the backend constructor of the configured type
    fails with [newErr] or hands out the store. *)
Definition storageNew {S} (cfg : config.Config) (newErr : option string)
    (store : S) : result S :=
  let t := config.Type_ (config.Storage cfg) in
  if String.eqb t config.StorageTypeS3
     || String.eqb t config.StorageTypeAzure
     || String.eqb t config.StorageTypeGCS then
    match newErr with Some e => Err e | None => Ok store end
  else Err ("unsupported storage type: " +:+ t).

(** [runPush] from the loaded configuration on; what it prints is left
    out. The second component is the object store afterwards. *)
Definition runPush {S} `{storage.Storage S} (cfg : config.Config)
    (tagFlag : string) (git : Git) (fs : os.FS) (rng : bytes)
    (newErr : option string) (store : S) : result unit * S :=
  match config.Validate cfg with
  | Some e => (Err (wrap "invalid configuration" e), store)
  | None =>
      let tagged :=
        if negb (String.eqb tagFlag "") then Ok tagFlag
        else if negb (IsGitRepository git) then
          Err "not a git repository and no --tag specified"
        else
          match GetCurrentVersion git with
          | Err e => Err ("failed to determine Git version: " +:+ e
                          +:+ " (use --tag to specify manually)")
          | r => r
          end in
      match tagged with
      | Ok tag =>
          match loadEnvFiles cfg fs with
          | Ok data =>
              match prepareData data cfg rng with
              | (Ok preparedData, _) =>
                  match orWrap "failed to create storage client"
                               (storageNew cfg newErr store) with
                  | Ok store =>
                      match storage.Exists store tag with
                      | Ok _ =>
                          match storage.Upload store tag preparedData with
                          | (Err e, store) =>
                              (Err (wrap "failed to upload" e), store)
                          | r => r
                          end
                      | Err e =>
                          (Err (wrap "failed to check if tag exists" e),
                           store)
                      | Panic m => (Panic m, store)
                      end
                  | Err e => (Err e, store)
                  | Panic m => (Panic m, store)
                  end
              | (Err e, _) => (Err e, store)
              | (Panic m, _) => (Panic m, store)
              end
          | Err e => (Err e, store)
          | Panic m => (Panic m, store)
          end
      | Err e => (Err e, store)
      | Panic m => (Panic m, store)
      end
  end.

(** [saveEnvFiles]; the second component is the file system
    afterwards. *)
Definition saveEnvFiles (sys : os.Sys) (fs : os.FS) (data : bytes)
    (cfg : config.Config) : result unit * os.FS :=
  let files := config.GetEnvFiles cfg in
  if (length files =? 1)%nat then
    let file := nth 0 files "" in
    match os.WriteFile sys fs file data 384 with
    | (Err e, fs) => (Err (wrap ("failed to write file " +:+ file) e), fs)
    | r => r
    end
  else
    match archive.ExtractToFiles sys fs data with
    | (Err e, fs) => (Err (wrap "failed to extract archive" e), fs)
    | r => r
    end.

(** [runPull] from the loaded configuration on; what it prints is left
    out. [response] is what [fmt.Scanln] reads when the command asks.
    The second component is the file system afterwards. *)
Definition runPull {S} `{storage.Storage S} (cfg : config.Config)
    (tagFlag : string) (force : bool) (git : Git) (sys : os.Sys)
    (fs : os.FS) (response : string) (newErr : option string) (store : S)
  : result unit * os.FS :=
  match config.Validate cfg with
  | Some e => (Err (wrap "invalid configuration" e), fs)
  | None =>
      let tagged :=
        if negb (String.eqb tagFlag "") then Ok tagFlag
        else if negb (IsGitRepository git) then
          Err "not a git repository and no --tag specified"
        else
          match GetCurrentVersion git with
          | Err e => Err ("failed to determine Git version: " +:+ e
                          +:+ " (use --tag to specify manually)")
          | r => r
          end in
      match tagged with
      | Ok tag =>
          match orWrap "failed to create storage client"
                       (storageNew cfg newErr store) with
          | Ok store =>
              match storage.Exists store tag with
              | Ok exists_ =>
                  if negb exists_ then
                    (Err ("tag '" +:+ tag +:+ "' not found in storage. "
                          +:+ "Run 'syncenv list' to see available versions"),
                     fs)
                  else
                    let files := config.GetEnvFiles cfg in
                    let existingFiles :=
                      filter (fun file => is_Ok (os.Stat fs file) = true)
                             files in
                    if negb force
                       && (0 <? length existingFiles)%nat
                       && negb (String.eqb response "y")
                       && negb (String.eqb response "Y")
                    then (Ok (), fs)
                    else
                      match orWrap "failed to download"
                                   (storage.Download store tag) with
                      | Ok data =>
                          match processData data cfg with
                          | Ok processedData =>
                              saveEnvFiles sys fs processedData cfg
                          | Err e => (Err e, fs)
                          | Panic m => (Panic m, fs)
                          end
                      | Err e => (Err e, fs)
                      | Panic m => (Panic m, fs)
                      end
              | Err e => (Err (wrap "failed to check if tag exists" e), fs)
              | Panic m => (Panic m, fs)
              end
          | Err e => (Err e, fs)
          | Panic m => (Panic m, fs)
          end
      | Err e => (Err e, fs)
      | Panic m => (Panic m, fs)
      end
  end.

(** [runDiff] from the loaded configuration on, up to the comparison:
    the maps of added, removed and changed variables it then prints. *)
Definition runDiff {S} `{storage.Storage S} (cfg : config.Config)
    (tag1 tag2 : string) (newErr : option string) (store : S)
  : result (gmap string string * gmap string string * gmap string string) :=
  match config.Validate cfg with
  | Some e => Err (wrap "invalid configuration" e)
  | None =>
      store ← orWrap "failed to create storage client"
                     (storageNew cfg newErr store);
      data1 ← orWrap ("failed to download " +:+ tag1)
                     (storage.Download store tag1);
      processedData1 ← orWrap ("failed to process " +:+ tag1)
                              (processData data1 cfg);
      env1 ← orWrap ("failed to parse " +:+ tag1)
                    (parseDataToEnvMap processedData1 cfg);
      data2 ← orWrap ("failed to download " +:+ tag2)
                     (storage.Download store tag2);
      processedData2 ← orWrap ("failed to process " +:+ tag2)
                              (processData data2 cfg);
      env2 ← orWrap ("failed to parse " +:+ tag2)
                    (parseDataToEnvMap processedData2 cfg);
      Ok (diffEnvMaps env1 env2)
  end.
End Cli.

End cli.

(** ** A container that keeps the laws

    It numbers the records by their [Countable] code and writes the
    number in binary, one byte per digit; compression is the identity.
    It stands in for tar and gzip where a statement is instantiated. *)

Module numbered.

#[global] Instance Header_eq_dec : EqDecision tar.Header.
Proof. solve_decision. Defined.

#[global] Instance Header_countable : Countable tar.Header :=
  inj_countable'
    (fun h => (tar.Name h, tar.Mode h, tar.Size h))
    (fun t => {| tar.Name := t.1.1; tar.Mode := t.1.2; tar.Size := t.2 |})
    (fun h => match h with tar.Build_Header _ _ _ => eq_refl end).

Fixpoint digits (p : positive) : bytes :=
  match p with
  | xH => []
  | xO p => "0"%char :: digits p
  | xI p => "1"%char :: digits p
  end.

Fixpoint number (b : bytes) : option positive :=
  match b with
  | [] => Some xH
  | c :: b =>
      p ← number b;
      if Ascii.eqb c "0" then Some (xO p)
      else if Ascii.eqb c "1" then Some (xI p)
      else None
  end.

#[global] Instance container : tar.Container := {
  tar.gzip b := b;
  tar.gunzip b := Ok b;
  tar.serialize rs := digits (encode rs);
  tar.parse b :=
    match number b ≫= decode with
    | Some rs => Ok rs
    | None => Err "archive/tar: invalid tar header"
    end }.

End numbered.

(** * Definitions used in the statements *)

(** ** Envelopes *)

(** The envelope [Encrypt] makes of [nonce] and [plaintext] under the
    cipher [E]: the nonce, the ciphertext, the tag. *)
Definition envelope (E : N -> N) (nonce plaintext : bytes) : bytes :=
  nonce ++ gcm.counterCrypt E plaintext (gcm.gcmInc32 (gcm.deriveCounter nonce))
        ++ gcm.auth E (gcm.counterCrypt E plaintext
                         (gcm.gcmInc32 (gcm.deriveCounter nonce)))
                    [] (E (gcm.deriveCounter nonce)).

(** ** States of the cipher *)

(** Bytes as numbers, the 16 of a state and the 4 of a word of the key
    schedule; the exclusive-or of two columns. *)
Definition isByte (v : N) : Prop := (v < 256)%N.

Definition isState (s : list N) : Prop := length s = 16 /\ Forall isByte s.

Definition isWord (w : list N) : Prop := length w = 4 /\ Forall isByte w.

Definition xorCol (a b : list N) : list N := zip_with N.lxor a b.

(** ** Archives *)

(** The record [Create] writes for a file and the entry [Extract] makes
    of a record. *)
Definition recordOf (fs : os.FS) (file : string) : tar.Record_ :=
  match os.ReadFile fs file, os.Stat fs file with
  | Ok data, Ok info =>
      ({| tar.Name := file; tar.Mode := Z.of_N info;
          tar.Size := Z.of_nat (length data) |}, data)
  | _, _ => ({| tar.Name := file; tar.Mode := 0; tar.Size := 0 |}, [])
  end.

Definition entryOf (r : tar.Record_) : archive.FileEntry :=
  {| archive.Path := tar.Name r.1;
     archive.Data := r.2;
     archive.Mode := os.FileMode (Z.to_N (tar.Mode r.1 mod 2 ^ 32)) |}.

(** [entry] is the file at [file]: its path, content and mode. *)
Definition stored (fs : os.FS) (file : string) (entry : archive.FileEntry)
  : Prop :=
  archive.Path entry = file
  /\ os.ReadFile fs file = Ok (archive.Data entry)
  /\ os.Stat fs file = Ok (archive.Mode entry).

(** The records in a writer, the current one included, and the writer
    between two files: its current record has all its data. *)
Definition records (tw : tar.Writer) : list tar.Record_ :=
  tar.written tw ++ match tar.current tw with Some r => [r] | None => [] end.

Definition complete (tw : tar.Writer) : Prop :=
  match tar.current tw with
  | Some (h, d) => tar.Size h = Z.of_nat (length d)
  | None => True
  end.

(** ** Merged env maps *)




(** ** White space *)

(** A run of characters of [ps], one after the other. *)
Inductive run (ps : list bytes) : bytes -> Prop :=
| run_nil : run ps []
| run_cons p r : p ∈ ps -> run ps r -> run ps (p ++ r).

(** The reversed white-space characters, as [trimRight] uses them. *)
Abbreviation rspaces := (map reverse strings.spaces).

(** [TrimSpace] on bytes. *)
Definition trim (s : bytes) : bytes := strings.trimRight (strings.trimLeft s).

(** ** The env parser as the specification words it

    What one line contributes, and the map of a sequence of lines. A
    line that is blank or starts with [#] once trimmed contributes
    nothing; another line is split on its first [=] and both sides are
    trimmed; a line without [=] contributes nothing. *)
Definition lineEntry (text : string) : option (string * string) :=
  let line := strings.TrimSpace text in
  if String.eqb line "" || strings.HasPrefix line "#" then None
  else match strings.cut "=" text with
       | Some (name, value) =>
           Some (strings.TrimSpace name, strings.TrimSpace value)
       | None => None
       end.

Definition insertEntry (envMap : gmap string string) (text : string)
  : gmap string string :=
  match lineEntry text with
  | Some (name, value) => <[name := value]> envMap
  | None => envMap
  end.

Definition envOfLines (lines : list string) : gmap string string :=
  foldl insertEntry ∅ lines.

(** The lines of [data]: between newlines, without a trailing carriage
    return. *)
Definition linesOf (data : bytes) : list string :=
  map (fun raw => string_of_bytes (bufio.dropCR raw)) (bufio.rawLines data).

(** The error of [parseEnvFile] on a line that does not fit the scanner. *)
Definition tooLong : string :=
  "failed to parse env file: bufio.Scanner: token too long".

(** ** Keys, files and tags *)

(** Every character of [s] is a hexadecimal digit of either case. *)
Definition hexDigits (s : string) : bool :=
  forallb (fun c => bool_decide (is_Some (hex.fromHexChar c)))
          (bytes_of_string s).

(** What is written at [name] can be read back: the file that is there
    is readable, or none is there and the umask leaves the owner's read
    permission. *)
Definition readsBack (sys : os.Sys) (fs : os.FS) (name : string) : Prop :=
  match fs !! name with
  | Some f => os.readable f = true
  | None => N.testbit (os.umask sys) 8 = false
  end.

(** The tag [runPush] and [runPull] work on: the flag, or the version
    Git reports. *)
Definition versionTag (tagFlag : string) (git : cli.Git) : result string :=
  if negb (String.eqb tagFlag "") then Ok tagFlag
  else if negb (cli.IsGitRepository git) then
    Err "not a git repository and no --tag specified"
  else
    match cli.GetCurrentVersion git with
    | Err e => Err ("failed to determine Git version: " +:+ e
                    +:+ " (use --tag to specify manually)")
    | r => r
    end.

(** The tag [MockStorage.List] lists for an entry of its map. *)
Definition listed (kv : string * bytes) : option string :=
  let key := kv.1 in
  if (4 <? String.length key)%nat
     && String.eqb (substring (String.length key - 4) 4 key) ".env"
  then Some (substring 0 (String.length key - 4) key)
  else None.

(** ** Entries that survive formatting *)

(** A byte sequence without white space at either end. *)
Definition trimmed (s : bytes) : Prop :=
  strings.cutAny strings.spaces s = None
  /\ strings.cutAny rspaces (reverse s) = None.

(** An entry [formatEnvFile] writes on a line of its own and
    [parseEnvFile] reads back as it is: name and value are trimmed and
    hold no newline, the name holds no [=] and does not start a comment,
    and the line fits the scanner. *)
Definition cleanEntry (kv : string * string) : Prop :=
  strings.TrimSpace kv.1 = kv.1 /\ strings.TrimSpace kv.2 = kv.2
  /\ ("="%char ∉ bytes_of_string kv.1)
  /\ ("010"%char ∉ bytes_of_string kv.1)
  /\ ("010"%char ∉ bytes_of_string kv.2)
  /\ strings.HasPrefix kv.1 "#" = false
  /\ String.length kv.1 + String.length kv.2 + 1 < bufio.MaxScanTokenSize.

(** ** Sample data *)

(** Two keys, the first also in hexadecimal as a configuration has it. *)
Definition key1 : bytes :=
  hex.lit "000102030405060708090a0b0c0d0e0f101112131415161718191a1b1c1d1e1f".

Definition hexKey1 : string :=
  "000102030405060708090a0b0c0d0e0f101112131415161718191a1b1c1d1e1f".

Definition key2 : bytes :=
  hex.lit "ffffffffffffffffffffffffffffffffffffffffffffffffffffffffffffffff".

(** The envelope of [content1] under [key1] and [nonce1], and the same
    with the last byte of its tag changed. *)
Definition nonce1 : bytes := hex.lit "a0a1a2a3a4a5a6a7a8a9aaab".

Definition content1 : bytes := hex.lit "7bf6f4743efe460312bed2bb2ef64318".

Definition envelope1 : bytes :=
  hex.lit ("a0a1a2a3a4a5a6a7a8a9aaab9dee88597b3544bc70db5568298c83c6"
       +:+ "29df81cb5375bc64e96a93e043e9a9c0").

Definition envelope1' : bytes :=
  hex.lit ("a0a1a2a3a4a5a6a7a8a9aaab9dee88597b3544bc70db5568298c83c6"
       +:+ "29df81cb5375bc64e96a93e043e9a9c1").

(** The same envelope with the first byte of its nonce changed. *)
Definition envelope1n : bytes :=
  hex.lit ("a1a1a2a3a4a5a6a7a8a9aaab9dee88597b3544bc70db5568298c83c6"
       +:+ "29df81cb5375bc64e96a93e043e9a9c0").

(** A content of two blocks, its envelope under [key1] and [nonce1], and
    that envelope with bytes of its ciphertext changed: the last bit of
    the first block, and the second block by the product of that bit
    with the hash key, so that the tag is the same. *)
Definition content2 : bytes :=
  bytes_of_string "API_KEY=alpha-0123456789abcdef" ++ ["010"; "010"]%char.

Definition envelope2 : bytes :=
  hex.lit ("a0a1a2a3a4a5a6a7a8a9aaab"
       +:+ "a74835720e8e5b820309f7bb6657f0ef429f6d25a4807a55fd6c45e21acd7f0b"
       +:+ "5793e4212f60c4e25e956c1fbaa8f83a").

Definition envelope2' : bytes :=
  hex.lit ("a0a1a2a3a4a5a6a7a8a9aaab"
       +:+ "a74835720e8e5b820309f7bb6657f0eeedad2ca617d733b31126e801b85c6594"
       +:+ "5793e4212f60c4e25e956c1fbaa8f83a").

(** A content one byte longer than one GCM call takes. *)
Definition tooLarge : bytes :=
  replicate (N.to_nat (gcm.maxPlaintext + 1)) zero.

(** A configuration for an S3 bucket. *)
Definition s3 : config.StorageConfig :=
  {| config.Type_ := config.StorageTypeS3; config.Prefix := "envs/";
     config.Bucket := "bucket"; config.Region := "eu-west-1";
     config.AccountName := ""; config.ContainerName := "";
     config.ProjectID := ""; config.BucketName := "" |}.

Definition cfgOf (enabled : bool) (key : string) (files : list string)
  : config.Config :=
  {| config.Storage := s3;
     config.Encryption := {| config.Enabled := enabled; config.Key := key |};
     config.EnvFile := ""; config.EnvFiles := files |}.

Definition git0 : cli.Git :=
  {| cli.IsGitRepository := true; cli.GetCurrentVersion := Ok "v1.0.0" |}.

(** Files, and the archive of three of them in the numbered container. *)
Definition file (content : string) (perm : N) : os.File :=
  {| os.contents := bytes_of_string content; os.perm := perm;
     os.readable := true |}.

Definition fs0 : os.FS :=
  {[ ".env" := file "A=1" 384; "b.json" := file "{}" 420 ]}.

Definition fs1 : os.FS :=
  {[ ".env" := file "A=1" 384; ".env.local" := file "A=2" 384;
     "b.json" := file "{}" 420 ]}.

Definition threeFiles : list string := [".env"; ".env.local"; "b.json"].

Definition archive1 : bytes :=
  match archive.Create fs1 threeFiles with Ok blob => blob | _ => [] end.

Definition entry (path content : string) : archive.FileEntry :=
  {| archive.Path := path; archive.Data := bytes_of_string content;
     archive.Mode := 420 |}.

(** An env file of four lines. *)
Definition envText : bytes :=
  bytes_of_string "# comment" ++ ["010"%char]
  ++ bytes_of_string " A = 1 " ++ ["013"; "010"]%char
  ++ bytes_of_string "B=2=3" ++ ["010"%char]
  ++ bytes_of_string "novalue".

(** The two maps of the example of the specification. *)
Definition oldEnv : gmap string string := {[ "A" := "1"; "B" := "2" ]}.

Definition newEnv : gmap string string := {[ "B" := "2"; "C" := "3" ]}.

(** A process with the usual umask to which the system refuses
    nothing, and one for which the disk is full after the first byte of
    [b.json]. *)
Definition sys0 : os.Sys :=
  {| os.umask := 18; os.openErr := fun _ => None;
     os.failsAfter := fun _ => None; os.mkdirErr := fun _ => None |}.

Definition sysFull : os.Sys :=
  {| os.umask := 18;
     os.openErr := fun name =>
       if String.eqb name "b.json" then Some "no space left on device"
       else None;
     os.failsAfter := fun _ => Some ("write", 1);
     os.mkdirErr := fun _ => None |}.

(** The envelope of the content of [.env] in [fs0] under [key1] and
    [nonce1]. *)
Definition blobA1 : bytes :=
  envelope (aes.encryptBlock key1) nonce1 (bytes_of_string "A=1").

(** A configuration file, and a configuration with both of its fields
    for the env files. *)
Definition fsYml : os.FS := {[ ".syncenv.yml" := file "storage:" 384 ]}.

Definition cfgOf' (enabled : bool) (key file : string) (files : list string)
  : config.Config :=
  {| config.Storage := s3;
     config.Encryption := {| config.Enabled := enabled; config.Key := key |};
     config.EnvFile := file; config.EnvFiles := files |}.

(** A YAML reader and writer for that one file. *)
Definition unmarshal0 (data : bytes) : result config.Config :=
  Ok (cfgOf true hexKey1 []).


(** A mock store that holds two tags and the empty one. *)
Definition store1 : storage.MockStorage :=
  {| storage.data := {[ "v1.env" := bytes_of_string "A=1";
                        "v2.env" := bytes_of_string "A=2";
                        ".env" := bytes_of_string "A=0" ]};
     storage.Error := None |}.

(** A repository on a commit behind the tag [v1.2.0], its head
    detached. *)
Definition detached : git.Repo :=
  {| git.describeExact := Err "exit status 128";
     git.describeNearest := Ok (bytes_of_string "v1.2.0" ++ ["010"%char]);
     git.abbrevRef := Ok (bytes_of_string "HEAD" ++ ["010"%char]);
     git.gitDir := true |}.

(** The store [store1] after a push of [fs0] under a third tag, with
    encryption. *)
Definition pushed1 : storage.MockStorage :=
  {| storage.data := <[ "v3.env" := blobA1 ]> (storage.data store1);
     storage.Error := None |}.

(** * Checks of the cipher against published vectors

    The S-box and the three examples of FIPS 197, appendix C, and four
    test cases of the GCM specification for 256-bit keys. *)

Example aes_sbox_53 : aes.SubByte 83 = 237%N.
Proof. reflexivity. Qed.

Example aes128_fips197 :
  aes.encryptBlock (hex.lit "000102030405060708090a0b0c0d0e0f")
                   (be_N (hex.lit "00112233445566778899aabbccddeeff"))
  = be_N (hex.lit "69c4e0d86a7b0430d8cdb78070b4c55a").
Proof. vm_compute. reflexivity. Qed.

Example aes192_fips197 :
  aes.encryptBlock
    (hex.lit "000102030405060708090a0b0c0d0e0f1011121314151617")
    (be_N (hex.lit "00112233445566778899aabbccddeeff"))
  = be_N (hex.lit "dda97ca4864cdfe06eaf70a0ec0d7191").
Proof. vm_compute. reflexivity. Qed.

Example aes256_fips197 :
  aes.encryptBlock
    (hex.lit "000102030405060708090a0b0c0d0e0f101112131415161718191a1b1c1d1e1f")
    (be_N (hex.lit "00112233445566778899aabbccddeeff"))
  = be_N (hex.lit "8ea2b7ca516745bfeafc49904b496089").
Proof. vm_compute. reflexivity. Qed.

Example gcm_aes256_empty :
  gcm.Seal (aes.encryptBlock (replicate 32 zero)) [] (replicate 12 zero) [] []
  = Ok (hex.lit "530f8afbc74536b9a963b4f1c4cb738b").
Proof. vm_compute. reflexivity. Qed.

Example gcm_aes256_one_block :
  gcm.Seal (aes.encryptBlock (replicate 32 zero)) [] (replicate 12 zero)
           (replicate 16 zero) []
  = Ok (hex.lit
    "cea7403d4d606b6e074ec5d3baf39d18d0d1c8a799996bf0265b98b5d48ab919").
Proof. vm_compute. reflexivity. Qed.

Example gcm_aes256_four_blocks :
  gcm.Seal
    (aes.encryptBlock (hex.lit
      "feffe9928665731c6d6a8f9467308308feffe9928665731c6d6a8f9467308308"))
    [] (hex.lit "cafebabefacedbaddecaf888")
    (hex.lit ("d9313225f88406e5a55909c5aff5269a86a7a9531534f7da2e4c303d8a318a72"
          +:+ "1c3c0c95956809532fcf0e2449a6b525b16aedf5aa0de657ba637b391aafd255"))
    []
  = Ok (hex.lit ("522dc1f099567d07f47f37a32a84427d643a8cdcbfe5c0c97598a2bd2555d1aa"
             +:+ "8cb08e48590dbb3da7b08b1056828838c5f61e6393ba7a0abcc9f662898015ad"
             +:+ "b094dac5d93471bdec1a502270e3cc6c")).
Proof. vm_compute. reflexivity. Qed.

Example gcm_aes256_partial_block_and_data :
  gcm.Seal
    (aes.encryptBlock (hex.lit
      "feffe9928665731c6d6a8f9467308308feffe9928665731c6d6a8f9467308308"))
    [] (hex.lit "cafebabefacedbaddecaf888")
    (hex.lit ("d9313225f88406e5a55909c5aff5269a86a7a9531534f7da2e4c303d8a318a72"
          +:+ "1c3c0c95956809532fcf0e2449a6b525b16aedf5aa0de657ba637b39"))
    (hex.lit "feedfacedeadbeeffeedfacedeadbeefabaddad2")
  = Ok (hex.lit ("522dc1f099567d07f47f37a32a84427d643a8cdcbfe5c0c97598a2bd2555d1aa"
             +:+ "8cb08e48590dbb3da7b08b1056828838c5f61e6393ba7a0abcc9f662"
             +:+ "76fc6ece0f4e1768cddf8853bb2d551b")).
Proof. vm_compute. reflexivity. Qed.

(** [Encrypt] against envelopes of OpenSSL's AES-256-GCM for the same
    key, nonce and content: the empty content and a partial block. *)
Example Encrypt_empty_openssl :
  crypto.Encrypt [] key1 (replicate 12 zero)
  = (Ok (replicate 12 zero ++ hex.lit "f05d76ae4ab99fe5a6f69b3148c2363d"),
     []).
Proof. vm_compute. reflexivity. Qed.

Example Encrypt_hello_openssl :
  crypto.Encrypt (bytes_of_string "Hello, World!") key1 nonce1
  = (Ok (nonce1 ++ hex.lit
           "ae7d10412ae722e80d17ebb7263915a8e8ba0c3a00de44bf99503c95f9"),
     []).
Proof. vm_compute. reflexivity. Qed.

(** * Checks of the path functions

    [filepath.Dir] and [filepath.Clean] on the examples of their
    documentation. *)

Example filepath_Dir_documented :
  map filepath.Dir
      ["/foo/bar/baz.js"; "/foo/bar/baz"; "/foo/bar/baz/"; "/dirty//path///";
       "dev.txt"; "../todo.txt"; ".."; "."; "/"; ""]
  = ["/foo/bar"; "/foo/bar"; "/foo/bar/baz"; "/dirty/path";
     "."; ".."; "."; "."; "/"; "."].
Proof. vm_compute. reflexivity. Qed.

Example filepath_Clean_documented :
  map filepath.Clean
      ["a/c"; "a//c"; "a/c/."; "a/c/b/.."; "/../a/c"; "/../a/b/../././/c";
       ""; "abc/def/../../.."; "../../abc"; "//"; "abc//"]
  = ["a/c"; "a/c"; "a/c"; "a/c"; "/a/c"; "/a/c";
     "."; ".."; "../../abc"; "/"; "abc"].
Proof. vm_compute. reflexivity. Qed.

(** * Properties *)

(** ** Counter mode and the tag *)

Lemma xorb_cancel (a b : bool) : xorb (xorb a b) b = a.
Proof. by destruct a, b. Qed.

Lemma xor_ascii_cancel (a b : ascii) : xor_ascii (xor_ascii a b) b = a.
Proof. destruct a, b; simpl. by rewrite !xorb_cancel. Qed.

Lemma xorBytes_length (a b : bytes) :
  length a <= length b -> length (xorBytes a b) = length a.
Proof. intros Hle. unfold xorBytes. rewrite length_zip_with. lia. Qed.

Lemma xorBytes_cancel (a b : bytes) :
  length a <= length b -> xorBytes (xorBytes a b) b = a.
Proof.
  revert b. induction a as [|x a IH]; intros [|y b] Hle; simpl in *;
    try reflexivity; try lia.
  rewrite xor_ascii_cancel. f_equal. apply IH. lia.
Qed.

Lemma bytes_of_block_length (x : N) : length (bytes_of_block x) = 16.
Proof. reflexivity. Qed.

Section ModeFacts.
Variable E : N -> N.

Lemma keyStream_length n ctr : length (gcm.keyStream E n ctr) = 16 * n.
Proof.
  revert ctr. induction n as [|n IH]; intros ctr; [simpl; lia|].
  cbn [gcm.keyStream]. rewrite length_app, IH, bytes_of_block_length. lia.
Qed.

Lemma keyStream_covers (src : bytes) ctr :
  length src <= length (gcm.keyStream E ((length src + 15) / 16) ctr).
Proof.
  rewrite keyStream_length.
  pose proof (Nat.div_mod (length src + 15) 16 ltac:(lia)).
  pose proof (Nat.mod_upper_bound (length src + 15) 16 ltac:(lia)). lia.
Qed.

Lemma counterCrypt_length src ctr :
  length (gcm.counterCrypt E src ctr) = length src.
Proof. apply xorBytes_length, keyStream_covers. Qed.

(** Counter mode is its own inverse. *)
Lemma counterCrypt_cancel src ctr :
  gcm.counterCrypt E (gcm.counterCrypt E src ctr) ctr = src.
Proof.
  unfold gcm.counterCrypt at 1. rewrite counterCrypt_length.
  apply xorBytes_cancel, keyStream_covers.
Qed.

Lemma auth_length ct data mask : length (gcm.auth E ct data mask) = 16.
Proof. reflexivity. Qed.

(** What [Seal] returns on a 12-byte nonce and a plaintext within the
    bound. *)
Lemma Seal_Ok dst nonce p data :
  length nonce = 12 ->
  (N.of_nat (length p) <= gcm.maxPlaintext)%N ->
  gcm.Seal E dst nonce p data
  = Ok (dst ++ gcm.counterCrypt E p (gcm.gcmInc32 (gcm.deriveCounter nonce))
            ++ gcm.auth E (gcm.counterCrypt E p
                             (gcm.gcmInc32 (gcm.deriveCounter nonce)))
                        data (E (gcm.deriveCounter nonce))).
Proof.
  intros Hn Hp. unfold gcm.Seal, gcm.gcmStandardNonceSize.
  rewrite Hn. simpl negb. cbv iota.
  destruct (N.ltb_spec gcm.maxPlaintext (N.of_nat (length p))); [lia|done].
Qed.

(** [Open] accepts exactly the sealed messages: whatever it returns
    seals back to the ciphertext it was given. *)
Lemma Open_Ok_inv nonce c data p :
  gcm.Open E [] nonce c data = Ok p ->
  length nonce = 12 /\ gcm.Seal E [] nonce p data = Ok c.
Proof.
  unfold gcm.Open, gcm.gcmStandardNonceSize, gcm.gcmTagSize.
  destruct (Nat.eqb_spec (length nonce) 12) as [Hn|]; simpl negb; cbv iota;
    [|discriminate].
  destruct (Nat.ltb_spec (length c) 16) as [|Hc]; [discriminate|].
  destruct (N.ltb_spec (gcm.maxPlaintext + 16) (N.of_nat (length c)))
    as [|Hmax]; [discriminate|].
  unfold bytes_eqb. case_bool_decide as Htag; simpl negb; cbv iota;
    [|discriminate].
  intros [= <-]. split; [done|].
  rewrite Seal_Ok; [|done|].
  - rewrite counterCrypt_cancel, Htag. simpl. by rewrite take_drop.
  - rewrite counterCrypt_length, length_take. lia.
Qed.

Lemma Open_Seal nonce p data c :
  gcm.Seal E [] nonce p data = Ok c -> gcm.Open E [] nonce c data = Ok p.
Proof.
  unfold gcm.Seal, gcm.gcmStandardNonceSize.
  destruct (Nat.eqb_spec (length nonce) 12) as [Hn|]; simpl negb; cbv iota;
    [|discriminate].
  destruct (N.ltb_spec gcm.maxPlaintext (N.of_nat (length p))) as [|Hp];
    [discriminate|].
  intros [= <-]. simpl app.
  set (ctr := gcm.gcmInc32 (gcm.deriveCounter nonce)).
  set (ct := gcm.counterCrypt E p ctr).
  set (tag := gcm.auth E ct data (E (gcm.deriveCounter nonce))).
  assert (Hct : length ct = length p) by apply counterCrypt_length.
  assert (Htag : length tag = 16) by reflexivity.
  unfold gcm.Open, gcm.gcmStandardNonceSize, gcm.gcmTagSize.
  destruct (Nat.eqb_spec (length nonce) 12); [|done]. simpl negb. cbv iota.
  rewrite length_app, Htag, Hct.
  destruct (Nat.ltb_spec (length p + 16) 16); [lia|].
  destruct (N.ltb_spec (gcm.maxPlaintext + 16) (N.of_nat (length p + 16)));
    [lia|].
  replace (length p + 16 - 16) with (length ct) by lia.
  rewrite take_app_length, drop_app_length.
  fold ctr. fold tag. unfold bytes_eqb.
  rewrite bool_decide_eq_true_2 by done. simpl.
  subst ct. by rewrite counterCrypt_cancel.
Qed.
End ModeFacts.

(** ** Encrypt and Decrypt *)

Lemma NewCipher_32 key :
  length key = 32 -> aes.NewCipher key = Ok (aes.encryptBlock key).
Proof.
  intros Hk. unfold aes.NewCipher. rewrite Hk.
  by rewrite bool_decide_eq_true_2 by (right; right; done).
Qed.

Lemma NewCipher_Ok_inv key block :
  aes.NewCipher key = Ok block -> block = aes.encryptBlock key.
Proof. unfold aes.NewCipher. case_bool_decide; congruence. Qed.

Lemma ReadFull_exact (nonce rest : bytes) :
  length nonce = 12 ->
  rand.ReadFull (nonce ++ rest) crypto.NonceSize = (Ok nonce, rest).
Proof.
  intros Hn. unfold rand.ReadFull, crypto.NonceSize, gcm.gcmStandardNonceSize.
  rewrite length_app, Hn.
  destruct (Nat.leb_spec 12 (12 + length rest)); [|lia].
  by rewrite take_app_length', drop_app_length'.
Qed.

Lemma Encrypt_envelope key plaintext nonce rest :
  length key = 32 -> length nonce = 12 ->
  (N.of_nat (length plaintext) <= gcm.maxPlaintext)%N ->
  crypto.Encrypt plaintext key (nonce ++ rest)
  = (Ok (envelope (aes.encryptBlock key) nonce plaintext), rest).
Proof.
  intros Hk Hn Hp. unfold crypto.Encrypt.
  rewrite NewCipher_32, ReadFull_exact by done.
  by rewrite Seal_Ok by done.
Qed.

Lemma Decrypt_envelope key plaintext nonce :
  length key = 32 -> length nonce = 12 ->
  (N.of_nat (length plaintext) <= gcm.maxPlaintext)%N ->
  crypto.Decrypt (envelope (aes.encryptBlock key) nonce plaintext) key
  = Ok plaintext.
Proof.
  intros Hk Hn Hp. unfold crypto.Decrypt.
  rewrite NewCipher_32 by done. unfold envelope, crypto.NonceSize,
    gcm.gcmStandardNonceSize.
  rewrite length_app, Hn.
  destruct (Nat.ltb_spec (12 + length
    (gcm.counterCrypt (aes.encryptBlock key) plaintext
       (gcm.gcmInc32 (gcm.deriveCounter nonce)) ++
     gcm.auth (aes.encryptBlock key)
       (gcm.counterCrypt (aes.encryptBlock key) plaintext
          (gcm.gcmInc32 (gcm.deriveCounter nonce))) []
       (aes.encryptBlock key (gcm.deriveCounter nonce)))) 12); [lia|].
  rewrite take_app_length', drop_app_length' by done.
  erewrite Open_Seal; [done|]. by rewrite Seal_Ok.
Qed.

(** Above the bound of one GCM call [Seal] panics, and [Encrypt] with
    it. *)
Lemma Encrypt_too_large key content rng :
  length key = 32 -> 12 <= length rng ->
  (gcm.maxPlaintext < N.of_nat (length content))%N ->
  crypto.Encrypt content key rng
  = (Panic "crypto/cipher: message too large for GCM", drop 12 rng).
Proof.
  intros Hk Hrng Hp. unfold crypto.Encrypt. rewrite NewCipher_32 by done.
  unfold rand.ReadFull, crypto.NonceSize, gcm.gcmStandardNonceSize.
  destruct (Nat.leb_spec 12 (length rng)); [|lia].
  unfold gcm.Seal, gcm.gcmStandardNonceSize.
  rewrite length_take, Nat.min_l by done. simpl negb. cbv iota.
  by destruct (N.ltb_spec gcm.maxPlaintext (N.of_nat (length content)));
    [|lia].
Qed.

Lemma tooLarge_length :
  (gcm.maxPlaintext < N.of_nat (length tooLarge))%N.
Proof.
  unfold tooLarge. rewrite length_replicate, N2Nat.id.
  apply N.lt_add_pos_r. done.
Qed.

(** Claim C1, with the bound it needs. For every key of 32 bytes and a
    random source that delivers the twelve bytes of the nonce: for every
    content of at most [2^36 - 32] bytes, the empty one included,
    [Encrypt] returns an envelope and [Decrypt] of that envelope under
    the same key returns the content; for a longer content [Encrypt]
    returns nothing, as [Seal] panics. *)
Theorem Decrypt_Encrypt (key content rng : bytes) :
  length key = crypto.KeySize ->
  crypto.NonceSize <= length rng ->
  ((N.of_nat (length content) <= gcm.maxPlaintext)%N ->
   exists envelope,
     crypto.Encrypt content key rng = (Ok envelope, drop crypto.NonceSize rng)
     /\ crypto.Decrypt envelope key = Ok content)
  /\ ((gcm.maxPlaintext < N.of_nat (length content))%N ->
      crypto.Encrypt content key rng
      = (Panic "crypto/cipher: message too large for GCM",
         drop crypto.NonceSize rng)).
Proof.
  intros Hk Hrng. split; intros Hp.
  - exists (envelope (aes.encryptBlock key) (take 12 rng) content).
    assert (Hn : length (take 12 rng) = 12).
    { rewrite length_take.
      unfold crypto.NonceSize, gcm.gcmStandardNonceSize in *. lia. }
    split.
    + rewrite <- (take_drop 12 rng) at 1. by apply Encrypt_envelope.
    + by apply Decrypt_envelope.
  - by apply Encrypt_too_large.
Qed.

Lemma Decrypt_Encrypt_witness :
  exists envelope,
    crypto.Encrypt content1 key1 nonce1 = (Ok envelope, [])
    /\ crypto.Decrypt envelope key1 = Ok content1.
Proof.
  apply (Decrypt_Encrypt key1 content1 nonce1);
    [reflexivity | vm_compute; lia | by vm_compute].
Defined.

(** Claim C1 as the specification states it, for every content, fails:
    for the content [tooLarge] of [2^36 - 31] bytes [Encrypt] panics
    under the 32-byte key [key1], so that there is no envelope to
    decrypt. *)
Lemma Encrypt_panics_above_bound :
  length key1 = crypto.KeySize
  /\ crypto.Encrypt tooLarge key1 nonce1
     = (Panic "crypto/cipher: message too large for GCM", []).
Proof.
  split; [reflexivity|].
  rewrite (Encrypt_too_large key1 tooLarge nonce1);
    [reflexivity | reflexivity | apply Nat.leb_le; reflexivity
    | apply tooLarge_length].
Qed.

(** Claim C5, with the bound it needs. Two calls of [Encrypt] with the
    same plaintext and the same key, the second reading the random
    source where the first left it: each call draws a nonce of its own.
    For a plaintext of at most [2^36 - 32] bytes, when the two nonces
    differ the two envelopes differ, and both decrypt to the plaintext;
    for a longer plaintext both calls panic and there are no
    envelopes. *)
Theorem Encrypt_twice (key x first second rest : bytes) :
  length key = crypto.KeySize ->
  length first = crypto.NonceSize ->
  length second = crypto.NonceSize ->
  first <> second ->
  ((N.of_nat (length x) <= gcm.maxPlaintext)%N ->
   exists e1 e2,
     crypto.Encrypt x key (first ++ second ++ rest) = (Ok e1, second ++ rest)
     /\ crypto.Encrypt x key (second ++ rest) = (Ok e2, rest)
     /\ take crypto.NonceSize e1 = first
     /\ take crypto.NonceSize e2 = second
     /\ e1 <> e2
     /\ crypto.Decrypt e1 key = Ok x
     /\ crypto.Decrypt e2 key = Ok x)
  /\ ((gcm.maxPlaintext < N.of_nat (length x))%N ->
      crypto.Encrypt x key (first ++ second ++ rest)
      = (Panic "crypto/cipher: message too large for GCM", second ++ rest)
      /\ crypto.Encrypt x key (second ++ rest)
         = (Panic "crypto/cipher: message too large for GCM", rest)).
Proof.
  intros Hk Hn1 Hn2 Hne. split; intros Hx.
  - exists (envelope (aes.encryptBlock key) first x),
           (envelope (aes.encryptBlock key) second x).
    split_and!.
    + by apply Encrypt_envelope.
    + by apply Encrypt_envelope.
    + unfold envelope. by rewrite take_app_length'.
    + unfold envelope. by rewrite take_app_length'.
    + intros Heq. apply Hne.
      apply (f_equal (take 12)) in Heq. unfold envelope in Heq.
      by rewrite !take_app_length' in Heq.
    + by apply Decrypt_envelope.
    + by apply Decrypt_envelope.
  - unfold crypto.NonceSize, gcm.gcmStandardNonceSize in *. split.
    + rewrite Encrypt_too_large; [|done|rewrite length_app; lia|done].
      by rewrite drop_app_length'.
    + rewrite Encrypt_too_large; [|done|rewrite length_app; lia|done].
      by rewrite drop_app_length'.
Qed.

Lemma Encrypt_twice_witness :
  exists e1 e2,
    crypto.Encrypt content1 key1 (replicate 12 zero ++ nonce1 ++ [])
    = (Ok e1, nonce1 ++ [])
    /\ crypto.Encrypt content1 key1 (nonce1 ++ []) = (Ok e2, [])
    /\ take crypto.NonceSize e1 = replicate 12 zero
    /\ take crypto.NonceSize e2 = nonce1
    /\ e1 <> e2
    /\ crypto.Decrypt e1 key1 = Ok content1
    /\ crypto.Decrypt e2 key1 = Ok content1.
Proof.
  apply (Encrypt_twice key1 content1 (replicate 12 zero) nonce1 []);
    [reflexivity | reflexivity | reflexivity | by vm_compute
    | by vm_compute].
Defined.

(** Claim C5 as the specification states it, for every plaintext, fails:
    with the plaintext [tooLarge] of [2^36 - 31] bytes two calls of
    [Encrypt] under [key1], with two different nonces at hand, both
    panic; no envelope is produced. *)
Lemma Encrypt_twice_above_bound :
  replicate 12 zero <> nonce1
  /\ crypto.Encrypt tooLarge key1 (replicate 12 zero ++ nonce1)
     = (Panic "crypto/cipher: message too large for GCM", nonce1)
  /\ crypto.Encrypt tooLarge key1 nonce1
     = (Panic "crypto/cipher: message too large for GCM", []).
Proof.
  split_and!.
  - by vm_compute.
  - rewrite (Encrypt_too_large key1 tooLarge (replicate 12 zero ++ nonce1));
      [reflexivity | reflexivity | apply Nat.leb_le; reflexivity
      | apply tooLarge_length].
  - rewrite (Encrypt_too_large key1 tooLarge nonce1);
      [reflexivity | reflexivity | apply Nat.leb_le; reflexivity
      | apply tooLarge_length].
Qed.

(** ** The block cipher is a permutation *)

(** Equations between exclusive-ors of numbers, bit by bit. *)
Ltac xor_solve :=
  apply N.bits_inj; intros ?n; repeat (rewrite N.land_spec || rewrite N.lxor_spec || rewrite N.bits_0);
  btauto.

Lemma xtime_lxor a b :
  aes.xtime (N.lxor a b) = N.lxor (aes.xtime a) (aes.xtime b).
Proof.
  unfold aes.xtime. cbv zeta.
  rewrite N.lxor_spec, N.shiftl_lxor.
  destruct (N.testbit a 7), (N.testbit b 7); cbn [xorb]; xor_solve.
Qed.

Lemma gf8_mul_loop_lxor n a a' b acc acc' :
  aes.gf8_mul_loop n (N.lxor a a') b (N.lxor acc acc')
  = N.lxor (aes.gf8_mul_loop n a b acc) (aes.gf8_mul_loop n a' b acc').
Proof.
  revert a a' b acc acc'. induction n as [|n IH]; intros; [done|].
  cbn [aes.gf8_mul_loop]. rewrite xtime_lxor.
  destruct (N.odd b); [|apply IH].
  rewrite <- IH. f_equal. xor_solve.
Qed.

Lemma gf8_mul_lxor a a' b :
  aes.gf8_mul (N.lxor a a') b = N.lxor (aes.gf8_mul a b) (aes.gf8_mul a' b).
Proof. unfold aes.gf8_mul. by rewrite <- gf8_mul_loop_lxor. Qed.

Lemma isByte_lxor a b : isByte a -> isByte b -> isByte (N.lxor a b).
Proof.
  unfold isByte. intros Ha Hb.
  assert (H : forall v, (v < 256)%N <-> N.shiftr v 8 = 0%N).
  { intros v. rewrite N.shiftr_div_pow2. change (2 ^ 8)%N with 256%N.
    by rewrite N.div_small_iff. }
  apply H. rewrite N.shiftr_lxor.
  apply H in Ha, Hb. by rewrite Ha, Hb.
Qed.

Lemma isByte_xtime a : isByte (aes.xtime a).
Proof.
  unfold aes.xtime. cbv zeta.
  assert (isByte (N.land (N.shiftl a 1) 255)).
  { unfold isByte. change 255%N with (N.ones 8). rewrite N.land_ones.
    apply N.mod_lt. done. }
  destruct (N.testbit a 7); [|done]. apply isByte_lxor; [done|]. by vm_compute.
Qed.

Lemma isByte_gf8_mul_loop n a b acc :
  isByte a -> isByte acc -> isByte (aes.gf8_mul_loop n a b acc).
Proof.
  revert a b acc. induction n as [|n IH]; intros a b acc Ha Hacc; [done|].
  cbn [aes.gf8_mul_loop]. apply IH; [apply isByte_xtime|].
  destruct (N.odd b); [by apply isByte_lxor|done].
Qed.

Lemma isByte_gf8_mul a b : isByte a -> isByte (aes.gf8_mul a b).
Proof. intros. apply isByte_gf8_mul_loop; [done|by vm_compute]. Qed.

(** A property of every byte, checked on the 256 of them. *)
Lemma byte_cases (P : N -> Prop) :
  Forall P (map N.of_nat (seq 0 256)) -> forall a, isByte a -> P a.
Proof.
  intros HP a Ha. rewrite Forall_forall in HP. apply HP.
  rewrite <- (N2Nat.id a). apply list_elem_of_fmap_2, elem_of_seq.
  unfold isByte in Ha. lia.
Qed.

Lemma MixColumn_length a : length a = 4 -> length (aes.MixColumn a) = 4.
Proof. by destruct a as [|? [|? [|? [|? [|]]]]]. Qed.

Lemma MixColumn_lxor a b :
  length a = 4 -> length b = 4 ->
  aes.MixColumn (xorCol a b) = xorCol (aes.MixColumn a) (aes.MixColumn b).
Proof.
  destruct a as [|a0 [|a1 [|a2 [|a3 [|]]]]]; try done.
  destruct b as [|b0 [|b1 [|b2 [|b3 [|]]]]]; try done. intros _ _.
  unfold xorCol, aes.MixColumn. cbn [zip_with].
  rewrite !gf8_mul_lxor.
  f_equal; [|f_equal; [|f_equal; [|f_equal]]]; xor_solve.
Qed.

Lemma InvMixColumn_lxor a b :
  length a = 4 -> length b = 4 ->
  aes.InvMixColumn (xorCol a b) = xorCol (aes.InvMixColumn a) (aes.InvMixColumn b).
Proof.
  destruct a as [|a0 [|a1 [|a2 [|a3 [|]]]]]; try done.
  destruct b as [|b0 [|b1 [|b2 [|b3 [|]]]]]; try done. intros _ _.
  unfold xorCol, aes.InvMixColumn. cbn [zip_with].
  rewrite !gf8_mul_lxor.
  f_equal; [|f_equal; [|f_equal; [|f_equal]]]; xor_solve.
Qed.

(** [InvMixColumn] undoes [MixColumn]: on a column with one byte, by
    computation; on every column, as both are linear. *)
Lemma InvMixColumn_unit :
  forall a, isByte a ->
    aes.InvMixColumn (aes.MixColumn [a; 0; 0; 0]%N) = [a; 0; 0; 0]%N
    /\ aes.InvMixColumn (aes.MixColumn [0; a; 0; 0]%N) = [0; a; 0; 0]%N
    /\ aes.InvMixColumn (aes.MixColumn [0; 0; a; 0]%N) = [0; 0; a; 0]%N
    /\ aes.InvMixColumn (aes.MixColumn [0; 0; 0; a]%N) = [0; 0; 0; a]%N.
Proof. apply byte_cases. apply (bool_decide_unpack _). by vm_compute. Qed.

Lemma InvMixColumn_MixColumn a0 a1 a2 a3 :
  isByte a0 -> isByte a1 -> isByte a2 -> isByte a3 ->
  aes.InvMixColumn (aes.MixColumn [a0; a1; a2; a3]) = [a0; a1; a2; a3].
Proof.
  intros H0 H1 H2 H3.
  destruct (InvMixColumn_unit a0 H0) as (U0 & _).
  destruct (InvMixColumn_unit a1 H1) as (_ & U1 & _).
  destruct (InvMixColumn_unit a2 H2) as (_ & _ & U2 & _).
  destruct (InvMixColumn_unit a3 H3) as (_ & _ & _ & U3).
  assert (Hsplit : [a0; a1; a2; a3]
    = xorCol (xorCol (xorCol [a0; 0%N; 0%N; 0%N] [0%N; a1; 0%N; 0%N])
                     [0%N; 0%N; a2; 0%N]) [0%N; 0%N; 0%N; a3]).
  { unfold xorCol. cbn [zip_with]. by rewrite !N.lxor_0_r, !N.lxor_0_l. }
  rewrite Hsplit at 1.
  rewrite !MixColumn_lxor by done.
  rewrite !InvMixColumn_lxor
    by (unfold xorCol; rewrite ?length_zip_with, ?MixColumn_length; done).
  by rewrite U0, U1, U2, U3.
Qed.

Lemma MixColumn_bytes a : Forall isByte a -> Forall isByte (aes.MixColumn a).
Proof.
  destruct a as [|a0 [|a1 [|a2 [|a3 [|]]]]]; try done.
  intros H. apply Forall_cons in H as [H0 H]. apply Forall_cons in H as [H1 H].
  apply Forall_cons in H as [H2 H]. apply Forall_cons in H as [H3 _].
  unfold aes.MixColumn.
  repeat constructor;
    repeat first [simple apply isByte_gf8_mul | simple apply isByte_lxor
                 | assumption].
Qed.

(** The S-box is a permutation of the bytes. *)
Lemma sbox_length : length aes.sbox = 256.
Proof. reflexivity. Qed.

Lemma sbox_NoDup : NoDup aes.sbox.
Proof. apply (bool_decide_unpack _). by vm_compute. Qed.

Lemma sbox_bytes : Forall isByte aes.sbox.
Proof. apply (bool_decide_unpack _). by vm_compute. Qed.

Lemma SubByte_byte x : isByte (aes.SubByte x).
Proof.
  unfold aes.SubByte.
  destruct (decide (N.to_nat x < 256)) as [Hx|Hx].
  - pose proof sbox_bytes as H. rewrite Forall_forall in H. apply H.
    apply list_elem_of_In, nth_In. by rewrite sbox_length.
  - rewrite nth_overflow by (rewrite sbox_length; lia). by vm_compute.
Qed.

Lemma SubByte_inj x y :
  isByte x -> isByte y -> aes.SubByte x = aes.SubByte y -> x = y.
Proof.
  unfold isByte, aes.SubByte. intros Hx Hy Heq.
  apply N2Nat.inj.
  apply (proj1 (List.NoDup_nth aes.sbox 0%N));
    try (rewrite sbox_length; lia); try done.
  apply NoDup_ListNoDup, sbox_NoDup.
Qed.

(** The steps of a round on a state. *)
Ltac destruct_list16 s :=
  let H := fresh in
  destruct s as [|? [|? [|? [|? [|? [|? [|? [|? [|? [|? [|? [|? [|? [|? [|? [|?
    [|? ?]]]]]]]]]]]]]]]]];
  try (intros H; discriminate H); try discriminate.

Lemma state_inv s : isState s ->
  exists s0 s1 s2 s3 s4 s5 s6 s7 s8 s9 s10 s11 s12 s13 s14 s15,
    s = [s0; s1; s2; s3; s4; s5; s6; s7;
         s8; s9; s10; s11; s12; s13; s14; s15].
Proof.
  intros [Hlen _]. revert Hlen. destruct_list16 s. intros _. by repeat eexists.
Qed.

Lemma SubBytes_state s : length s = 16 -> isState (aes.SubBytes s).
Proof.
  intros Hlen. split; [unfold aes.SubBytes; by rewrite length_map|].
  unfold aes.SubBytes. apply Forall_fmap, Forall_true. intros x. apply SubByte_byte.
Qed.

Lemma SubBytes_inj s s' :
  isState s -> isState s' -> aes.SubBytes s = aes.SubBytes s' -> s = s'.
Proof.
  intros [Hl Hb] [Hl' Hb']. unfold aes.SubBytes.
  assert (Hlen : length s = length s') by congruence. clear Hl Hl'.
  revert s' Hb' Hlen.
  induction Hb as [|x s Hx Hs IH]; intros [|y s'] Hb' Hlen;
    try done.
  apply Forall_cons in Hb' as [Hy Hs']. simpl. intros [= Hxy Hrest].
  f_equal; [by apply SubByte_inj|]. apply IH; [done|by simplify_eq/=|done].
Qed.

Lemma ShiftRows_state s : isState s -> isState (aes.ShiftRows s).
Proof.
  intros Hs. destruct (state_inv s Hs)
    as (s0&s1&s2&s3&s4&s5&s6&s7&s8&s9&s10&s11&s12&s13&s14&s15&->).
  destruct Hs as [_ Hb]. split; [done|].
  rewrite !Forall_cons in Hb. vm_compute aes.ShiftRows.
  repeat constructor; tauto.
Qed.

Lemma ShiftRows_inj s s' :
  isState s -> isState s' -> aes.ShiftRows s = aes.ShiftRows s' -> s = s'.
Proof.
  intros Hs Hs'.
  destruct (state_inv s Hs)
    as (s0&s1&s2&s3&s4&s5&s6&s7&s8&s9&s10&s11&s12&s13&s14&s15&->).
  destruct (state_inv s' Hs')
    as (t0&t1&t2&t3&t4&t5&t6&t7&t8&t9&t10&t11&t12&t13&t14&t15&->).
  vm_compute. intros H.
  injection H as -> -> -> -> -> -> -> -> -> -> -> -> -> -> -> ->.
  reflexivity.
Qed.

Lemma MixColumns_16 s0 s1 s2 s3 s4 s5 s6 s7 s8 s9 s10 s11 s12 s13 s14 s15 :
  aes.MixColumns [s0; s1; s2; s3; s4; s5; s6; s7;
                  s8; s9; s10; s11; s12; s13; s14; s15]
  = aes.MixColumn [s0; s1; s2; s3] ++ aes.MixColumn [s4; s5; s6; s7]
    ++ aes.MixColumn [s8; s9; s10; s11] ++ aes.MixColumn [s12; s13; s14; s15].
Proof.
  unfold aes.MixColumns, aes.chunks.
  cbn [map seq concat Nat.mul Nat.add take drop]. by rewrite app_nil_r.
Qed.

Lemma MixColumns_state s : isState s -> isState (aes.MixColumns s).
Proof.
  intros Hs. destruct (state_inv s Hs)
    as (s0&s1&s2&s3&s4&s5&s6&s7&s8&s9&s10&s11&s12&s13&s14&s15&->).
  destruct Hs as [_ Hb]. rewrite MixColumns_16. split; [done|].
  rewrite !Forall_cons in Hb.
  rewrite !Forall_app.
  split_and!; apply MixColumn_bytes; repeat constructor; tauto.
Qed.

Lemma MixColumns_inj s s' :
  isState s -> isState s' -> aes.MixColumns s = aes.MixColumns s' -> s = s'.
Proof.
  intros Hs Hs'.
  destruct (state_inv s Hs)
    as (s0&s1&s2&s3&s4&s5&s6&s7&s8&s9&s10&s11&s12&s13&s14&s15&->).
  destruct (state_inv s' Hs')
    as (t0&t1&t2&t3&t4&t5&t6&t7&t8&t9&t10&t11&t12&t13&t14&t15&->).
  destruct Hs as [_ Hb], Hs' as [_ Hb']. rewrite !Forall_cons in Hb, Hb'.
  rewrite !MixColumns_16. intros Heq.
  apply app_inj_1 in Heq as [H0 Heq]; [|done].
  apply app_inj_1 in Heq as [H1 Heq]; [|done].
  apply app_inj_1 in Heq as [H2 H3]; [|done].
  apply (f_equal aes.InvMixColumn) in H0, H1, H2, H3.
  rewrite !InvMixColumn_MixColumn in H0, H1, H2, H3 by tauto.
  congruence.
Qed.

Lemma AddRoundKey_state rk s :
  isState rk -> isState s -> isState (aes.AddRoundKey rk s).
Proof.
  intros [Hl Hb] [Hl' Hb']. unfold aes.AddRoundKey. split.
  - rewrite length_zip_with. lia.
  - clear Hl Hl'. revert rk Hb. induction Hb' as [|x s Hx Hs IH]; intros [|k rk] Hb;
      try constructor.
    + apply Forall_cons in Hb as [Hk _]. by apply isByte_lxor.
    + apply Forall_cons in Hb as [_ Hb]. by apply IH.
Qed.

Lemma AddRoundKey_inj rk s s' :
  length s = length rk -> length s' = length rk ->
  aes.AddRoundKey rk s = aes.AddRoundKey rk s' -> s = s'.
Proof.
  unfold aes.AddRoundKey. revert s s'.
  induction rk as [|k rk IH]; intros [|x s] [|y s'] Hl Hl'; try done.
  simpl. intros [= Hxy Hrest]. f_equal.
  - apply (f_equal (fun v => N.lxor v k)) in Hxy.
    by rewrite !N.lxor_assoc, !N.lxor_nilpotent, !N.lxor_0_r in Hxy.
  - apply IH; [by simplify_eq/=..|done].
Qed.

Lemma round_state s rk : isState rk -> isState s -> isState (aes.round s rk).
Proof.
  intros Hrk Hs. unfold aes.round.
  apply AddRoundKey_state, MixColumns_state, ShiftRows_state, SubBytes_state;
    [done|apply Hs].
Qed.

Lemma round_inj rk s s' :
  isState rk -> isState s -> isState s' -> aes.round s rk = aes.round s' rk -> s = s'.
Proof.
  intros Hrk Hs Hs' Heq. unfold aes.round in Heq.
  assert (H1 : isState (aes.SubBytes s)) by apply SubBytes_state, Hs.
  assert (H1' : isState (aes.SubBytes s')) by apply SubBytes_state, Hs'.
  pose proof (ShiftRows_state _ H1) as H2.
  pose proof (ShiftRows_state _ H1') as H2'.
  pose proof (MixColumns_state _ H2) as H3.
  pose proof (MixColumns_state _ H2') as H3'.
  apply AddRoundKey_inj in Heq;
    [|destruct H3, Hrk; congruence|destruct H3', Hrk; congruence].
  by apply MixColumns_inj, ShiftRows_inj, SubBytes_inj in Heq.
Qed.

Lemma finalRound_state s rk :
  isState rk -> isState s -> isState (aes.finalRound s rk).
Proof.
  intros Hrk Hs. unfold aes.finalRound.
  apply AddRoundKey_state, ShiftRows_state, SubBytes_state; [done|apply Hs].
Qed.

Lemma finalRound_inj rk s s' :
  isState rk -> isState s -> isState s' ->
  aes.finalRound s rk = aes.finalRound s' rk -> s = s'.
Proof.
  intros Hrk Hs Hs' Heq. unfold aes.finalRound in Heq.
  assert (H1 : isState (aes.SubBytes s)) by apply SubBytes_state, Hs.
  assert (H1' : isState (aes.SubBytes s')) by apply SubBytes_state, Hs'.
  pose proof (ShiftRows_state _ H1) as H2.
  pose proof (ShiftRows_state _ H1') as H2'.
  apply AddRoundKey_inj in Heq;
    [|destruct H2, Hrk; congruence|destruct H2', Hrk; congruence].
  by apply ShiftRows_inj, SubBytes_inj in Heq.
Qed.

Lemma rounds_state rks s :
  Forall isState rks -> isState s -> isState (fold_left aes.round rks s).
Proof.
  intros Hrks. revert s.
  induction Hrks as [|rk rks Hrk _ IH]; intros s Hs; [done|].
  simpl. by apply IH, round_state.
Qed.

Lemma rounds_inj rks s s' :
  Forall isState rks -> isState s -> isState s' ->
  fold_left aes.round rks s = fold_left aes.round rks s' -> s = s'.
Proof.
  intros Hrks. revert s s'.
  induction Hrks as [|rk rks Hrk _ IH]; intros s s' Hs Hs'; [done|].
  simpl. intros Heq. apply IH in Heq; [|by apply round_state..].
  by apply round_inj in Heq.
Qed.

(** The key schedule makes [Nk + 7] round keys of 16 bytes. *)
Lemma chunks_length {A} n k (l : list A) : length (aes.chunks n k l) = n.
Proof. unfold aes.chunks. by rewrite length_map, length_seq. Qed.

Lemma chunks_Forall {A} (P : A -> Prop) n k (l : list A) :
  Forall P l -> k * n <= length l ->
  Forall (fun c => length c = k /\ Forall P c) (aes.chunks n k l).
Proof.
  intros Hl Hlen. unfold aes.chunks. apply Forall_fmap, Forall_forall.
  intros i Hi%elem_of_seq. simpl. split.
  - rewrite length_take, length_drop. nia.
  - by apply Forall_take, Forall_drop.
Qed.

Lemma word_nth w i : Forall isWord w -> i < length w -> isWord (nth i w []).
Proof.
  intros Hw Hi. rewrite Forall_forall in Hw. by apply Hw, list_elem_of_In, nth_In.
Qed.

Lemma word_lxor a b : isWord a -> isWord b -> isWord (zip_with N.lxor a b).
Proof.
  intros [Hl Hb] [Hl' Hb']. split; [rewrite length_zip_with; lia|].
  clear Hl Hl'. revert b Hb'.
  induction Hb as [|x a Hx Ha IH]; intros [|y b] Hb';
    try constructor.
  - apply Forall_cons in Hb' as [Hy _]. by apply isByte_lxor.
  - apply Forall_cons in Hb' as [_ Hb']. by apply IH.
Qed.

Lemma word_SubWord w : length w = 4 -> isWord (aes.SubWord w).
Proof.
  intros Hl. unfold aes.SubWord. split; [by rewrite length_map|].
  apply Forall_fmap, Forall_true. intros x.
  apply SubByte_byte.
Qed.

Lemma RotWord_length w : length (aes.RotWord w) = length w.
Proof. destruct w; [done|]. simpl. rewrite length_app. simpl. lia. Qed.

Lemma expand_words n Nk i rcon w :
  0 < Nk -> Nk <= i -> length w = i -> Forall isWord w -> isByte rcon ->
  Forall isWord (aes.expand n Nk i rcon w)
  /\ length (aes.expand n Nk i rcon w) = i + n.
Proof.
  intros HNk. revert i rcon w.
  induction n as [|n IH]; intros i rcon w Hi Hlen Hw Hrcon.
  { simpl. split; [done|lia]. }
  cbn [aes.expand]. cbv zeta.
  assert (Hprev : isWord (nth (i - 1) w [])) by (apply word_nth; [done|lia]).
  assert (Hold : isWord (nth (i - Nk) w [])) by (apply word_nth; [done|lia]).
  assert (Hstep : forall temp rcon', isWord temp -> isByte rcon' ->
    Forall isWord (aes.expand n Nk (S i) rcon'
                   (w ++ [zip_with N.lxor (nth (i - Nk) w []) temp]))
    /\ length (aes.expand n Nk (S i) rcon'
                   (w ++ [zip_with N.lxor (nth (i - Nk) w []) temp]))
       = i + S n).
  { intros temp rcon' Htemp Hrcon'.
    destruct (IH (S i) rcon' (w ++ [zip_with N.lxor (nth (i - Nk) w []) temp]))
      as [H1 H2]; [lia|rewrite length_app; simpl; lia| |done|].
    - apply Forall_app. split; [done|]. constructor; [|done].
      by apply word_lxor.
    - split; [done|lia]. }
  destruct (i mod Nk =? 0)%nat.
  - apply Hstep; [|apply isByte_xtime].
    apply word_lxor.
    + apply word_SubWord. rewrite RotWord_length. apply Hprev.
    + split; [done|]. repeat constructor; [done|by vm_compute..].
  - destruct ((6 <? Nk)%nat && (i mod Nk =? 4)%nat).
    + apply Hstep; [|done]. apply word_SubWord, Hprev.
    + by apply Hstep.
Qed.

Lemma concat_words w :
  Forall isWord w ->
  length (concat w) = 4 * length w /\ Forall isByte (concat w).
Proof.
  induction 1 as [|x w [Hl Hb] _ [IH1 IH2]]; [done|].
  simpl. rewrite length_app, Forall_app. split; [lia|done].
Qed.

Lemma KeyExpansion_states key :
  Forall isByte key -> 4 <= length key ->
  Forall isState (aes.KeyExpansion key)
  /\ length (aes.KeyExpansion key) = length key / 4 + 7.
Proof.
  intros Hkey Hlen. unfold aes.KeyExpansion. cbv zeta.
  set (Nk := length key / 4).
  assert (HNk : 0 < Nk) by (apply Nat.div_str_pos; lia).
  assert (Hle : 4 * Nk <= length key) by apply Nat.Div0.mul_div_le.
  destruct (expand_words (4 * (Nk + 7) - Nk) Nk Nk 1 (aes.chunks Nk 4 key))
    as [Hw Hl]; [done|done|apply chunks_length| |by vm_compute|].
  { by apply (chunks_Forall isByte). }
  destruct (concat_words _ Hw) as [Hcl Hcb].
  split; [|apply chunks_length].
  apply (chunks_Forall isByte); [done|]. rewrite Hcl, Hl. lia.
Qed.

Lemma Cipher_inj key s s' :
  Forall isByte key -> 4 <= length key -> isState s -> isState s' ->
  aes.Cipher key s = aes.Cipher key s' -> s = s'.
Proof.
  intros Hkey Hlen Hs Hs'. unfold aes.Cipher.
  destruct (KeyExpansion_states key Hkey Hlen) as [Hrks Hn].
  destruct (aes.KeyExpansion key) as [|rk0 rks]; [done|].
  apply Forall_cons in Hrks as [Hrk0 Hrks]. cbv zeta.
  assert (Hne : rks <> []) by (intros ->; simpl in Hn; lia).
  pose proof (app_removelast_last [] Hne) as Hsplit.
  assert (H : Forall isState (removelast rks) /\ isState (List.last rks [])).
  { rewrite Hsplit in Hrks. apply Forall_app in Hrks as [H1 H2].
    split; [done|]. by apply Forall_cons in H2 as [H2 _]. }
  destruct H as [Hinit Hlast]. intros Heq.
  apply finalRound_inj in Heq;
    [|done|apply rounds_state; [done|by apply AddRoundKey_state]..].
  apply rounds_inj in Heq; [|done|by apply AddRoundKey_state..].
  apply AddRoundKey_inj in Heq; [done|destruct Hs, Hrk0; congruence
                                |destruct Hs', Hrk0; congruence].
Qed.

Lemma Cipher_state key s :
  Forall isByte key -> 4 <= length key -> isState s -> isState (aes.Cipher key s).
Proof.
  intros Hkey Hlen Hs. unfold aes.Cipher.
  destruct (KeyExpansion_states key Hkey Hlen) as [Hrks Hn].
  destruct (aes.KeyExpansion key) as [|rk0 rks]; [done|].
  apply Forall_cons in Hrks as [Hrk0 Hrks]. cbv zeta.
  assert (Hne : rks <> []) by (intros ->; simpl in Hn; lia).
  pose proof (app_removelast_last [] Hne) as Hsplit.
  assert (H : Forall isState (removelast rks) /\ isState (List.last rks [])).
  { rewrite Hsplit in Hrks. apply Forall_app in Hrks as [H1 H2].
    split; [done|]. by apply Forall_cons in H2 as [H2 _]. }
  destruct H as [Hinit Hlast].
  apply finalRound_state; [done|]. apply rounds_state; [done|].
  by apply AddRoundKey_state.
Qed.

(** Blocks as numbers and as their 16 bytes. *)
Lemma be_N_snoc l c : be_N (l ++ [c]) = (be_N l * 256 + N_of_ascii c)%N.
Proof. unfold be_N. by rewrite fold_left_app. Qed.

Lemma be_N_bound l : (be_N l < 256 ^ N.of_nat (length l))%N.
Proof.
  induction l as [|c l IH] using rev_ind; [by vm_compute|].
  rewrite be_N_snoc, length_app. simpl length.
  replace (N.of_nat (length l + 1)) with (N.succ (N.of_nat (length l))) by lia.
  rewrite N.pow_succ_r'. pose proof (N_ascii_bounded c). lia.
Qed.

Lemma be_N_inj l l' : length l = length l' -> be_N l = be_N l' -> l = l'.
Proof.
  revert l'. induction l as [|c l IH] using rev_ind; intros l'.
  { destruct l'; [done|discriminate]. }
  destruct l' as [|c' l' _] using rev_ind.
  { rewrite length_app. simpl. lia. }
  rewrite !length_app, !be_N_snoc. cbn [length]. intros Hlen Heq.
  pose proof (N_ascii_bounded c). pose proof (N_ascii_bounded c').
  assert (Hc : N_of_ascii c = N_of_ascii c') by lia.
  assert (Hl : be_N l = be_N l') by lia.
  f_equal; [apply IH; [lia|done]|].
  f_equal. by rewrite <- (ascii_N_embedding c), Hc, ascii_N_embedding.
Qed.

Lemma bytes_of_block_bits x y n :
  bytes_of_block x = bytes_of_block y -> (n < 128)%N ->
  N.testbit x n = N.testbit y n.
Proof.
  intros Heq Hn.
  set (i := 15 - N.to_nat (n / 8)).
  assert (Hi : i < 16) by (unfold i; generalize (N.to_nat (n / 8)); lia).
  assert (Hbyte : byte_at x i = byte_at y i).
  { apply (f_equal (fun l => l !! i)) in Heq. unfold bytes_of_block in Heq.
    change (map ?f ?l) with (f <$> l) in Heq.
    rewrite !list_lookup_fmap, lookup_seq_lt in Heq by done.
    simpl in Heq. congruence. }
  unfold byte_at in Hbyte.
  assert (Hlt : forall v, (N.land v 255 < 256)%N).
  { intros v. change 255%N with (N.ones 8). rewrite N.land_ones.
    by apply N.mod_lt. }
  apply (f_equal N_of_ascii) in Hbyte.
  rewrite !N_ascii_embedding in Hbyte by apply Hlt.
  apply (f_equal (fun v => N.testbit v (n mod 8))) in Hbyte.
  rewrite !N.land_spec, !N.shiftr_spec' in Hbyte.
  assert (Hlow : N.testbit 255 (n mod 8) = true).
  { change 255%N with (N.ones 8). apply N.ones_spec_low.
    by apply N.mod_lt. }
  rewrite Hlow, !andb_true_r in Hbyte.
  assert (Hq : (n / 8 < 16)%N) by (apply N.Div0.div_lt_upper_bound; lia).
  replace (n mod 8 + 8 * N.of_nat (15 - i))%N with n in Hbyte; [done|].
  subst i. pose proof (N.div_mod n 8 ltac:(done)). lia.
Qed.

Lemma bytes_of_block_inj x y :
  (x < 2 ^ 128)%N -> (y < 2 ^ 128)%N ->
  bytes_of_block x = bytes_of_block y -> x = y.
Proof.
  intros Hx Hy Heq.
  rewrite <- (N.mod_small x (2 ^ 128)), <- (N.mod_small y (2 ^ 128)) by done.
  apply N.bits_inj. intros n.
  destruct (N.lt_ge_cases n 128) as [Hn|Hn].
  - rewrite !N.mod_pow2_bits_low by done. by apply bytes_of_block_bits.
  - by rewrite !N.mod_pow2_bits_high.
Qed.

Lemma map_ascii_of_N_inj s s' :
  length s = length s' -> Forall isByte s -> Forall isByte s' ->
  map ascii_of_N s = map ascii_of_N s' -> s = s'.
Proof.
  intros Hlen Hs. revert s' Hlen.
  induction Hs as [|x s Hx _ IH]; intros [|y s'] Hlen Hs'; try done.
  apply Forall_cons in Hs' as [Hy Hs']. simpl. intros [= Hxy Hrest].
  f_equal; [|apply IH; [by simplify_eq/=|done..]].
  by rewrite <- (N_ascii_embedding x), Hxy, N_ascii_embedding.
Qed.

Lemma map_N_of_ascii_inj (b b' : bytes) :
  map N_of_ascii b = map N_of_ascii b' -> b = b'.
Proof.
  revert b'. induction b as [|c b IH]; intros [|c' b']; try done.
  simpl. intros [= Hc Hb]. f_equal; [|by apply IH].
  by rewrite <- (ascii_N_embedding c), Hc, ascii_N_embedding.
Qed.

Lemma bytes_isByte (b : bytes) : Forall isByte (map N_of_ascii b).
Proof. apply Forall_fmap, Forall_true. intros c. apply N_ascii_bounded. Qed.

Lemma block_state x : isState (map N_of_ascii (bytes_of_block x)).
Proof. split; [done|apply bytes_isByte]. Qed.

(** The cipher is a permutation of the 128-bit blocks. *)
Lemma encryptBlock_inj key x y :
  4 <= length key -> (x < 2 ^ 128)%N -> (y < 2 ^ 128)%N ->
  aes.encryptBlock key x = aes.encryptBlock key y -> x = y.
Proof.
  intros Hkey Hx Hy. unfold aes.encryptBlock. intros Heq.
  assert (Hk : Forall isByte (map N_of_ascii key)) by apply bytes_isByte.
  assert (Hl : 4 <= length (map N_of_ascii key)) by by rewrite length_map.
  pose proof (Cipher_state _ _ Hk Hl (block_state x)) as [Hlx Hbx].
  pose proof (Cipher_state _ _ Hk Hl (block_state y)) as [Hly Hby].
  apply be_N_inj in Heq; [|rewrite !length_map; congruence].
  apply map_ascii_of_N_inj in Heq; [|congruence|done..].
  apply Cipher_inj in Heq; [|done|done|apply block_state..].
  by apply bytes_of_block_inj, map_N_of_ascii_inj.
Qed.

Lemma encryptBlock_bound key x :
  4 <= length key -> (aes.encryptBlock key x < 2 ^ 128)%N.
Proof.
  intros Hkey. unfold aes.encryptBlock.
  assert (Hk : Forall isByte (map N_of_ascii key)) by apply bytes_isByte.
  assert (Hl : 4 <= length (map N_of_ascii key)) by by rewrite length_map.
  pose proof (Cipher_state _ _ Hk Hl (block_state x)) as [Hlx _].
  match goal with |- (be_N ?l < _)%N => pose proof (be_N_bound l) as Hb end.
  rewrite length_map, Hlx in Hb. exact Hb.
Qed.

Lemma deriveCounter_bound nonce :
  length nonce = 12 -> (gcm.deriveCounter nonce < 2 ^ 128)%N.
Proof.
  intros Hn. unfold gcm.deriveCounter. pose proof (be_N_bound nonce) as Hb.
  rewrite Hn in Hb.
  change (256 ^ N.of_nat 12)%N with 79228162514264337593543950336%N in Hb.
  change (2 ^ 32)%N with 4294967296%N.
  change (2 ^ 128)%N with 340282366920938463463374607431768211456%N. lia.
Qed.

Lemma deriveCounter_inj nonce nonce' :
  length nonce = length nonce' ->
  gcm.deriveCounter nonce = gcm.deriveCounter nonce' -> nonce = nonce'.
Proof.
  intros Hlen. unfold gcm.deriveCounter. change (2 ^ 32)%N with 4294967296%N.
  intros Heq. apply be_N_inj; [done|lia].
Qed.

(** The tag determines the mask, and with it the nonce. *)
Lemma auth_mask_inj E ct data m m' :
  (m < 2 ^ 128)%N -> (m' < 2 ^ 128)%N ->
  gcm.auth E ct data m = gcm.auth E ct data m' -> m = m'.
Proof.
  intros Hm Hm'. unfold gcm.auth. cbv zeta. intros Heq.
  rewrite <- (N.mod_small m (2 ^ 128)), <- (N.mod_small m' (2 ^ 128)) by done.
  apply N.bits_inj. intros n.
  destruct (N.lt_ge_cases n 128) as [Hn|Hn].
  - rewrite !N.mod_pow2_bits_low by done.
    pose proof (bytes_of_block_bits _ _ n Heq Hn) as Hbit.
    rewrite !N.lxor_spec in Hbit. by apply xorb_move_l_r_1 in Hbit as ->;
      rewrite <- xorb_assoc, xorb_nilpotent, xorb_false_l.
  - by rewrite !N.mod_pow2_bits_high.
Qed.

(** ** Decrypt fails closed *)

Lemma Decrypt_Ok_inv envelope key plaintext :
  crypto.Decrypt envelope key = Ok plaintext ->
  crypto.Encrypt plaintext key (take crypto.NonceSize envelope)
  = (Ok envelope, []).
Proof.
  unfold crypto.Decrypt, crypto.Encrypt.
  destruct (aes.NewCipher key) as [block| |] eqn:Hblock; try discriminate.
  unfold crypto.NonceSize, gcm.gcmStandardNonceSize.
  destruct (Nat.ltb_spec (length envelope) 12) as [|Hlen]; [discriminate|].
  destruct (gcm.Open block [] (take 12 envelope) (drop 12 envelope) [])
    as [p| |] eqn:Hopen; try discriminate.
  intros [= ->]. apply Open_Ok_inv in Hopen as [Hn Hseal].
  unfold rand.ReadFull. rewrite Hn. simpl Nat.leb. cbv iota.
  rewrite take_ge, drop_ge by lia.
  revert Hseal. unfold gcm.Seal, gcm.gcmStandardNonceSize. rewrite Hn.
  simpl negb. cbv iota.
  destruct (gcm.maxPlaintext <? N.of_nat (length plaintext))%N;
    [discriminate|].
  intros [= Heq]. simpl in Heq. rewrite Heq. by rewrite take_drop.
Qed.

Lemma Decrypt_no_panic envelope key m :
  crypto.Decrypt envelope key <> Panic m.
Proof.
  unfold crypto.Decrypt, aes.NewCipher. case_bool_decide; [|discriminate].
  unfold crypto.NonceSize, gcm.gcmStandardNonceSize.
  destruct (Nat.ltb_spec (length envelope) 12) as [|Hlen]; [discriminate|].
  unfold gcm.Open, gcm.gcmStandardNonceSize.
  rewrite length_take, Nat.min_l by lia. simpl negb. cbv iota.
  repeat case_match; discriminate.
Qed.

Lemma Decrypt_short envelope key :
  length envelope < crypto.NonceSize + gcm.gcmTagSize ->
  is_Err (crypto.Decrypt envelope key) = true.
Proof.
  intros Hlen. unfold crypto.Decrypt, aes.NewCipher.
  case_bool_decide; [|done].
  unfold crypto.NonceSize, gcm.gcmStandardNonceSize, gcm.gcmTagSize in *.
  destruct (Nat.ltb_spec (length envelope) 12) as [|Hl]; [done|].
  unfold gcm.Open, gcm.gcmStandardNonceSize, gcm.gcmTagSize.
  rewrite length_take, Nat.min_l by lia. simpl negb. cbv iota.
  rewrite length_drop.
  destruct (Nat.ltb_spec (length envelope - 12) 16); [done|lia].
Qed.

Lemma Encrypt_Ok_inv content key rng e rest :
  crypto.Encrypt content key rng = (Ok e, rest) ->
  length (take 12 rng) = 12
  /\ e = envelope (aes.encryptBlock key) (take 12 rng) content.
Proof.
  unfold crypto.Encrypt.
  destruct (aes.NewCipher key) as [block| |] eqn:Hblock; try discriminate.
  apply NewCipher_Ok_inv in Hblock as ->.
  unfold rand.ReadFull, crypto.NonceSize, gcm.gcmStandardNonceSize.
  destruct (Nat.leb_spec 12 (length rng)); [|discriminate].
  assert (Hn : length (take 12 rng) = 12) by (rewrite length_take; lia).
  unfold gcm.Seal, gcm.gcmStandardNonceSize. rewrite Hn. simpl negb.
  cbv iota.
  destruct (gcm.maxPlaintext <? N.of_nat (length content))%N;
    [discriminate|].
  by intros [= <- _].
Qed.

Lemma envelope_length E nonce p :
  length (envelope E nonce p) = length nonce + (length p + 16).
Proof.
  unfold envelope. by rewrite !length_app, counterCrypt_length, auth_length.
Qed.

Lemma envelope_body E nonce p :
  take (length (envelope E nonce p) - 16) (envelope E nonce p)
  = nonce ++ gcm.counterCrypt E p (gcm.gcmInc32 (gcm.deriveCounter nonce)).
Proof.
  rewrite envelope_length. unfold envelope. rewrite !app_assoc.
  apply take_app_length'. rewrite length_app, counterCrypt_length. lia.
Qed.

(** An envelope is determined by its nonce and ciphertext. *)
Lemma envelope_body_inj E nonce1 nonce2 p1 p2 :
  length nonce1 = 12 -> length nonce2 = 12 ->
  take (length (envelope E nonce1 p1) - 16) (envelope E nonce1 p1)
  = take (length (envelope E nonce2 p2) - 16) (envelope E nonce2 p2) ->
  envelope E nonce1 p1 = envelope E nonce2 p2.
Proof.
  intros Hn1 Hn2. rewrite !envelope_body. intros Heq.
  apply app_inj_1 in Heq as [-> Hct]; [|congruence].
  apply (f_equal (fun c => gcm.counterCrypt E c
                             (gcm.gcmInc32 (gcm.deriveCounter nonce2))))
    in Hct.
  rewrite !counterCrypt_cancel in Hct. by subst.
Qed.

Lemma Encrypt_key_length content key rng e rest :
  crypto.Encrypt content key rng = (Ok e, rest) -> 4 <= length key.
Proof.
  unfold crypto.Encrypt, aes.NewCipher.
  case_bool_decide as Hk; [lia|discriminate].
Qed.

(** An envelope is determined by its ciphertext and tag: the tag fixes
    the mask, the mask the counter block, and that the nonce. *)
Lemma envelope_tail_inj key nonce nonce' p p' :
  4 <= length key -> length nonce = 12 -> length nonce' = 12 ->
  drop 12 (envelope (aes.encryptBlock key) nonce p)
  = drop 12 (envelope (aes.encryptBlock key) nonce' p') ->
  envelope (aes.encryptBlock key) nonce p
  = envelope (aes.encryptBlock key) nonce' p'.
Proof.
  intros Hk Hn Hn'. unfold envelope.
  rewrite !drop_app_length' by done. intros Heq.
  apply app_inj_2 in Heq as [Hct Htag]; [|by rewrite !auth_length].
  rewrite Hct in Htag.
  apply auth_mask_inj in Htag; [|by apply encryptBlock_bound..].
  apply encryptBlock_inj in Htag; [|done|by apply deriveCounter_bound..].
  apply deriveCounter_inj in Htag as ->; [|congruence].
  by rewrite Hct.
Qed.

(** Claim C3, as the code has it. [Decrypt] returns an error for every
    envelope shorter than a nonce, and for every envelope shorter than a
    nonce and a tag. It returns a plaintext only for the very envelope
    [Encrypt] makes of that plaintext under the same key and the nonce in
    front of the envelope. So, of a genuine envelope under the key, an
    envelope with the same nonce and ciphertext and another tag is
    refused, and an envelope with the same ciphertext and tag and
    another nonce is refused. [Decrypt] never panics: the outcome is the
    whole plaintext or an error. *)
Theorem Decrypt_fails_closed (envelope key : bytes) :
  (length envelope < crypto.NonceSize ->
   crypto.Decrypt envelope key = Err "ciphertext too short"
   \/ crypto.Decrypt envelope key
      = Err (wrap "failed to create cipher"
                  ("crypto/aes: invalid key size " +:+ pretty (length key))))
  /\ (length envelope < crypto.NonceSize + gcm.gcmTagSize ->
      is_Err (crypto.Decrypt envelope key) = true)
  /\ (forall plaintext,
         crypto.Decrypt envelope key = Ok plaintext ->
         crypto.Encrypt plaintext key (take crypto.NonceSize envelope)
         = (Ok envelope, []))
  /\ (forall genuine rng rest content,
         crypto.Encrypt content key rng = (Ok genuine, rest) ->
         length envelope = length genuine ->
         take (length genuine - gcm.gcmTagSize) envelope
         = take (length genuine - gcm.gcmTagSize) genuine ->
         envelope <> genuine ->
         is_Err (crypto.Decrypt envelope key) = true)
  /\ (forall genuine rng rest content,
         crypto.Encrypt content key rng = (Ok genuine, rest) ->
         drop crypto.NonceSize envelope = drop crypto.NonceSize genuine ->
         envelope <> genuine ->
         is_Err (crypto.Decrypt envelope key) = true)
  /\ (forall m, crypto.Decrypt envelope key <> Panic m).
Proof.
  split_and!.
  - intros Hlen. unfold crypto.Decrypt, aes.NewCipher.
    case_bool_decide; [left|by right].
    by destruct (Nat.ltb_spec (length envelope) crypto.NonceSize); [|lia].
  - apply Decrypt_short.
  - apply Decrypt_Ok_inv.
  - intros genuine rng rest content Hgen Hlen Htake Hne.
    destruct (crypto.Decrypt envelope key) as [p|e|m] eqn:Hdec; [|done|].
    2:{ by apply Decrypt_no_panic in Hdec. }
    exfalso. apply Hne.
    apply Decrypt_Ok_inv, Encrypt_Ok_inv in Hdec as [Hn1 He].
    apply Encrypt_Ok_inv in Hgen as [Hn2 Hg].
    rewrite He, Hg. apply envelope_body_inj; [done..|].
    rewrite <- He, <- Hg. unfold gcm.gcmTagSize in Htake. by rewrite Hlen.
  - intros genuine rng rest content Hgen Hdrop Hne.
    destruct (crypto.Decrypt envelope key) as [p|e|m] eqn:Hdec; [|done|].
    2:{ by apply Decrypt_no_panic in Hdec. }
    exfalso. apply Hne.
    pose proof (Encrypt_key_length _ _ _ _ _ Hgen) as Hk.
    apply Decrypt_Ok_inv, Encrypt_Ok_inv in Hdec as [Hn1 He].
    apply Encrypt_Ok_inv in Hgen as [Hn2 Hg].
    rewrite He, Hg. apply envelope_tail_inj; [done..|].
    by rewrite <- He, <- Hg.
  - apply Decrypt_no_panic.
Qed.

Lemma Decrypt_fails_closed_witness :
  is_Err (crypto.Decrypt (hex.lit "00112233445566778899aabbccddeeff") key1)
  = true
  /\ is_Err (crypto.Decrypt envelope1' key1) = true
  /\ is_Err (crypto.Decrypt envelope1n key1) = true
  /\ crypto.Encrypt content1 key1 (take crypto.NonceSize envelope1)
     = (Ok envelope1, []).
Proof.
  destruct (Decrypt_fails_closed
              (hex.lit "00112233445566778899aabbccddeeff") key1)
    as (_ & Hshort & _).
  destruct (Decrypt_fails_closed envelope1' key1) as (_ & _ & _ & Htag & _).
  destruct (Decrypt_fails_closed envelope1n key1)
    as (_ & _ & _ & _ & Hnonce & _).
  destruct (Decrypt_fails_closed envelope1 key1) as (_ & _ & Hgenuine & _).
  split_and!.
  - apply Hshort. vm_compute. lia.
  - apply (Htag envelope1 nonce1 [] content1);
      [by vm_compute | reflexivity | by vm_compute | by vm_compute].
  - apply (Hnonce envelope1 nonce1 [] content1);
      [by vm_compute | by vm_compute | by vm_compute].
  - apply Hgenuine. by vm_compute.
Defined.

(** Claim C3 as the specification states it fails, for the key and for
    the ciphertext. The envelope [Encrypt] makes of [content1] under
    [key1] decrypts under the different key [key2] as well, to another
    plaintext. And the envelope [Encrypt] makes of [content2] under
    [key1] still decrypts under [key1], to another plaintext, after
    seventeen bytes of its ciphertext are changed, its nonce and its tag
    being as they were. *)
Lemma Decrypt_accepts_forgeries :
  (crypto.Encrypt content1 key1 nonce1 = (Ok envelope1, [])
   /\ key2 <> key1
   /\ crypto.Decrypt envelope1 key2
      = Ok (hex.lit "b0940810558299d5cdf1dfd01ebd66df"))
  /\ (crypto.Encrypt content2 key1 nonce1 = (Ok envelope2, [])
      /\ envelope2' <> envelope2
      /\ length envelope2' = length envelope2
      /\ take crypto.NonceSize envelope2' = take crypto.NonceSize envelope2
      /\ drop (length envelope2 - gcm.gcmTagSize) envelope2'
         = drop (length envelope2 - gcm.gcmTagSize) envelope2
      /\ crypto.Decrypt envelope2' key1
         = Ok (bytes_of_string "API_KEY=alpha-00"
               ++ hex.lit "9d0175b6856071df8d28ce87c7f71095")).
Proof. split_and!; by vm_compute. Qed.

(** ** The pipeline around encryption *)

(** Claim C4. With encryption enabled and a key configured, when
    [Decrypt] fails on the downloaded bytes [processData] returns these
    bytes unchanged and no error. *)
Theorem processData_falls_back (data : bytes) (cfg : config.Config)
    (key : bytes) (e : string) :
  config.Enabled (config.Encryption cfg) = true ->
  config.Key (config.Encryption cfg) <> "" ->
  crypto.DecodeKeyFromString (config.Key (config.Encryption cfg)) = Ok key ->
  crypto.Decrypt data key = Err e ->
  cli.processData data cfg = Ok data.
Proof.
  intros Hen Hkey Hdec Herr. unfold cli.processData.
  rewrite Hen, Hdec, Herr. simpl.
  by destruct (String.eqb_spec (config.Key (config.Encryption cfg)) "").
Qed.

Lemma processData_falls_back_witness :
  cli.processData (bytes_of_string "API_KEY=secret-value-0123456789")
                  (cfgOf true hexKey1 [".env"])
  = Ok (bytes_of_string "API_KEY=secret-value-0123456789").
Proof.
  apply (processData_falls_back _ (cfgOf true hexKey1 [".env"]) key1
           "failed to decrypt: cipher: message authentication failed").
  - reflexivity.
  - discriminate.
  - vm_compute. reflexivity.
  - vm_compute. reflexivity.
Defined.

Section PushFacts.
Context `{tar.Container} {S : Type} `{storage.Storage S}.

(** Claim C10. With encryption enabled and an empty key, [prepareData]
    fails, so that a push ends without success and leaves the object
    store as it was (with the error of [prepareData] when the steps
    before it succeed), while [processData] returns the downloaded
    bytes unchanged and no error. *)
Theorem missing_key_asymmetry (cfg : config.Config) (tagFlag : string)
    (git : cli.Git) (fs : os.FS) (rng : bytes) (newErr : option string)
    (store : S) (data : bytes) :
  config.Enabled (config.Encryption cfg) = true ->
  config.Key (config.Encryption cfg) = "" ->
  cli.prepareData data cfg rng
  = (Err "encryption is enabled but no key is configured", rng)
  /\ is_Ok (cli.runPush cfg tagFlag git fs rng newErr store).1 = false
  /\ (cli.runPush cfg tagFlag git fs rng newErr store).2 = store
  /\ (config.Validate cfg = None -> tagFlag <> "" ->
      cli.loadEnvFiles cfg fs = Ok data ->
      cli.runPush cfg tagFlag git fs rng newErr store
      = (Err "encryption is enabled but no key is configured", store))
  /\ cli.processData data cfg = Ok data.
Proof.
  intros Hen Hkey.
  assert (Hprep : forall d, cli.prepareData d cfg rng
            = (Err "encryption is enabled but no key is configured", rng)).
  { intros d. unfold cli.prepareData. by rewrite Hen, Hkey. }
  split_and!.
  - apply Hprep.
  - unfold cli.runPush. destruct (config.Validate cfg); [done|].
    repeat (case_match; try done); simplify_eq;
      rewrite Hprep in *; simplify_eq.
  - unfold cli.runPush. destruct (config.Validate cfg); [done|].
    repeat (case_match; try done); simplify_eq;
      rewrite Hprep in *; simplify_eq.
  - intros Hval Htag Hload. unfold cli.runPush. rewrite Hval, Hload, Hprep.
    by destruct (String.eqb_spec tagFlag "").
  - unfold cli.processData. rewrite Hen, Hkey. done.
Qed.
End PushFacts.

Lemma missing_key_asymmetry_witness :
  cli.prepareData (bytes_of_string "A=1") (cfgOf true "" [".env"]) []
  = (Err "encryption is enabled but no key is configured", [])
  /\ is_Ok (cli.runPush (cfgOf true "" [".env"]) "v1" git0 fs0 [] None
                        storage.NewMockStorage).1 = false
  /\ (cli.runPush (cfgOf true "" [".env"]) "v1" git0 fs0 [] None
                  storage.NewMockStorage).2 = storage.NewMockStorage
  /\ (config.Validate (cfgOf true "" [".env"]) = None -> "v1" <> "" ->
      cli.loadEnvFiles (cfgOf true "" [".env"]) fs0
      = Ok (bytes_of_string "A=1") ->
      cli.runPush (cfgOf true "" [".env"]) "v1" git0 fs0 [] None
                  storage.NewMockStorage
      = (Err "encryption is enabled but no key is configured",
         storage.NewMockStorage))
  /\ cli.processData (bytes_of_string "A=1") (cfgOf true "" [".env"])
     = Ok (bytes_of_string "A=1").
Proof.
  apply (missing_key_asymmetry (cfgOf true "" [".env"]) "v1" git0 fs0 [] None
           storage.NewMockStorage (bytes_of_string "A=1"));
    reflexivity.
Defined.

(** A push with a key, for comparison: the blob reaches the store. *)
Example runPush_uploads :
  (cli.runPush (cfgOf false "" [".env"]) "v1" git0 fs0 [] None
               storage.NewMockStorage)
  = (Ok (), {| storage.data := {[ "v1.env" := bytes_of_string "A=1" ]};
               storage.Error := None |}).
Proof. vm_compute. reflexivity. Qed.

(** ** The archive round trip *)

Lemma number_digits p : numbered.number (numbered.digits p) = Some p.
Proof. induction p as [p IH|p IH|]; simpl; by rewrite ?IH. Qed.

#[global] Instance numbered_laws : @tar.ContainerLaws numbered.container.
Proof.
  split; [done|]. intros rs _. simpl.
  by rewrite number_digits; simpl; rewrite decode_encode.
Qed.


Lemma readable_inv fs file :
  is_Ok (os.ReadFile fs file) = true ->
  exists f, os.lookupPath fs file = Ok f
            /\ os.hasNUL file = false
            /\ os.ReadFile fs file = Ok (os.contents f)
            /\ os.Stat fs file = Ok (os.FileMode (os.perm f)).
Proof.
  unfold os.ReadFile, os.Stat, os.lookupPath.
  destruct (os.hasNUL file); [discriminate|].
  destruct (fs !! file) as [f|]; [|by destruct (os.notDir fs file)]. simpl.
  destruct (os.readable f); [|discriminate]. eauto.
Qed.

Lemma FileMode_range n : (0 <= Z.of_N (os.FileMode n) < 2 ^ 32)%Z.
Proof.
  unfold os.FileMode.
  pose proof (N.mod_upper_bound n (2 ^ 32) ltac:(done)) as Hlt.
  change (2 ^ 32)%N with 4294967296%N in *.
  change (2 ^ 32)%Z with 4294967296%Z.
  revert Hlt. generalize (n `mod` 4294967296)%N. lia.
Qed.

Lemma recordOf_wf fs file :
  is_Ok (os.ReadFile fs file) = true -> tar.wf (recordOf fs file).
Proof.
  intros (f & _ & Hnul & Hread & Hstat)%readable_inv.
  unfold recordOf. rewrite Hread, Hstat. unfold tar.wf. simpl.
  split_and!; [done|apply FileMode_range..|done].
Qed.

Lemma entryOf_recordOf fs file :
  is_Ok (os.ReadFile fs file) = true ->
  stored fs file (entryOf (recordOf fs file)).
Proof.
  intros (f & _ & _ & Hread & Hstat)%readable_inv.
  unfold recordOf. rewrite Hread, Hstat. unfold stored, entryOf. simpl.
  split_and!; [done..|]. do 2 f_equal.
  pose proof (FileMode_range (os.perm f)).
  rewrite Z.mod_small, N2Z.id by done.
  unfold os.FileMode. by rewrite N.Div0.mod_mod.
Qed.

Lemma Flush_complete tw :
  complete tw ->
  tar.Flush tw = Ok {| tar.written := records tw; tar.current := None |}.
Proof.
  unfold complete, tar.Flush, records. destruct tw as [w [[h d]|]]; simpl.
  - intros ->. rewrite Z.ltb_irrefl. done.
  - by rewrite app_nil_r.
Qed.

(** The loop of [Create] appends one complete record per readable file. *)
Lemma writeFiles_records `{tar.Container} fs files tw :
  complete tw ->
  Forall (fun file => is_Ok (os.ReadFile fs file) = true) files ->
  exists tw', archive.writeFiles fs files tw = Ok tw'
              /\ complete tw'
              /\ records tw' = records tw ++ map (recordOf fs) files.
Proof.
  intros Hc Hall. revert tw Hc.
  induction Hall as [|file files Hfile _ IH]; intros tw Hc.
  - exists tw. simpl. by rewrite app_nil_r.
  - pose proof Hfile as (f & _ & Hnul & Hread & Hstat)%readable_inv.
    cbn [archive.writeFiles]. rewrite Hread, Hstat. simpl.
    unfold tar.WriteHeader. rewrite Flush_complete by done. simpl.
    rewrite Hnul.
    destruct (Z.ltb_spec (Z.of_nat (length (os.contents f))) 0); [lia|].
    simpl. unfold tar.Write. simpl.
    rewrite Z.ltb_irrefl. simpl.
    edestruct IH as (tw' & -> & Hc' & Hrec);
      [|exists tw'; split_and!; try done].
    + done.
    + rewrite Hrec. unfold records at 1. simpl.
      unfold recordOf. rewrite Hread, Hstat. by rewrite <- app_assoc.
Qed.

(** The loop of [Extract] turns every well-formed record into its entry. *)
Lemma readEntries_entries rs entries :
  Forall tar.wf rs ->
  archive.readEntries rs entries = Ok (entries ++ map entryOf rs).
Proof.
  intros Hall. revert entries.
  induction Hall as [|[h d] rs (Hsize & _ & _) _ IH]; intros entries.
  - simpl. by rewrite app_nil_r.
  - cbn [archive.readEntries]. simpl in Hsize.
    unfold tar.ReadFull. rewrite Hsize.
    destruct (Z.ltb_spec (Z.of_nat (length d)) 0); [lia|].
    rewrite Nat2Z.id. simpl.
    rewrite Nat.ltb_irrefl. simpl. rewrite firstn_all.
    rewrite IH. by rewrite <- app_assoc.
Qed.

Section ArchiveFacts.
Context `{tar.ContainerLaws}.

(** Claim C2. For every sequence of readable paths, [Create] returns a
    blob and [Extract] of it returns one entry per path, in the order
    given, each with the path as written, the content read and the
    mode reported for it; paths that occur twice give two entries. The
    container format is any that keeps the laws of [ContainerLaws]. *)
Theorem Extract_Create (fs : os.FS) (files : list string) :
  Forall (fun file => is_Ok (os.ReadFile fs file) = true) files ->
  exists blob entries,
    archive.Create fs files = Ok blob
    /\ archive.Extract blob = Ok entries
    /\ Forall2 (stored fs) files entries.
Proof.
  intros Hall.
  destruct (writeFiles_records fs files tar.NewWriter I Hall)
    as (tw & Hw & Hc & Hrec).
  assert (Hwf : Forall tar.wf (map (recordOf fs) files)).
  { apply Forall_fmap. eapply Forall_impl; [done|]. apply recordOf_wf. }
  exists (tar.gzip (tar.serialize (map (recordOf fs) files))),
         (map entryOf (map (recordOf fs) files)).
  split_and!.
  - unfold archive.Create. rewrite Hw. simpl.
    unfold tar.Close. rewrite Flush_complete by done. simpl.
    by rewrite Hrec.
  - unfold archive.Extract. rewrite tar.gunzip_gzip. simpl.
    rewrite tar.parse_serialize by done. simpl.
    by rewrite readEntries_entries.
  - rewrite <- list_fmap_compose. apply Forall2_fmap_r, Forall_Forall2_diag.
    eapply Forall_impl; [done|]. apply entryOf_recordOf.
Qed.
End ArchiveFacts.

Lemma Extract_Create_witness :
  exists blob entries,
    archive.Create fs0 [".env"; "b.json"] = Ok blob
    /\ archive.Extract blob = Ok entries
    /\ Forall2 (stored fs0) [".env"; "b.json"] entries.
Proof.
  apply (Extract_Create (H0 := numbered_laws) fs0 [".env"; "b.json"]).
  repeat constructor.
Defined.

(** ** The differ *)

Lemma list_to_map_perm (l : list (string * string))
    (m : gmap string string) :
  l ≡ₚ map_to_list m ->
  NoDup l.*1 /\ (list_to_map l : gmap string string) = m.
Proof.
  intros Hl. split.
  - rewrite Hl. apply NoDup_fst_map_to_list.
  - rewrite <- (list_to_map_to_list m). apply list_to_map_proper; [|done].
    rewrite Hl. apply NoDup_fst_map_to_list.
Qed.

(** The first loop, from any state [(added, changed)]: a key of the
    enumeration ends up in at most one of the two maps. *)
Lemma diff_first_loop (oldMap : gmap string string) l
    (added changed : gmap string string) key :
  NoDup l.*1 ->
  (foldl (cli.findAddedChanged oldMap) (added, changed) l).1 !! key
  = match (list_to_map l : gmap string string) !! key, oldMap !! key with
    | Some n, None => Some n
    | _, _ => added !! key
    end
  /\ (foldl (cli.findAddedChanged oldMap) (added, changed) l).2 !! key
     = match (list_to_map l : gmap string string) !! key, oldMap !! key with
       | Some n, Some o =>
           if decide (o = n) then changed !! key
           else Some (o +:+ " -> " +:+ n)
       | _, _ => changed !! key
       end.
Proof.
  intros Hnd. revert added changed.
  induction l as [|[k v] l IH]; intros added changed.
  - simpl. rewrite lookup_empty. by destruct (oldMap !! key).
  - apply NoDup_cons in Hnd as [Hk Hnd]. specialize (IH Hnd).
    cbn [foldl list_to_map foldr]. simpl uncurry.
    assert (Hnone : (list_to_map l : gmap string string) !! k = None).
    { by apply not_elem_of_list_to_map_1. }
    unfold cli.findAddedChanged at 2 4.
    destruct (decide (k = key)) as [->|Hne].
    + rewrite lookup_insert_eq.
      destruct (oldMap !! key) as [o|] eqn:Hold.
      * destruct (String.eqb_spec o v) as [->|Hov]; simpl negb; cbv iota.
        -- destruct (IH added changed) as [-> ->].
           rewrite Hnone, ?Hold. by rewrite decide_True.
        -- destruct (IH added (<[key := o +:+ " -> " +:+ v]> changed))
             as [-> ->].
           rewrite Hnone, ?Hold, lookup_insert_eq. by rewrite decide_False.
      * destruct (IH (<[key := v]> added) changed) as [-> ->].
        rewrite Hnone, ?Hold. by rewrite lookup_insert_eq.
    + rewrite lookup_insert_ne by done.
      destruct (oldMap !! k) as [o|].
      * destruct (negb (String.eqb o v)).
        -- destruct (IH added (<[k := o +:+ " -> " +:+ v]> changed))
             as [-> ->].
           by rewrite lookup_insert_ne.
        -- by destruct (IH added changed) as [-> ->].
      * destruct (IH (<[k := v]> added) changed) as [-> ->].
        by rewrite lookup_insert_ne.
Qed.

Lemma diff_second_loop (newMap : gmap string string) l
    (removed : gmap string string) key :
  NoDup l.*1 ->
  foldl (cli.findRemoved newMap) removed l !! key
  = match (list_to_map l : gmap string string) !! key, newMap !! key with
    | Some o, None => Some o
    | _, _ => removed !! key
    end.
Proof.
  intros Hnd. revert removed.
  induction l as [|[k v] l IH]; intros removed.
  - simpl. by rewrite lookup_empty.
  - apply NoDup_cons in Hnd as [Hk Hnd]. specialize (IH Hnd).
    cbn [foldl list_to_map foldr]. simpl uncurry. rewrite IH.
    assert (Hnone : (list_to_map l : gmap string string) !! k = None).
    { by apply not_elem_of_list_to_map_1. }
    unfold cli.findRemoved.
    destruct (decide (k = key)) as [->|Hne].
    + rewrite lookup_insert_eq, Hnone.
      destruct (newMap !! key); [done|]. by rewrite lookup_insert_eq.
    + rewrite lookup_insert_ne by done.
      destruct (newMap !! k); [done|]. by rewrite lookup_insert_ne.
Qed.

(** Claim C6. Whatever the order in which the two maps are ranged over,
    a key only in [newMap] is in [added] with its new value, a key only
    in [oldMap] is in [removed] with its old value, a key in both with
    different values is in [changed] with ["old -> new"], and a key in
    both with equal values, like a key in neither, is in none of the
    three. *)
Theorem diffEnvMaps_classifies (oldMap newMap : gmap string string)
    (newOrder oldOrder : list (string * string))
    (added removed changed : gmap string string) (key : string) :
  newOrder ≡ₚ map_to_list newMap ->
  oldOrder ≡ₚ map_to_list oldMap ->
  cli.diffEnvMapsIn newOrder oldOrder oldMap newMap
  = (added, removed, changed) ->
  (added !! key, removed !! key, changed !! key)
  = match oldMap !! key, newMap !! key with
    | None, Some n => (Some n, None, None)
    | Some o, None => (None, Some o, None)
    | Some o, Some n =>
        if decide (o = n) then (None, None, None)
        else (None, None, Some (o +:+ " -> " +:+ n))
    | None, None => (None, None, None)
    end.
Proof.
  intros [Hnd1 Hm1]%list_to_map_perm [Hnd2 Hm2]%list_to_map_perm.
  unfold cli.diffEnvMapsIn.
  pose proof (diff_first_loop oldMap newOrder ∅ ∅ key Hnd1) as Hfirst.
  pose proof (diff_second_loop newMap oldOrder ∅ key Hnd2) as Hsecond.
  destruct (foldl _ (∅, ∅) newOrder) as [a c].
  intros [= <- <- <-]. simpl in Hfirst. destruct Hfirst as [-> ->].
  rewrite Hsecond.
  rewrite Hm1, Hm2, !lookup_empty.
  destruct (oldMap !! key) as [o|], (newMap !! key) as [n|]; try done.
  by case_decide.
Qed.

Example diffEnvMaps_example :
  cli.diffEnvMaps oldEnv newEnv = ({[ "C" := "3" ]}, {[ "A" := "1" ]}, ∅).
Proof. vm_compute. reflexivity. Qed.

Lemma diffEnvMaps_classifies_witness :
  (Some "3", None, None)
  = (({[ "C" := "3" ]} : gmap string string) !! "C",
     ({[ "A" := "1" ]} : gmap string string) !! "C",
     (∅ : gmap string string) !! "C").
Proof.
  symmetry.
  apply (diffEnvMaps_classifies oldEnv newEnv (map_to_list newEnv)
           (map_to_list oldEnv) _ _ _ "C"); [reflexivity..|].
  vm_compute. reflexivity.
Defined.

(** ** Trimming and cutting *)

Lemma cutPrefix_Some p s r : strings.cutPrefix p s = Some r <-> s = p ++ r.
Proof.
  revert s. induction p as [|a p IH]; intros s; simpl.
  - split; congruence.
  - destruct s as [|b s]; [split; discriminate|].
    destruct (Ascii.eqb_spec a b) as [->|Hab].
    + rewrite IH. split; [by intros ->|by intros [= ->]].
    + split; [discriminate|]. intros [= -> _]. done.
Qed.

Lemma cutPrefix_None p s :
  strings.cutPrefix p s = None <-> ~ p `prefix_of` s.
Proof.
  destruct (strings.cutPrefix p s) as [r|] eqn:Hc.
  - apply cutPrefix_Some in Hc as ->. split; [discriminate|].
    intros []. by exists r.
  - split; [|done]. intros _ [r ->].
    by rewrite (proj2 (cutPrefix_Some p (p ++ r) r)) in Hc.
Qed.

Section Trim.
Variable ps : list bytes.
Hypothesis ps_nonempty : Forall (fun p => p <> []) ps.
Hypothesis ps_prefix_free :
  Forall (fun p => Forall (fun q => p `prefix_of` q -> p = q) ps) ps.

Lemma run_app a b : run ps a -> run ps b -> run ps (a ++ b).
Proof.
  induction 1 as [|p r Hp _ IH]; intros Hb; [done|].
  rewrite <- app_assoc. by constructor; [|apply IH].
Qed.

Lemma run_one p : p ∈ ps -> run ps p.
Proof. intros Hp. rewrite <- (app_nil_r p). by repeat constructor. Qed.

Lemma cutAny_Some qs s r :
  strings.cutAny qs s = Some r -> exists p, p ∈ qs /\ s = p ++ r.
Proof.
  induction qs as [|q qs IH]; simpl; [discriminate|].
  destruct (strings.cutPrefix q s) as [r'|] eqn:Hq.
  - intros [= ->]. apply cutPrefix_Some in Hq. exists q.
    split; [by left|done].
  - intros (p & Hp & ->)%IH. exists p. split; [by right|done].
Qed.

Lemma cutAny_None qs s :
  strings.cutAny qs s = None <-> Forall (fun p => ~ p `prefix_of` s) qs.
Proof.
  induction qs as [|q qs IH]; simpl; [by split; [constructor|]|].
  destruct (strings.cutPrefix q s) as [r'|] eqn:Hq.
  - split; [discriminate|]. intros [Hn _]%Forall_cons.
    apply cutPrefix_Some in Hq as ->. destruct Hn. by exists r'.
  - rewrite IH, Forall_cons. apply cutPrefix_None in Hq. tauto.
Qed.

Lemma cutAny_nil : strings.cutAny ps [] = None.
Proof.
  apply cutAny_None. eapply Forall_impl; [apply ps_nonempty|].
  intros p Hp [r Hr]. by destruct p.
Qed.

(** The characters are prefix-free, so a string starting with one of
    them starts with no other. *)
Lemma cutAny_char p r : p ∈ ps -> strings.cutAny ps (p ++ r) = Some r.
Proof.
  intros Hp.
  destruct (strings.cutAny ps (p ++ r)) as [r'|] eqn:Hc.
  - apply cutAny_Some in Hc as (q & Hq & Heq).
    assert (Hpq : p = q).
    { rewrite Forall_forall in ps_prefix_free.
      destruct (prefix_weak_total p q (p ++ r)) as [Hpre|Hpre].
      - by exists r.
      - exists r'. done.
      - pose proof (ps_prefix_free p Hp) as Hfree.
        rewrite Forall_forall in Hfree. by apply Hfree.
      - pose proof (ps_prefix_free q Hq) as Hfree.
        rewrite Forall_forall in Hfree. symmetry. by apply Hfree. }
    subst q. by apply app_inv_head in Heq as ->.
  - rewrite cutAny_None, Forall_forall in Hc.
    destruct (Hc p Hp). by exists r.
Qed.

Lemma char_length p : p ∈ ps -> 0 < length p.
Proof.
  intros Hp. rewrite Forall_forall in ps_nonempty.
  specialize (ps_nonempty p Hp). destruct p; [done|simpl; lia].
Qed.

(** The loop removes a run and stops where no character starts. *)
Lemma trimLoop_split fuel s :
  length s <= fuel ->
  exists L, run ps L /\ s = L ++ strings.trimLoop fuel ps s
            /\ strings.cutAny ps (strings.trimLoop fuel ps s) = None.
Proof.
  revert s. induction fuel as [|fuel IH]; intros s Hlen.
  - destruct s; [|simpl in Hlen; lia]. exists []. simpl.
    split_and!; [constructor|done|apply cutAny_nil].
  - simpl. destruct (strings.cutAny ps s) as [r|] eqn:Hc.
    + apply cutAny_Some in Hc as (p & Hp & ->).
      pose proof (char_length p Hp). rewrite length_app in Hlen.
      destruct (IH r ltac:(lia)) as (L & HL & Hr & Hstop).
      exists (p ++ L). split_and!; [by constructor| |done].
      rewrite <- app_assoc. by rewrite <- Hr.
    + exists []. by split_and!; [constructor|done|done].
Qed.

(** It removes the whole run in front of such a place. *)
Lemma trimLoop_run fuel L w :
  length L <= fuel -> run ps L -> strings.cutAny ps w = None ->
  strings.trimLoop fuel ps (L ++ w) = w.
Proof.
  intros Hlen HL Hw. revert fuel Hlen.
  induction HL as [|p r Hp _ IH]; intros fuel Hlen.
  - simpl. destruct fuel; [done|]. simpl. by rewrite Hw.
  - pose proof (char_length p Hp). rewrite length_app in Hlen.
    destruct fuel as [|fuel]; [lia|]. simpl.
    rewrite <- app_assoc, cutAny_char by done. apply IH. lia.
Qed.

Lemma run_no_byte c L :
  Forall (fun p => c ∉ p) ps -> run ps L -> c ∉ L.
Proof.
  intros Hc. induction 1 as [|p r Hp _ IH]; [by apply not_elem_of_nil|].
  rewrite Forall_forall in Hc. rewrite elem_of_app.
  intros [?|?]; [by apply (Hc p Hp)|done].
Qed.
End Trim.

(** *** The white space of [TrimSpace] *)

Lemma spaces_nonempty : Forall (fun p : bytes => p <> []) strings.spaces.
Proof. by apply (bool_decide_unpack _); vm_compute. Qed.

Lemma spaces_prefix_free :
  Forall (fun p : bytes =>
            Forall (fun q => p `prefix_of` q -> p = q) strings.spaces)
         strings.spaces.
Proof. by apply (bool_decide_unpack _); vm_compute. Qed.

Lemma rspaces_nonempty : Forall (fun p : bytes => p <> []) rspaces.
Proof. by apply (bool_decide_unpack _); vm_compute. Qed.

Lemma rspaces_prefix_free :
  Forall (fun p : bytes => Forall (fun q => p `prefix_of` q -> p = q) rspaces)
         rspaces.
Proof. by apply (bool_decide_unpack _); vm_compute. Qed.

Lemma spaces_no_equals :
  Forall (fun p : bytes => "="%char ∉ p) strings.spaces.
Proof. by apply (bool_decide_unpack _); vm_compute. Qed.

(** No white-space character continues with a byte that starts one. *)
Lemma spaces_tails :
  Forall (fun p : bytes =>
            Forall (fun c => Forall (fun q => head q <> Some c) strings.spaces)
                   (tail p))
         strings.spaces.
Proof. by apply (bool_decide_unpack _); vm_compute. Qed.

Lemma run_reverse ps s : run ps s -> run (map reverse ps) (reverse s).
Proof.
  induction 1 as [|p r Hp _ IH]; [constructor|].
  rewrite reverse_app. apply run_app; [done|].
  apply run_one. by apply list_elem_of_fmap_2.
Qed.

Lemma run_unreverse ps s : run (map reverse ps) (reverse s) -> run ps s.
Proof.
  intros Hr%run_reverse. rewrite reverse_involutive in Hr.
  rewrite <- list_fmap_compose in Hr.
  assert (Hid : reverse ∘ reverse <$> ps = ps).
  { clear Hr. induction ps as [|p ps' IH]; [done|]. rewrite fmap_cons, IH.
    simpl. by rewrite reverse_involutive. }
  by rewrite Hid in Hr.
Qed.

Lemma trimLeft_split s :
  exists L, run strings.spaces L /\ s = L ++ strings.trimLeft s
            /\ strings.cutAny strings.spaces (strings.trimLeft s) = None.
Proof. apply trimLoop_split; [apply spaces_nonempty|done]. Qed.

Lemma trimLeft_run L w :
  run strings.spaces L -> strings.cutAny strings.spaces w = None ->
  strings.trimLeft (L ++ w) = w.
Proof.
  intros HL Hw. apply trimLoop_run;
    [apply spaces_nonempty|apply spaces_prefix_free| |done..].
  rewrite length_app. lia.
Qed.

Lemma trimRight_split s :
  exists R, run strings.spaces R /\ s = strings.trimRight s ++ R
            /\ strings.cutAny rspaces (reverse (strings.trimRight s)) = None.
Proof.
  unfold strings.trimRight.
  destruct (trimLoop_split rspaces rspaces_nonempty (length s) (reverse s))
    as (L & HL & Hs & Hstop); [by rewrite length_reverse|].
  exists (reverse L). split_and!.
  - apply run_unreverse. by rewrite reverse_involutive.
  - rewrite <- reverse_app, <- Hs. by rewrite reverse_involutive.
  - by rewrite reverse_involutive.
Qed.

Lemma trimRight_run w R :
  run strings.spaces R -> strings.cutAny rspaces (reverse w) = None ->
  strings.trimRight (w ++ R) = w.
Proof.
  intros HR Hw. unfold strings.trimRight. rewrite reverse_app.
  rewrite trimLoop_run;
    [apply reverse_involutive|apply rspaces_nonempty
    |apply rspaces_prefix_free| |by apply run_reverse|done].
  rewrite length_reverse, length_app. lia.
Qed.

Lemma TrimSpace_bytes (b : bytes) :
  strings.TrimSpace (string_of_bytes b) = string_of_bytes (trim b).
Proof.
  unfold strings.TrimSpace, bytes_of_string, string_of_bytes.
  by rewrite list_ascii_of_string_of_list_ascii.
Qed.

(** White space in front of a string does not change what is left. *)
Lemma trim_run_l L w : run strings.spaces L -> trim (L ++ w) = trim w.
Proof.
  intros HL. unfold trim. f_equal.
  destruct (trimLeft_split w) as (L' & HL' & Hw & Hstop).
  rewrite Hw at 1. rewrite app_assoc.
  rewrite trimLeft_run; [done|by apply run_app|done].
Qed.

(** Where no white space starts, none starts when a run is appended. *)
Lemma cutAny_app_run w R :
  w <> [] -> strings.cutAny strings.spaces w = None ->
  run strings.spaces R ->
  strings.cutAny strings.spaces (w ++ R) = None.
Proof.
  intros Hne Hw HR. apply cutAny_None. apply cutAny_None in Hw.
  rewrite Forall_forall in Hw |- *. intros p Hp Hpre.
  destruct (prefix_weak_total p w (w ++ R)) as [Hpw|[b Hb]];
    [done|by exists R|by apply (Hw p Hp)|].
  subst p. apply prefix_app_inv in Hpre.
  destruct b as [|c b].
  { rewrite app_nil_r in Hp. apply (Hw w Hp). done. }
  (* [c] continues a character and starts one *)
  destruct HR as [|q r Hq _]; [by destruct Hpre as [? ?]|].
  pose proof spaces_nonempty as Hnonempty.
  rewrite Forall_forall in Hnonempty. specialize (Hnonempty q Hq).
  destruct q as [|c' q]; [done|].
  assert (c' = c) as ->.
  { destruct Hpre as [k Hk]. by injection Hk. }
  pose proof spaces_tails as Htails. rewrite Forall_forall in Htails.
  specialize (Htails _ Hp). rewrite Forall_forall in Htails.
  destruct w as [|a w]; [done|]. simpl in Htails.
  specialize (Htails c ltac:(apply elem_of_app; right; by left)).
  rewrite Forall_forall in Htails. by apply (Htails _ Hq).
Qed.

(** White space behind a string does not change what is left either. *)
Lemma trim_run_r w R : run strings.spaces R -> trim (w ++ R) = trim w.
Proof.
  intros HR. unfold trim.
  destruct (trimLeft_split w) as (L & HL & Hw & Hstop).
  destruct (decide (strings.trimLeft w = [])) as [Hnil|Hne].
  - rewrite Hnil in *. rewrite app_nil_r in Hw. subst w.
    rewrite <- (app_nil_r (L ++ R)).
    rewrite trimLeft_run; [done|by apply run_app|].
    apply cutAny_nil, spaces_nonempty.
  - rewrite Hw at 1. rewrite <- app_assoc.
    rewrite trimLeft_run; [|done|by apply cutAny_app_run].
    destruct (trimRight_split (strings.trimLeft w))
      as (R' & HR' & Hsplit & Hstop').
    rewrite Hsplit at 1. rewrite <- app_assoc.
    apply trimRight_run; [by apply run_app|done].
Qed.

(** *** Cutting at the first separator *)

Lemma cutBytes_Some sep s a b :
  strings.cutBytes sep s = Some (a, b) <-> s = a ++ sep :: b /\ sep ∉ a.
Proof.
  revert a. induction s as [|c s IH]; intros a; simpl.
  - split; [discriminate|]. intros [Heq _]. by destruct a.
  - destruct (Ascii.eqb_spec c sep) as [->|Hc].
    + split.
      * intros [= <- <-]. split; [done|apply not_elem_of_nil].
      * intros [Heq Hnotin]. destruct a as [|c' a].
        -- by injection Heq as ->.
        -- injection Heq as <- _. destruct Hnotin. by left.
    + destruct (strings.cutBytes sep s) as [[a' b']|] eqn:Hcut.
      * split.
        -- intros [= <- <-]. destruct (proj1 (IH a') eq_refl) as [-> Hn].
           split; [done|]. by intros [?|?]%elem_of_cons.
        -- intros [Heq Hnotin]. destruct a as [|c' a]; [by injection Heq|].
           injection Heq as <- Heq.
           assert (Some (a', b') = Some (a, b)) as [= -> ->]; [|done].
           apply IH. split; [done|]. intros ?. apply Hnotin. by right.
      * split; [discriminate|]. intros [Heq Hnotin].
        destruct a as [|c' a]; [by injection Heq|].
        injection Heq as <- Heq.
        assert (None = Some (a, b)) as [=]. apply IH.
        split; [done|]. intros ?. apply Hnotin. by right.
Qed.

Lemma cutBytes_None sep s : strings.cutBytes sep s = None <-> sep ∉ s.
Proof.
  induction s as [|c s IH]; simpl;
    [split; [intros _; apply not_elem_of_nil|done]|].
  destruct (Ascii.eqb_spec c sep) as [->|Hc].
  - split; [discriminate|]. intros []. by left.
  - destruct (strings.cutBytes sep s) as [[a b]|].
    + split; [discriminate|]. intros Hn. exfalso.
      assert (Some (a, b) = @None (bytes * bytes)) as [=].
      apply IH. intros ?. apply Hn. by right.
    + split; [|done]. intros _ [?|?]%elem_of_cons; [done|]. by apply IH.
Qed.

Lemma cutBytes_app_l sep a s :
  sep ∉ a ->
  strings.cutBytes sep (a ++ s)
  = match strings.cutBytes sep s with
    | Some (k, v) => Some (a ++ k, v)
    | None => None
    end.
Proof.
  intros Ha. induction a as [|c a IH]; simpl.
  - by destruct (strings.cutBytes sep s) as [[? ?]|].
  - destruct (Ascii.eqb_spec c sep) as [->|Hc]; [destruct Ha; by left|].
    rewrite IH by (intros ?; apply Ha; by right).
    by destruct (strings.cutBytes sep s) as [[? ?]|].
Qed.

Lemma cutBytes_app_r sep s R :
  sep ∉ R ->
  strings.cutBytes sep (s ++ R)
  = match strings.cutBytes sep s with
    | Some (k, v) => Some (k, v ++ R)
    | None => None
    end.
Proof.
  intros HR. induction s as [|c s IH]; simpl.
  - by apply cutBytes_None.
  - destruct (Ascii.eqb_spec c sep); [done|]. rewrite IH.
    by destruct (strings.cutBytes sep s) as [[? ?]|].
Qed.

(** Cutting the trimmed line and trimming the halves, or cutting the
    line as it is and trimming the halves: the same. *)
Lemma trim_cut (x : bytes) :
  match strings.cutBytes "=" (trim x) with
  | Some (a, b) => Some (trim a, trim b)
  | None => None
  end
  = match strings.cutBytes "=" x with
    | Some (k, v) => Some (trim k, trim v)
    | None => None
    end.
Proof.
  destruct (trimLeft_split x) as (L & HL & Hx & _).
  destruct (trimRight_split (strings.trimLeft x)) as (R & HR & Hsplit & _).
  fold (trim x) in Hsplit. rewrite Hx at 2. rewrite Hsplit.
  rewrite cutBytes_app_l by (by apply (run_no_byte strings.spaces);
                             [apply spaces_no_equals|]).
  rewrite cutBytes_app_r by (by apply (run_no_byte strings.spaces);
                             [apply spaces_no_equals|]).
  destruct (strings.cutBytes "=" (trim x)) as [[k v]|]; [|done].
  by rewrite trim_run_l, trim_run_r.
Qed.

(** ** The env parser *)

Example TrimSpace_unicode :
  strings.TrimSpace
    (string_of_bytes (map ascii_of_nat [227; 128; 128; 9])
     +:+ "a b" +:+ string_of_bytes (map ascii_of_nat [194; 160; 13]))
  = "a b".
Proof. vm_compute. reflexivity. Qed.

Example rawLines_crlf :
  linesOf (bytes_of_string "a" ++ ["013"; "010"; "010"]%char
           ++ bytes_of_string "b")
  = ["a"; ""; "b"].
Proof. vm_compute. reflexivity. Qed.

Lemma TrimSpace_cut (text : string) :
  match strings.cut "=" (strings.TrimSpace text) with
  | Some (a, b) => Some (strings.TrimSpace a, strings.TrimSpace b)
  | None => None
  end
  = match strings.cut "=" text with
    | Some (name, value) =>
        Some (strings.TrimSpace name, strings.TrimSpace value)
    | None => None
    end.
Proof.
  unfold strings.cut. unfold strings.TrimSpace at 1.
  unfold bytes_of_string at 1, string_of_bytes at 1.
  rewrite list_ascii_of_string_of_list_ascii.
  fold (trim (bytes_of_string text)).
  pose proof (trim_cut (bytes_of_string text)) as Hcut.
  destruct (strings.cutBytes "=" (trim (bytes_of_string text))) as [[a b]|],
           (strings.cutBytes "=" (bytes_of_string text)) as [[k v]|];
    try done.
  injection Hcut as Ha Hb. by rewrite !TrimSpace_bytes, Ha, Hb.
Qed.

(** One round of the loop of [parseEnvFile] is one line of the
    specification. *)
Lemma scanLoop_cons raw lines envMap :
  length raw < bufio.MaxScanTokenSize ->
  cli.scanLoop (raw :: lines) envMap
  = cli.scanLoop lines
      (insertEntry envMap (string_of_bytes (bufio.dropCR raw))).
Proof.
  intros Hlen. cbn [cli.scanLoop]. unfold bufio.token.
  destruct (Nat.leb_spec bufio.MaxScanTokenSize (length raw)); [lia|].
  set (text := string_of_bytes (bufio.dropCR raw)).
  unfold insertEntry, lineEntry. fold text.
  destruct (String.eqb (strings.TrimSpace text) ""
            || strings.HasPrefix (strings.TrimSpace text) "#"); [done|].
  rewrite <- TrimSpace_cut. unfold strings.SplitN2.
  by destruct (strings.cut "=" (strings.TrimSpace text)) as [[a b]|].
Qed.

Lemma scanLoop_short lines envMap :
  Forall (fun raw => length raw < bufio.MaxScanTokenSize) lines ->
  cli.scanLoop lines envMap
  = Ok (foldl insertEntry envMap
          (map (fun raw => string_of_bytes (bufio.dropCR raw)) lines)).
Proof.
  intros Hall. revert envMap.
  induction Hall as [|raw lines Hraw _ IH]; intros envMap; [done|].
  rewrite scanLoop_cons by done. apply IH.
Qed.

Lemma scanLoop_long lines envMap :
  Exists (fun raw => bufio.MaxScanTokenSize <= length raw) lines ->
  cli.scanLoop lines envMap = Err tooLong.
Proof.
  intros Hex. revert envMap.
  induction lines as [|raw lines IH]; intros envMap;
    [by apply Exists_nil in Hex|].
  destruct (Nat.leb_spec bufio.MaxScanTokenSize (length raw)) as [Hlong|Hshort].
  - cbn [cli.scanLoop]. unfold bufio.token.
    by destruct (Nat.leb_spec bufio.MaxScanTokenSize (length raw)); [|lia].
  - rewrite scanLoop_cons by done. apply IH.
    apply Exists_cons in Hex as [?|?]; [lia|done].
Qed.

Lemma string_of_bytes_app (a b : bytes) :
  string_of_bytes (a ++ b) = string_of_bytes a +:+ string_of_bytes b.
Proof. induction a as [|c a IH]; simpl; [done|]. by rewrite IH. Qed.

Lemma cut_first (text name value : string) :
  strings.cut "=" text = Some (name, value) ->
  text = name +:+ "=" +:+ value
  /\ "="%char ∉ bytes_of_string name.
Proof.
  unfold strings.cut.
  destruct (strings.cutBytes "=" (bytes_of_string text)) as [[a b]|] eqn:Hc;
    [|discriminate].
  intros [= <- <-]. apply cutBytes_Some in Hc as [Heq Hn].
  split.
  - rewrite <- (string_of_list_ascii_of_string text).
    fold (bytes_of_string text). fold (string_of_bytes (bytes_of_string text)).
    rewrite Heq. by rewrite string_of_bytes_app.
  - unfold bytes_of_string, string_of_bytes.
    by rewrite list_ascii_of_string_of_list_ascii.
Qed.

(** Claim C7, as the code has it. When every line of the input is shorter
    than 64 KiB, [parseEnvFile] returns the map of its lines as the
    specification words it ([envOfLines]): blank lines and lines that
    start with [#] once trimmed contribute nothing, another line is split
    on its first [=] and both sides are trimmed before the insertion,
    lines without [=] are dropped. When a line is longer, it returns an
    error and no map. *)
Theorem parseEnvFile_lines (data : bytes) :
  (Forall (fun raw => length raw < bufio.MaxScanTokenSize)
          (bufio.rawLines data) ->
   cli.parseEnvFile data = Ok (envOfLines (linesOf data)))
  /\ (Exists (fun raw => bufio.MaxScanTokenSize <= length raw)
             (bufio.rawLines data) ->
      cli.parseEnvFile data = Err tooLong).
Proof.
  split; intros Hlines.
  - by apply scanLoop_short.
  - by apply scanLoop_long.
Qed.

Example parseEnvFile_envText :
  cli.parseEnvFile envText = Ok {[ "A" := "1"; "B" := "2=3" ]}.
Proof. vm_compute. reflexivity. Qed.

Lemma parseEnvFile_lines_witness :
  cli.parseEnvFile envText = Ok (envOfLines (linesOf envText))
  /\ cli.parseEnvFile (replicate bufio.MaxScanTokenSize "A"%char)
     = Err tooLong.
Proof.
  split.
  - apply (parseEnvFile_lines envText).
    apply (bool_decide_unpack _). by vm_compute.
  - apply (parseEnvFile_lines (replicate bufio.MaxScanTokenSize "A"%char)).
    apply (bool_decide_unpack _). by vm_compute.
Defined.

(** Claim C7 as the specification states it fails: for an input of one
    line of 64 KiB the parser produces no map. *)
Lemma parseEnvFile_long_line :
  cli.parseEnvFile (replicate bufio.MaxScanTokenSize "A"%char) = Err tooLong.
Proof. vm_compute. reflexivity. Qed.

(** ** Merging the entries of an archive *)

(** A loop over a map inserts its entries, whatever the order. *)
Lemma rangeInsert_union (kvs : list (string * string))
    (m target : gmap string string) :
  kvs ≡ₚ map_to_list m -> cli.rangeInsert kvs target = m ∪ target.
Proof.
  intros [Hnd <-]%list_to_map_perm. revert target.
  induction kvs as [|[k v] kvs IH]; intros target.
  - unfold cli.rangeInsert. simpl. by rewrite (left_id_L ∅ (∪)).
  - apply NoDup_cons in Hnd as [Hk Hnd]. cbn. unfold cli.rangeInsert in IH.
    rewrite IH by done.
    rewrite <- insert_union_l. symmetry. apply insert_union_r.
    by apply not_elem_of_list_to_map_1.
Qed.


Section MergeFacts.
Context `{tar.Container}.

End MergeFacts.


Example parseDataToEnvMap_threeFiles :
  cli.parseDataToEnvMap archive1 (cfgOf false "" threeFiles)
  = Ok {[ "A" := "2" ]}.
Proof. vm_compute. reflexivity. Qed.


(** ** Storage keys *)

(** Claim C9. [BuildKey prefix tag] is [prefix ++ tag ++ ".env"] for a
    non-empty prefix and [tag ++ ".env"] for the empty one; nothing is
    inserted between prefix and tag, and the three keys of the
    specification come out as written there. *)
Theorem BuildKey_concat :
  (forall prefix tag : string,
      storage.BuildKey prefix tag
      = if decide (prefix = "") then tag +:+ ".env"
        else prefix +:+ tag +:+ ".env")
  /\ (forall prefix tag : string,
         storage.BuildKey prefix tag = prefix +:+ (tag +:+ ".env"))
  /\ storage.BuildKey "" "v1.0.0" = "v1.0.0.env"
  /\ storage.BuildKey "envs/" "v1.0.0" = "envs/v1.0.0.env"
  /\ storage.BuildKey "prefix" "test" = "prefixtest.env".
Proof.
  repeat split; try reflexivity.
  - intros prefix tag. unfold storage.BuildKey.
    destruct (String.eqb_spec prefix ""); case_decide; congruence.
  - intros prefix tag. unfold storage.BuildKey.
    destruct (String.eqb_spec prefix "") as [->|]; reflexivity.
Qed.

(** ** Keys in hexadecimal *)

Lemma DecodeString_encoded_byte v rest :
  hex.DecodeString
    (String (hex.hexDigit (N.shiftr (N_of_ascii v) 4))
       (String (hex.hexDigit (N.land (N_of_ascii v) 15)) rest))
  = match hex.DecodeString rest with Ok r => Ok (v :: r) | e => e end.
Proof. by destruct v as [[] [] [] [] [] [] [] []]. Qed.

Lemma DecodeString_EncodeToString b :
  hex.DecodeString (hex.EncodeToString b) = Ok b.
Proof.
  induction b as [|v b IH]; [done|].
  cbn [hex.EncodeToString]. by rewrite DecodeString_encoded_byte, IH.
Qed.

Lemma DecodeString_pair a b rest :
  hex.DecodeString (String a (String b rest))
  = match hex.fromHexChar a, hex.fromHexChar b with
    | Some x, Some y =>
        match hex.DecodeString rest with
        | Ok r => Ok (ascii_of_N (16 * x + y) :: r)
        | e => e
        end
    | _, _ => Err "encoding/hex: invalid byte"
    end.
Proof. done. Qed.

(** Induction on a string, two characters at a time. *)
Lemma string_pair_ind (P : string -> Prop) :
  P "" -> (forall a, P (String a "")) ->
  (forall a b s, P s -> P (String a (String b s))) ->
  forall s, P s.
Proof.
  intros H0 H1 H2.
  assert (forall s, P s /\ forall a, P (String a s)) as Hall.
  { induction s as [|b s [IH1 IH2]]; [by split|].
    split; [apply IH2|]. intros a. by apply H2. }
  intros s. apply Hall.
Qed.

Lemma DecodeString_Ok s :
  is_Ok (hex.DecodeString s) = true
  <-> Nat.even (String.length s) = true /\ hexDigits s = true.
Proof.
  induction s as [| a | a b s IH] using string_pair_ind.
  - done.
  - cbn. destruct (hex.fromHexChar a); cbn; intuition discriminate.
  - rewrite DecodeString_pair. unfold hexDigits in *.
    cbn [bytes_of_string list_ascii_of_string forallb String.length Nat.even].
    destruct (hex.fromHexChar a) as [x|], (hex.fromHexChar b) as [y|]; cbn;
      try (intuition discriminate).
    rewrite <- IH. by destruct (hex.DecodeString s).
Qed.

Lemma DecodeString_length s b :
  hex.DecodeString s = Ok b -> String.length s = 2 * length b.
Proof.
  revert b. induction s as [| a | a c s IH] using string_pair_ind; intros b.
  - by intros [= <-].
  - cbn. by destruct (hex.fromHexChar a).
  - rewrite DecodeString_pair.
    destruct (hex.fromHexChar a), (hex.fromHexChar c); try discriminate.
    destruct (hex.DecodeString s) as [r| |]; try discriminate.
    intros [= <-]. cbn. rewrite (IH r); [lia|done].
Qed.

Lemma DecodeString_no_panic s m : hex.DecodeString s <> Panic m.
Proof.
  revert m. induction s as [| a | a b s IH] using string_pair_ind; intros m.
  - done.
  - cbn. by destruct (hex.fromHexChar a).
  - rewrite DecodeString_pair.
    destruct (hex.fromHexChar a), (hex.fromHexChar b); try done.
    destruct (hex.DecodeString s) eqn:Hs; [done..|].
    intros [= <-]. by eapply IH.
Qed.

Lemma EncodeToString_nonempty key :
  key <> [] -> String.eqb (hex.EncodeToString key) "" = false.
Proof. by destruct key. Qed.

(** Property X1. A key of 32 bytes written in hexadecimal by
    [EncodeKeyToString] is read back by [DecodeKeyFromString] as the same
    key. *)
Theorem key_round_trip (key : bytes) :
  length key = crypto.KeySize ->
  crypto.DecodeKeyFromString (crypto.EncodeKeyToString key) = Ok key.
Proof.
  intros Hlen. unfold crypto.DecodeKeyFromString, crypto.EncodeKeyToString.
  rewrite DecodeString_EncodeToString, Hlen. done.
Qed.

Lemma key_round_trip_witness :
  crypto.DecodeKeyFromString (crypto.EncodeKeyToString key1) = Ok key1.
Proof. apply (key_round_trip key1). reflexivity. Defined.

(** Property X2. [DecodeKeyFromString] accepts exactly the strings of 64
    hexadecimal digits, of either case; every other string, a key of
    another size or with white space around it included, is an error. *)
Theorem DecodeKeyFromString_accepts (keyHex : string) :
  is_Ok (crypto.DecodeKeyFromString keyHex) = true
  <-> String.length keyHex = 64 /\ hexDigits keyHex = true.
Proof.
  unfold crypto.DecodeKeyFromString.
  destruct (hex.DecodeString keyHex) as [key|e|m] eqn:Hdec.
  - pose proof (DecodeString_length _ _ Hdec) as Hlen.
    assert (Hok : is_Ok (hex.DecodeString keyHex) = true) by by rewrite Hdec.
    apply DecodeString_Ok in Hok as [_ Hhex].
    unfold crypto.KeySize.
    destruct (Nat.eqb_spec (length key) 32); cbn; [split; [|done]|].
    + intros _. split; [lia|done].
    + split; [done|]. intros [? _]. lia.
  - cbn. split; [done|]. intros [Hlen Hhex].
    assert (Hok : is_Ok (hex.DecodeString keyHex) = true).
    { apply DecodeString_Ok. by rewrite Hlen. }
    by rewrite Hdec in Hok.
  - by apply DecodeString_no_panic in Hdec.
Qed.

(** ** Envelopes under any accepted key *)

Lemma Encrypt_Ok_full content key rng e rest :
  crypto.Encrypt content key rng = (Ok e, rest) ->
  aes.NewCipher key = Ok (aes.encryptBlock key)
  /\ length (take 12 rng) = 12
  /\ rest = drop 12 rng
  /\ (N.of_nat (length content) <= gcm.maxPlaintext)%N
  /\ e = envelope (aes.encryptBlock key) (take 12 rng) content.
Proof.
  unfold crypto.Encrypt.
  destruct (aes.NewCipher key) as [block| |] eqn:Hblock; try discriminate.
  pose proof (NewCipher_Ok_inv _ _ Hblock) as ->.
  unfold rand.ReadFull, crypto.NonceSize, gcm.gcmStandardNonceSize.
  destruct (Nat.leb_spec 12 (length rng)); [|discriminate].
  assert (Hn : length (take 12 rng) = 12) by (rewrite length_take; lia).
  unfold gcm.Seal, gcm.gcmStandardNonceSize. rewrite Hn. simpl negb.
  cbv iota.
  destruct (N.ltb_spec gcm.maxPlaintext (N.of_nat (length content)));
    [discriminate|].
  by intros [= <- <-].
Qed.

Lemma Decrypt_envelope_cipher key plaintext nonce :
  aes.NewCipher key = Ok (aes.encryptBlock key) -> length nonce = 12 ->
  (N.of_nat (length plaintext) <= gcm.maxPlaintext)%N ->
  crypto.Decrypt (envelope (aes.encryptBlock key) nonce plaintext) key
  = Ok plaintext.
Proof.
  intros Hk Hn Hp. unfold crypto.Decrypt.
  rewrite Hk. unfold envelope, crypto.NonceSize, gcm.gcmStandardNonceSize.
  rewrite length_app, Hn.
  destruct (Nat.ltb_spec (12 + length
    (gcm.counterCrypt (aes.encryptBlock key) plaintext
       (gcm.gcmInc32 (gcm.deriveCounter nonce)) ++
     gcm.auth (aes.encryptBlock key)
       (gcm.counterCrypt (aes.encryptBlock key) plaintext
          (gcm.gcmInc32 (gcm.deriveCounter nonce))) []
       (aes.encryptBlock key (gcm.deriveCounter nonce)))) 12); [lia|].
  rewrite take_app_length', drop_app_length' by done.
  erewrite Open_Seal; [done|]. by rewrite Seal_Ok.
Qed.

(** What [Encrypt] returns, [Decrypt] opens, whatever the size of the
    key [aes.NewCipher] accepted. *)
Lemma Decrypt_of_Encrypt content key rng e rest :
  crypto.Encrypt content key rng = (Ok e, rest) ->
  crypto.Decrypt e key = Ok content.
Proof.
  intros (Hk & Hn & _ & Hp & ->)%Encrypt_Ok_full.
  by apply Decrypt_envelope_cipher.
Qed.

(** Property X3. An envelope [Encrypt] returns is 28 bytes longer than
    the content: it starts with the 12 bytes taken from the random
    source, which are the nonce, and ends with the tag; [Decrypt] opens
    it under the same key, whether that key has 16, 24 or 32 bytes. *)
Theorem Encrypt_layout (content key rng sealed rest : bytes) :
  crypto.Encrypt content key rng = (Ok sealed, rest) ->
  length sealed = crypto.NonceSize + length content + gcm.gcmTagSize
  /\ take crypto.NonceSize sealed = take crypto.NonceSize rng
  /\ rest = drop crypto.NonceSize rng
  /\ crypto.Decrypt sealed key = Ok content.
Proof.
  intros Henc. pose proof (Decrypt_of_Encrypt _ _ _ _ _ Henc) as Hdec.
  apply Encrypt_Ok_full in Henc as (_ & Hn & -> & _ & ->).
  split_and!; try done.
  - rewrite envelope_length, Hn. unfold crypto.NonceSize,
      gcm.gcmStandardNonceSize, gcm.gcmTagSize. lia.
  - unfold envelope, crypto.NonceSize, gcm.gcmStandardNonceSize.
    by rewrite take_app_length'.
Qed.

Lemma Encrypt_layout_witness :
  length envelope1 = crypto.NonceSize + length content1 + gcm.gcmTagSize
  /\ take crypto.NonceSize envelope1 = take crypto.NonceSize nonce1
  /\ [] = drop crypto.NonceSize nonce1
  /\ crypto.Decrypt envelope1 key1 = Ok content1.
Proof.
  apply (Encrypt_layout content1 key1 nonce1 envelope1 []).
  vm_compute. reflexivity.
Defined.

(** ** What push prepares, pull processes *)

Lemma prepareData_Ok_inv data cfg rng blob rest :
  cli.prepareData data cfg rng = (Ok blob, rest) ->
  (config.Enabled (config.Encryption cfg) = false /\ blob = data /\ rest = rng)
  \/ (config.Enabled (config.Encryption cfg) = true
      /\ String.eqb (config.Key (config.Encryption cfg)) "" = false
      /\ exists key,
           crypto.DecodeKeyFromString (config.Key (config.Encryption cfg))
           = Ok key
           /\ crypto.Encrypt data key rng = (Ok blob, rest)).
Proof.
  unfold cli.prepareData.
  destruct (config.Enabled (config.Encryption cfg)); simpl.
  - destruct (String.eqb _ ""); [discriminate|].
    destruct (crypto.DecodeKeyFromString _) as [key|e|m]; try discriminate.
    destruct (crypto.Encrypt data key rng) as [[e| |] rest'] eqn:He;
      try discriminate.
    intros [= <- <-]. right. eauto.
  - intros [= <- <-]. by left.
Qed.

Lemma processData_of_prepareData data cfg rng blob rest :
  cli.prepareData data cfg rng = (Ok blob, rest) ->
  cli.processData blob cfg = Ok data.
Proof.
  intros [(Hen & -> & _)|(Hen & Hkey & key & Hdec & Henc)]%prepareData_Ok_inv;
    unfold cli.processData; rewrite Hen; simpl; [done|].
  rewrite Hkey, Hdec. by rewrite (Decrypt_of_Encrypt _ _ _ _ _ Henc).
Qed.

(** Property X4. Whatever [prepareData] returns for an upload,
    [processData] turns back into the data under the same
    configuration. With encryption off the blob is the data and the
    random source is not read; with encryption on the blob is 28 bytes
    longer than the data, so it is never the data itself. *)
Theorem processData_prepareData (data : bytes) (cfg : config.Config)
    (rng blob rest : bytes) :
  cli.prepareData data cfg rng = (Ok blob, rest) ->
  cli.processData blob cfg = Ok data
  /\ if config.Enabled (config.Encryption cfg)
     then length blob = length data + 28 /\ rest = drop 12 rng
     else blob = data /\ rest = rng.
Proof.
  intros Hprep. split; [by eapply processData_of_prepareData|].
  apply prepareData_Ok_inv in Hprep
    as [(-> & -> & ->)|(-> & _ & key & _ & Henc)]; [done|].
  apply Encrypt_Ok_full in Henc as (_ & Hn & -> & _ & ->).
  split; [|done]. rewrite envelope_length, Hn. lia.
Qed.

Lemma processData_prepareData_witness :
  cli.processData envelope1 (cfgOf true hexKey1 [".env"]) = Ok content1
  /\ if config.Enabled (config.Encryption (cfgOf true hexKey1 [".env"]))
     then length envelope1 = length content1 + 28 /\ [] = drop 12 nonce1
     else envelope1 = content1 /\ [] = nonce1.
Proof.
  apply (processData_prepareData content1 (cfgOf true hexKey1 [".env"])
           nonce1 envelope1 []).
  vm_compute. reflexivity.
Defined.

(** Property X5. A key [GenerateKey] returns, written into the
    configuration by [EncodeKeyToString] as [init] does, is one
    [prepareData] accepts: the data is encrypted, and [Decrypt] under the
    generated key returns it. *)
Theorem generated_key_encrypts (rng key rest data rng2 : bytes)
    (cfg : config.Config) :
  crypto.GenerateKey rng = (Ok key, rest) ->
  config.Encryption cfg
  = {| config.Enabled := true;
       config.Key := crypto.EncodeKeyToString key |} ->
  crypto.NonceSize <= length rng2 ->
  (N.of_nat (length data) <= gcm.maxPlaintext)%N ->
  exists blob,
    cli.prepareData data cfg rng2 = (Ok blob, drop crypto.NonceSize rng2)
    /\ crypto.Decrypt blob key = Ok data.
Proof.
  intros Hgen Hcfg Hrng Hdata.
  assert (Hlen : length key = 32).
  { revert Hgen. unfold crypto.GenerateKey, rand.ReadFull, crypto.KeySize.
    destruct (Nat.leb_spec 32 (length rng)); [|discriminate].
    intros [= <- _]. rewrite length_take. lia. }
  exists (envelope (aes.encryptBlock key) (take 12 rng2) data).
  assert (Hn : length (take 12 rng2) = 12).
  { rewrite length_take.
    unfold crypto.NonceSize, gcm.gcmStandardNonceSize in *. lia. }
  split.
  - unfold cli.prepareData. rewrite Hcfg. simpl.
    unfold crypto.EncodeKeyToString.
    rewrite EncodeToString_nonempty by (intros ->; done).
    unfold crypto.DecodeKeyFromString.
    rewrite DecodeString_EncodeToString, Hlen. simpl.
    rewrite <- (take_drop 12 rng2) at 1.
    by rewrite Encrypt_envelope.
  - by apply Decrypt_envelope.
Qed.

Lemma generated_key_encrypts_witness :
  exists blob,
    cli.prepareData content1 (cfgOf true hexKey1 [".env"]) nonce1
    = (Ok blob, drop crypto.NonceSize nonce1)
    /\ crypto.Decrypt blob key1 = Ok content1.
Proof.
  apply (generated_key_encrypts key1 key1 [] content1 nonce1
           (cfgOf true hexKey1 [".env"]));
    [by vm_compute | by vm_compute | vm_compute; lia
    | vm_compute; discriminate].
Defined.

(** Property X6. [processData] never panics, and its only error is a
    configured key that does not decode, reported with the prefix
    [failed to decode encryption key] in front of the error of
    [DecodeKeyFromString]; every other outcome is data. *)
Theorem processData_errors (data : bytes) (cfg : config.Config) :
  (exists out, cli.processData data cfg = Ok out)
  \/ (exists e, config.Enabled (config.Encryption cfg) = true
                /\ config.Key (config.Encryption cfg) <> ""
                /\ crypto.DecodeKeyFromString
                     (config.Key (config.Encryption cfg)) = Err e
                /\ cli.processData data cfg
                   = Err ("failed to decode encryption key: " +:+ e)).
Proof.
  unfold cli.processData.
  destruct (config.Enabled (config.Encryption cfg)); simpl; [|eauto].
  destruct (String.eqb_spec (config.Key (config.Encryption cfg)) "");
    [eauto|].
  destruct (crypto.DecodeKeyFromString _) as [key|e|m] eqn:Hdec.
  - destruct (crypto.Decrypt data key) as [p|e|m] eqn:Hd; [eauto..|].
    by apply Decrypt_no_panic in Hd.
  - right. by exists e.
  - unfold crypto.DecodeKeyFromString in Hdec.
    destruct (hex.DecodeString _) as [key|e|m'] eqn:Hhex.
    + by destruct (negb _).
    + done.
    + by apply DecodeString_no_panic in Hhex.
Qed.

(** ** Writing files *)

Lemma testbit_createMode sys :
  N.testbit (os.createMode sys 384) 8 = negb (N.testbit (os.umask sys) 8).
Proof.
  unfold os.createMode.
  rewrite N.lor_spec, N.ldiff_spec, !N.land_spec.
  by destruct (N.testbit (os.umask sys) 8).
Qed.

Lemma WriteFile_Ok sys fs name data perm :
  os.hasNUL name = false -> os.openErr sys name = None ->
  exists f, os.WriteFile sys fs name data perm = (Ok (), <[name := f]> fs)
            /\ os.contents f = data
            /\ (forall old, fs !! name = Some old ->
                  os.readable f = os.readable old /\ os.perm f = os.perm old)
            /\ (fs !! name = None ->
                  os.perm f = os.createMode sys perm
                  /\ os.readable f = N.testbit (os.createMode sys perm) 8).
Proof.
  intros Hnul Hopen. unfold os.WriteFile. rewrite Hnul, Hopen.
  exists (os.opened sys fs name perm data). unfold os.opened.
  destruct (fs !! name) as [[c p r]|] eqn:Hfs; split_and!; try done.
  intros old [= <-]. done.
Qed.

Lemma WriteFile_Ok_inv sys fs name data perm fs' :
  os.WriteFile sys fs name data perm = (Ok (), fs') ->
  os.hasNUL name = false /\ os.openErr sys name = None.
Proof.
  unfold os.WriteFile. destruct (os.hasNUL name); [discriminate|].
  by destruct (os.openErr sys name), (os.failsAfter sys name) as [[]|].
Qed.

(** A write that fails leaves the files as they were, or the one file
    with the first bytes of the data. *)
Lemma WriteFile_failed sys fs name data perm e fs' :
  os.WriteFile sys fs name data perm = (Err e, fs') ->
  fs' = fs
  \/ exists f n, fs' = <[name := f]> fs /\ os.contents f = take n data.
Proof.
  unfold os.WriteFile. destruct (os.hasNUL name); [left; congruence|].
  destruct (os.openErr sys name), (os.failsAfter sys name) as [[op n]|];
    intros [= _ <-]; [|by left].
  right. exists (os.opened sys fs name perm (take n data)), n.
  split; [done|]. unfold os.opened. by destruct (fs !! name) as [[]|].
Qed.

Lemma WriteFile_no_panic sys fs name data perm m fs' :
  os.WriteFile sys fs name data perm <> (Panic m, fs').
Proof.
  unfold os.WriteFile. destruct (os.hasNUL name); [congruence|].
  destruct (os.openErr sys name), (os.failsAfter sys name) as [[]|];
    congruence.
Qed.

Lemma ReadFile_insert fs name f :
  os.hasNUL name = false -> os.readable f = true ->
  os.ReadFile (<[name := f]> fs) name = Ok (os.contents f).
Proof.
  intros Hnul Hr. unfold os.ReadFile, os.lookupPath.
  rewrite Hnul, lookup_insert_eq. simpl. by rewrite Hr.
Qed.

Lemma ReadFile_WriteFile sys fs name data fs' :
  os.WriteFile sys fs name data 384 = (Ok (), fs') ->
  readsBack sys fs name ->
  os.ReadFile fs' name = Ok data.
Proof.
  intros Hw Hrb.
  destruct (WriteFile_Ok_inv _ _ _ _ _ _ Hw) as [Hnul Hopen].
  destruct (WriteFile_Ok sys fs name data 384 Hnul Hopen)
    as (f & Hw' & Hc & Hold & Hnew).
  rewrite Hw in Hw'. injection Hw' as ->.
  rewrite ReadFile_insert; [by rewrite Hc|done|].
  unfold readsBack in Hrb. destruct (fs !! name) as [old|] eqn:Hfs.
  - destruct (Hold old eq_refl) as [-> _]. done.
  - destruct (Hnew eq_refl) as [_ ->].
    by rewrite testbit_createMode, Hrb.
Qed.

(** ** Key files *)

(** Property X7. A key of 32 bytes that [SaveKey] has written is the key
    [LoadKey] returns from the same path, when the file written can be
    read back. *)
Theorem LoadKey_SaveKey (sys : os.Sys) (fs fs' : os.FS) (keyPath : string)
    (key : bytes) :
  length key = crypto.KeySize ->
  readsBack sys fs keyPath ->
  crypto.SaveKey sys fs keyPath key = (Ok (), fs') ->
  crypto.LoadKey fs' keyPath = Ok key.
Proof.
  intros Hlen Hrb. unfold crypto.SaveKey.
  destruct (os.WriteFile _ _ _ _ _) as [[[]|e|m] fs1] eqn:Hw; try discriminate.
  intros [= <-]. unfold crypto.LoadKey.
  rewrite (ReadFile_WriteFile _ _ _ _ _ Hw Hrb). simpl.
  unfold string_of_bytes, bytes_of_string.
  rewrite string_of_list_ascii_of_string, DecodeString_EncodeToString.
  simpl. by rewrite Hlen.
Qed.

Lemma LoadKey_SaveKey_witness :
  crypto.LoadKey {[ "syncenv.key" := file hexKey1 384 ]} "syncenv.key"
  = Ok key1.
Proof.
  apply (LoadKey_SaveKey sys0 ∅ {[ "syncenv.key" := file hexKey1 384 ]}
           "syncenv.key" key1);
    [reflexivity | reflexivity | by vm_compute].
Defined.

(** Property X8. [LoadKey] returns a key exactly when the bytes of the
    file, taken as they are, are a string [DecodeKeyFromString] accepts,
    and it is the key that function returns: nothing is trimmed, so a
    key file that ends in a newline is refused. *)
Theorem LoadKey_reads (fs : os.FS) (keyPath : string) (key : bytes) :
  crypto.LoadKey fs keyPath = Ok key
  <-> exists keyHex, os.ReadFile fs keyPath = Ok keyHex
        /\ crypto.DecodeKeyFromString (string_of_bytes keyHex) = Ok key.
Proof.
  unfold crypto.LoadKey, crypto.DecodeKeyFromString.
  split.
  - destruct (os.ReadFile fs keyPath) as [keyHex|e|m]; simpl;
      try discriminate.
    destruct (hex.DecodeString _) as [k|e|m] eqn:Hd; simpl;
      try discriminate.
    destruct (negb _) eqn:Hn; [discriminate|]. intros [= <-].
    exists keyHex. by rewrite Hd, Hn.
  - intros (keyHex & -> & Hd). simpl.
    destruct (hex.DecodeString _) as [k|e|m]; simpl; try discriminate.
    destruct (negb _); [discriminate|]. done.
Qed.

(** Property X9. What [EncryptFile] makes of a file, [DecryptToFile]
    writes back under the same key: when the target may be written and
    read, it then holds the content of the source. *)
Theorem DecryptToFile_EncryptFile (sys : os.Sys) (fs fs2 : os.FS)
    (source target : string) (key rng blob rest : bytes) :
  crypto.EncryptFile fs source key rng = (Ok blob, rest) ->
  os.hasNUL target = false ->
  os.openErr sys target = None ->
  readsBack sys fs2 target ->
  exists fs',
    crypto.DecryptToFile sys fs2 blob key target = (Ok (), fs')
    /\ os.ReadFile fs' target = os.ReadFile fs source.
Proof.
  unfold crypto.EncryptFile.
  destruct (os.ReadFile fs source) as [data|e|m]; try discriminate.
  intros Henc Hnul Hopen Hrb.
  unfold crypto.DecryptToFile.
  rewrite (Decrypt_of_Encrypt _ _ _ _ _ Henc).
  destruct (WriteFile_Ok sys fs2 target data 384 Hnul Hopen)
    as (f & Hw & _).
  rewrite Hw. eexists. split; [done|].
  by apply (ReadFile_WriteFile sys fs2).
Qed.

Lemma DecryptToFile_EncryptFile_witness :
  exists fs',
    crypto.DecryptToFile sys0 ∅ blobA1 key1 "out.env" = (Ok (), fs')
    /\ os.ReadFile fs' "out.env" = os.ReadFile fs0 ".env".
Proof.
  apply (DecryptToFile_EncryptFile sys0 fs0 ∅ ".env" "out.env" key1 nonce1
           blobA1 []);
    [by vm_compute | reflexivity | reflexivity | reflexivity].
Defined.

(** ** The configuration file *)

Lemma string_eqb_false a b : a <> b -> String.eqb a b = false.
Proof. intros. by apply String.eqb_neq. Qed.

Lemma Load_Ok_inv unmarshal fs cfg :
  config.Load unmarshal fs = Ok cfg ->
  exists data raw,
    os.ReadFile fs config.ConfigFileName = Ok data
    /\ unmarshal data = Ok raw
    /\ config.Storage cfg = config.Storage raw
    /\ config.Encryption cfg = config.Encryption raw
    /\ config.EnvFiles cfg = config.GetEnvFiles raw
    /\ config.GetEnvFiles cfg = config.GetEnvFiles raw.
Proof.
  unfold config.Load.
  change (filepath.Clean _) with config.ConfigFileName.
  destruct (os.ReadFile fs config.ConfigFileName) as [data|e|m];
    try discriminate. simpl.
  destruct (unmarshal data) as [[st en file files]|e|m] eqn:Hraw;
    try discriminate.
  simpl. intros [= <-].
  exists data, (config.Build_Config st en file files).
  unfold config.GetEnvFiles. simpl.
  destruct files as [|f files]; simpl;
    destruct (String.eqb_spec file "") as [->|Hne]; simpl;
    rewrite ?(string_eqb_false _ _ Hne); simpl; split_and!; done.
Qed.


(** Property X10. A configuration [Load] returns is the one the YAML
    parser made of [.syncenv.yml], with the same storage and encryption
    settings, in which the list of env files is never empty: it is what
    [GetEnvFiles] reports for the parsed file, and [GetEnvFiles] still
    reports it afterwards. *)
Theorem Load_env_files (unmarshal : bytes -> result config.Config)
    (fs : os.FS) (cfg : config.Config) :
  config.Load unmarshal fs = Ok cfg ->
  exists data raw,
    os.ReadFile fs config.ConfigFileName = Ok data
    /\ unmarshal data = Ok raw
    /\ config.Storage cfg = config.Storage raw
    /\ config.Encryption cfg = config.Encryption raw
    /\ config.EnvFiles cfg = config.GetEnvFiles raw
    /\ config.GetEnvFiles cfg = config.GetEnvFiles raw
    /\ config.EnvFiles cfg <> [].
Proof.
  intros (data & raw & Hr & Hu & Hs & He & Hf & Hg)%Load_Ok_inv.
  exists data, raw. split_and!; try done.
  rewrite Hf. unfold config.GetEnvFiles.
  destruct (config.EnvFiles raw); simpl; [|done].
  by destruct (negb _).
Qed.

Lemma Load_env_files_witness :
  exists data raw,
    os.ReadFile fsYml config.ConfigFileName = Ok data
    /\ unmarshal0 data = Ok raw
    /\ config.Storage (cfgOf' true hexKey1 ".env" [".env"])
       = config.Storage raw
    /\ config.Encryption (cfgOf' true hexKey1 ".env" [".env"])
       = config.Encryption raw
    /\ config.EnvFiles (cfgOf' true hexKey1 ".env" [".env"])
       = config.GetEnvFiles raw
    /\ config.GetEnvFiles (cfgOf' true hexKey1 ".env" [".env"])
       = config.GetEnvFiles raw
    /\ config.EnvFiles (cfgOf' true hexKey1 ".env" [".env"]) <> [].
Proof.
  apply (Load_env_files unmarshal0 fsYml
           (cfgOf' true hexKey1 ".env" [".env"])).
  reflexivity.
Defined.



(** ** Strings as byte sequences *)

Lemma bytes_of_string_inj a b : bytes_of_string a = bytes_of_string b -> a = b.
Proof.
  intros Heq. rewrite <- (string_of_list_ascii_of_string a),
    <- (string_of_list_ascii_of_string b). unfold bytes_of_string in Heq.
  by rewrite Heq.
Qed.

Lemma bytes_of_string_app a b :
  bytes_of_string (a +:+ b) = bytes_of_string a ++ bytes_of_string b.
Proof.
  unfold bytes_of_string. induction a as [|c a IH]; [done|].
  simpl. by rewrite IH.
Qed.

Lemma bytes_of_string_length s : length (bytes_of_string s) = String.length s.
Proof.
  unfold bytes_of_string. induction s as [|c s IH]; [done|].
  simpl. by rewrite IH.
Qed.

Lemma bytes_of_substring n m s :
  bytes_of_string (substring n m s) = take m (drop n (bytes_of_string s)).
Proof.
  revert n m. induction s as [|c s IH]; intros n m.
  - destruct n, m; done.
  - destruct n as [|n].
    + destruct m as [|m]; [done|]. cbn. f_equal. apply (IH 0).
    + cbn. apply IH.
Qed.

Lemma bytes_of_string_of_bytes b : bytes_of_string (string_of_bytes b) = b.
Proof. apply list_ascii_of_string_of_list_ascii. Qed.

Lemma string_of_bytes_of_string s : string_of_bytes (bytes_of_string s) = s.
Proof. apply string_of_list_ascii_of_string. Qed.

Lemma string_length_app a b :
  String.length (a +:+ b) = String.length a + String.length b.
Proof.
  by rewrite <- !bytes_of_string_length, bytes_of_string_app, length_app.
Qed.

Lemma substring_app_l a b : substring 0 (String.length a) (a +:+ b) = a.
Proof.
  apply bytes_of_string_inj.
  rewrite bytes_of_substring, bytes_of_string_app, drop_0.
  rewrite <- bytes_of_string_length. by rewrite take_app_length.
Qed.

Lemma substring_app_r a b n :
  n = String.length b ->
  substring (String.length a) n (a +:+ b) = b.
Proof.
  intros ->. apply bytes_of_string_inj.
  rewrite bytes_of_substring, bytes_of_string_app.
  rewrite <- !bytes_of_string_length. rewrite drop_app_length.
  by rewrite firstn_all.
Qed.

Lemma substring_split s k :
  k <= String.length s ->
  s = substring 0 k s +:+ substring k (String.length s - k) s.
Proof.
  intros Hk. apply bytes_of_string_inj.
  rewrite bytes_of_string_app, !bytes_of_substring, drop_0.
  rewrite <- bytes_of_string_length.
  rewrite (take_ge (drop k _)) by (rewrite length_drop; lia).
  by rewrite take_drop.
Qed.

Lemma string_app_inj_r a b c : a +:+ c = b +:+ c -> a = b.
Proof.
  intros Heq. apply bytes_of_string_inj.
  apply (f_equal bytes_of_string) in Heq.
  rewrite !bytes_of_string_app in Heq. by apply app_inv_tail in Heq.
Qed.

Lemma string_app_assoc a b c : (a +:+ b) +:+ c = a +:+ b +:+ c.
Proof.
  apply bytes_of_string_inj. by rewrite !bytes_of_string_app, app_assoc.
Qed.

(** ** Keys and the tags listed for them *)

Lemma BuildKey_app prefix tag :
  storage.BuildKey prefix tag = prefix +:+ tag +:+ ".env".
Proof.
  unfold storage.BuildKey. by destruct (String.eqb_spec prefix "") as [->|].
Qed.

Lemma BuildKey_tag_inj prefix tag1 tag2 :
  storage.BuildKey prefix tag1 = storage.BuildKey prefix tag2 -> tag1 = tag2.
Proof.
  rewrite !BuildKey_app. intros Heq%String.app_inj.
  by apply string_app_inj_r in Heq.
Qed.

(** The suffix test of the backends. *)
Lemma env_suffix key :
  (4 <? String.length key)%nat
  && String.eqb (substring (String.length key - 4) 4 key) ".env" = true
  <-> exists tag, tag <> "" /\ key = tag +:+ ".env".
Proof.
  split.
  - intros [Hlen Hsuf%String.eqb_eq]%andb_prop.
    apply Nat.ltb_lt in Hlen.
    exists (substring 0 (String.length key - 4) key). split.
    + intros Hempty. apply (f_equal String.length) in Hempty.
      rewrite <- !bytes_of_string_length, bytes_of_substring in Hempty.
      rewrite length_take, length_drop, bytes_of_string_length in Hempty.
      simpl in Hempty. lia.
    + rewrite (substring_split key (String.length key - 4)) at 1 by lia.
      f_equal. replace (String.length key - (String.length key - 4)) with 4
        by lia. done.
  - intros (tag & Hne & ->). rewrite string_length_app. simpl.
    apply andb_true_intro. split.
    + apply Nat.ltb_lt. destruct tag; [done|simpl; lia].
    + replace (String.length tag + 4 - 4) with (String.length tag) by lia.
      by rewrite substring_app_r.
Qed.

Lemma env_suffix_cut tag :
  substring 0 (String.length (tag +:+ ".env") - 4) (tag +:+ ".env") = tag.
Proof.
  rewrite string_length_app. simpl.
  replace (String.length tag + 4 - 4) with (String.length tag) by lia.
  apply substring_app_l.
Qed.

Lemma tagOfKey_built prefix tag :
  storage.tagOfKey prefix (storage.BuildKey prefix tag)
  = Some (if decide (tag = "") then ".env" else tag).
Proof.
  rewrite BuildKey_app. unfold storage.tagOfKey.
  assert (Hcut : (if negb (String.eqb prefix "")
                     && (String.length prefix
                         <? String.length (prefix +:+ tag +:+ ".env"))%nat
                  then substring (String.length prefix)
                         (String.length (prefix +:+ tag +:+ ".env")
                          - String.length prefix)
                         (prefix +:+ tag +:+ ".env")
                  else prefix +:+ tag +:+ ".env") = tag +:+ ".env").
  { destruct (String.eqb_spec prefix "") as [->|Hp]; [done|]. simpl.
    rewrite !string_length_app.
    destruct (Nat.ltb_spec (String.length prefix)
                (String.length prefix
                 + (String.length tag + String.length ".env")));
      [|simpl in *; lia].
    apply substring_app_r. rewrite string_length_app. lia. }
  rewrite Hcut. clear Hcut.
  destruct (decide (tag = "")) as [->|Hne]; [done|].
  pose proof (proj2 (env_suffix (tag +:+ ".env"))) as ->; [|by exists tag].
  rewrite env_suffix_cut. by rewrite string_eqb_false.
Qed.

(** Property X12. Under one prefix, different tags have different keys:
    a push never lands on the key of another tag. The split between
    prefix and tag is not part of the key, though: a prefix and a tag
    that concatenate to the same string give the same key. *)
Theorem BuildKey_inj (prefix tag1 tag2 : string) :
  (storage.BuildKey prefix tag1 = storage.BuildKey prefix tag2 ->
   tag1 = tag2)
  /\ (forall more, storage.BuildKey (prefix +:+ more) tag1
                   = storage.BuildKey prefix (more +:+ tag1)).
Proof.
  split; [apply BuildKey_tag_inj|].
  intros more. by rewrite !BuildKey_app, !string_app_assoc.
Qed.

(** Property X13. The S3, GCS and Azure backends list every tag under
    its own name, in the order of the keys the service reports: the keys
    [BuildKey] made for the tags are turned back into the tags. The one
    exception is the empty tag, which is listed as [.env]. *)
Theorem listTags_BuildKey (prefix : string) (tags : list string) :
  storage.listTags prefix (map (storage.BuildKey prefix) tags)
  = map (fun tag => if decide (tag = "") then ".env" else tag) tags.
Proof.
  unfold storage.listTags. induction tags as [|tag tags IH]; [done|].
  cbn [map omap list_omap]. by rewrite tagOfKey_built, IH.
Qed.

(** Keys that [BuildKey] did not make are listed too: without the
    prefix when they are longer than it, as they are otherwise. *)
Example listTags_other_keys :
  storage.listTags "envs/" ["envs/v1.env"; "envs/.env"; "envs/notes.txt";
                            "envs/"]
  = ["v1"; ".env"; "notes.txt"; "envs/"].
Proof. vm_compute. reflexivity. Qed.

(** ** The mock store *)

Lemma mockUpload_Ok_inv m tag blob m' :
  storage.mockUpload m tag blob = (Ok (), m') ->
  storage.Error m = None
  /\ storage.Error m' = None
  /\ storage.data m' = <[storage.BuildKey "" tag := blob]> (storage.data m).
Proof.
  unfold storage.mockUpload. destruct (storage.Error m) eqn:He;
    [discriminate|].
  by intros [= <-].
Qed.

Lemma mockDownload_uploaded m tag blob :
  storage.Error m = None ->
  storage.data m !! storage.BuildKey "" tag = Some blob ->
  storage.mockDownload m tag = Ok blob
  /\ storage.mockExists m tag = Ok true.
Proof.
  intros He Hb. unfold storage.mockDownload, storage.mockExists.
  rewrite He, Hb. split; [done|]. by rewrite bool_decide_eq_true_2.
Qed.

(** An upload changes what is stored for its tag, and for no other. *)
Lemma mockUpload_stores m tag b :
  storage.Error m = None ->
  exists m',
    storage.mockUpload m tag b = (Ok (), m')
    /\ storage.mockDownload m' tag = Ok b
    /\ storage.mockExists m' tag = Ok true
    /\ forall other, other <> tag ->
         storage.mockDownload m' other = storage.mockDownload m other
         /\ storage.mockExists m' other = storage.mockExists m other.
Proof.
  intros Herr. unfold storage.mockUpload. rewrite Herr.
  eexists. split; [done|].
  unfold storage.mockDownload, storage.mockExists. simpl. rewrite Herr.
  rewrite lookup_insert_eq. split_and!; [done| |].
  - by rewrite bool_decide_eq_true_2.
  - intros other Hne.
    assert (storage.BuildKey "" tag <> storage.BuildKey "" other)
      by (by intros ?%BuildKey_tag_inj).
    by rewrite lookup_insert_ne.
Qed.

(** Property X14. In a mock store without an injected error, an upload
    succeeds, the tag then exists and its download returns the bytes
    uploaded; what is stored under every other tag is as before; and a
    second upload under the tag succeeds as well and replaces the
    first. *)
Theorem mock_Download_Upload (m : storage.MockStorage) (tag : string)
    (b : bytes) :
  storage.Error m = None ->
  exists m',
    storage.mockUpload m tag b = (Ok (), m')
    /\ storage.mockDownload m' tag = Ok b
    /\ storage.mockExists m' tag = Ok true
    /\ (forall other, other <> tag ->
          storage.mockDownload m' other = storage.mockDownload m other
          /\ storage.mockExists m' other = storage.mockExists m other)
    /\ (forall b2, exists m'',
          storage.mockUpload m' tag b2 = (Ok (), m'')
          /\ storage.mockDownload m'' tag = Ok b2).
Proof.
  intros Herr.
  destruct (mockUpload_stores m tag b Herr) as (m' & Hup & Hdown & Hex & Ho).
  exists m'. split_and!; try done.
  intros b2. apply mockUpload_Ok_inv in Hup as (_ & Herr' & _).
  destruct (mockUpload_stores m' tag b2 Herr') as (m'' & Hup2 & Hdown2 & _).
  by exists m''.
Qed.

Lemma mock_Download_Upload_witness :
  exists m',
    storage.mockUpload storage.NewMockStorage "v1" content1 = (Ok (), m')
    /\ storage.mockDownload m' "v1" = Ok content1
    /\ storage.mockExists m' "v1" = Ok true
    /\ (forall other, other <> "v1" ->
          storage.mockDownload m' other
          = storage.mockDownload storage.NewMockStorage other
          /\ storage.mockExists m' other
             = storage.mockExists storage.NewMockStorage other)
    /\ (forall b2, exists m'',
          storage.mockUpload m' "v1" b2 = (Ok (), m'')
          /\ storage.mockDownload m'' "v1" = Ok b2).
Proof.
  apply (mock_Download_Upload storage.NewMockStorage "v1" content1).
  reflexivity.
Defined.

(** Property X15. In a mock store without an injected error, [Delete]
    succeeds whether or not the tag is stored; afterwards the tag does
    not exist and its download fails with [tag <tag> not found], and
    every other tag is as before. *)
Theorem mock_Delete (m : storage.MockStorage) (tag : string) :
  storage.Error m = None ->
  exists m',
    storage.mockDelete m tag = (Ok (), m')
    /\ storage.mockExists m' tag = Ok false
    /\ storage.mockDownload m' tag = Err ("tag " +:+ tag +:+ " not found")
    /\ forall other, other <> tag ->
         storage.mockDownload m' other = storage.mockDownload m other
         /\ storage.mockExists m' other = storage.mockExists m other.
Proof.
  intros Herr. unfold storage.mockDelete. rewrite Herr.
  eexists. split; [done|].
  unfold storage.mockDownload, storage.mockExists. simpl. rewrite Herr.
  rewrite lookup_delete_eq. split_and!; [|done|].
  - rewrite bool_decide_eq_false_2; [done|]. by intros [? ?].
  - intros other Hne.
    assert (storage.BuildKey "" tag <> storage.BuildKey "" other)
      by (by intros ?%BuildKey_tag_inj).
    by rewrite lookup_delete_ne.
Qed.

Lemma mock_Delete_witness :
  exists m',
    storage.mockDelete store1 "v1" = (Ok (), m')
    /\ storage.mockExists m' "v1" = Ok false
    /\ storage.mockDownload m' "v1" = Err ("tag " +:+ "v1" +:+ " not found")
    /\ forall other, other <> "v1" ->
         storage.mockDownload m' other = storage.mockDownload store1 other
         /\ storage.mockExists m' other = storage.mockExists store1 other.
Proof. apply (mock_Delete store1 "v1"). reflexivity. Defined.

Lemma listed_Some kv tag :
  listed kv = Some tag <-> tag <> "" /\ kv.1 = tag +:+ ".env".
Proof.
  unfold listed.
  destruct ((4 <? String.length kv.1)%nat && _) eqn:Hs.
  - apply env_suffix in Hs as (t & Hne & Hkey). rewrite Hkey.
    rewrite env_suffix_cut. split.
    + by intros [= <-].
    + intros [_ ->%string_app_inj_r]. done.
  - split; [done|]. intros [Hne Hkey].
    assert (Hs' : (4 <? String.length kv.1)%nat
                  && String.eqb (substring (String.length kv.1 - 4) 4 kv.1)
                                ".env" = true)
      by (apply env_suffix; eauto).
    congruence.
Qed.

Lemma NoDup_listed (l : list (string * bytes)) :
  NoDup l.*1 -> NoDup (omap listed l).
Proof.
  induction l as [|kv l IH]; [constructor|].
  cbn. intros [Hnotin Hnd]%NoDup_cons.
  destruct (listed kv) as [tag|] eqn:Hkv; [|by apply IH].
  apply NoDup_cons. split; [|by apply IH].
  intros (kv' & Hin & Hkv')%list_elem_of_omap.
  apply listed_Some in Hkv as [_ Hk], Hkv' as [_ Hk'].
  apply Hnotin. rewrite Hk, <- Hk'. by apply list_elem_of_fmap_2.
Qed.

(** Property X16. In a mock store without an injected error, [List]
    returns, each once, the tags that exist, except the empty tag: a
    blob pushed under the empty tag exists and can be downloaded, and is
    not listed. *)
Theorem mock_List_Exists (m : storage.MockStorage) :
  storage.Error m = None ->
  exists tags,
    storage.mockList m = Ok tags
    /\ NoDup tags
    /\ forall tag, tag ∈ tags
                   <-> tag <> "" /\ storage.mockExists m tag = Ok true.
Proof.
  intros Herr. unfold storage.mockList, storage.mockExists. rewrite Herr.
  eexists. split; [done|]. split.
  - apply (NoDup_listed (map_to_list (storage.data m))).
    apply NoDup_fst_map_to_list.
  - intros tag. change (tag ∈ omap listed (map_to_list (storage.data m))
                        <-> tag <> "" /\ Ok (bool_decide (is_Some
                              (storage.data m !! storage.BuildKey "" tag)))
                            = Ok true).
    rewrite list_elem_of_omap. split.
    + intros ([key b] & Hin%elem_of_map_to_list & [Hne Hkey]%listed_Some).
      simpl in Hkey. subst key. split; [done|].
      rewrite bool_decide_eq_true_2; [done|]. by exists b.
    + intros [Hne Hex]. injection Hex as Hex.
      apply bool_decide_eq_true in Hex as [b Hb].
      exists (storage.BuildKey "" tag, b). split.
      * by apply elem_of_map_to_list.
      * by apply listed_Some.
Qed.

Lemma mock_List_Exists_witness :
  exists tags,
    storage.mockList store1 = Ok tags
    /\ NoDup tags
    /\ forall tag, tag ∈ tags
                   <-> tag <> "" /\ storage.mockExists store1 tag = Ok true.
Proof. apply (mock_List_Exists store1). reflexivity. Defined.

Example mockList_store1 :
  storage.mockList store1 = Ok ["v1"; "v2"]
  /\ storage.mockDownload store1 "" = Ok (bytes_of_string "A=0").
Proof. split; vm_compute; reflexivity. Qed.

(** ** What Create needs *)

Lemma writeFiles_app `{tar.Container} fs files1 files2 tw :
  archive.writeFiles fs (files1 ++ files2) tw
  = archive.writeFiles fs files1 tw ≫= archive.writeFiles fs files2.
Proof.
  revert tw. induction files1 as [|file files1 IH]; intros tw; [done|].
  cbn [app archive.writeFiles].
  destruct (orWrap _ (os.ReadFile fs file)) as [data| |]; try done. simpl.
  destruct (orWrap _ (os.Stat fs file)) as [info| |]; try done. simpl.
  destruct (orWrap _ (tar.WriteHeader _ _)) as [tw1| |]; try done. simpl.
  destruct (orWrap _ (tar.Write _ _)) as [tw2| |]; try done. simpl.
  apply IH.
Qed.

Lemma writeFiles_Ok_inv `{tar.Container} fs files tw tw' :
  archive.writeFiles fs files tw = Ok tw' ->
  Forall (fun file => is_Ok (os.ReadFile fs file) = true) files.
Proof.
  revert tw. induction files as [|file files IH]; intros tw; [done|].
  cbn [archive.writeFiles].
  destruct (os.ReadFile fs file) as [data| |] eqn:Hread; try done. simpl.
  destruct (orWrap _ (os.Stat fs file)) as [info| |]; try done. simpl.
  destruct (orWrap _ (tar.WriteHeader _ _)) as [tw1| |]; try done. simpl.
  destruct (orWrap _ (tar.Write _ _)) as [tw2| |]; try done. simpl.
  intros Hrest. constructor; [by rewrite Hread|]. by eapply IH.
Qed.

Lemma Create_Ok `{tar.Container} fs files :
  Forall (fun file => is_Ok (os.ReadFile fs file) = true) files ->
  archive.Create fs files
  = Ok (tar.gzip (tar.serialize (map (recordOf fs) files))).
Proof.
  intros Hall.
  destruct (writeFiles_records fs files tar.NewWriter I Hall)
    as (tw & Hw & Hc & Hrec).
  unfold archive.Create. rewrite Hw. simpl.
  unfold tar.Close. rewrite Flush_complete by done. simpl.
  by rewrite Hrec.
Qed.

Lemma Create_Ok_inv `{tar.Container} fs files blob :
  archive.Create fs files = Ok blob ->
  Forall (fun file => is_Ok (os.ReadFile fs file) = true) files
  /\ blob = tar.gzip (tar.serialize (map (recordOf fs) files)).
Proof.
  intros Hc.
  assert (Hall : Forall (fun file => is_Ok (os.ReadFile fs file) = true) files).
  { unfold archive.Create in Hc.
    destruct (archive.writeFiles fs files tar.NewWriter) as [tw| |] eqn:Hw;
      try discriminate.
    by eapply writeFiles_Ok_inv. }
  split; [done|]. rewrite Create_Ok in Hc by done. by injection Hc.
Qed.

Lemma Extract_records `{tar.ContainerLaws} rs :
  Forall tar.wf rs ->
  archive.Extract (tar.gzip (tar.serialize rs)) = Ok (map entryOf rs).
Proof.
  intros Hwf. unfold archive.Extract. rewrite tar.gunzip_gzip. simpl.
  rewrite tar.parse_serialize by done. simpl.
  by rewrite readEntries_entries.
Qed.

Lemma recordsOf_wf fs files :
  Forall (fun file => is_Ok (os.ReadFile fs file) = true) files ->
  Forall tar.wf (map (recordOf fs) files).
Proof.
  intros Hall. apply Forall_fmap. eapply Forall_impl; [done|].
  apply recordOf_wf.
Qed.

Lemma Path_entryOf_recordOf fs file :
  archive.Path (entryOf (recordOf fs file)) = file.
Proof.
  unfold recordOf.
  by destruct (os.ReadFile fs file), (os.Stat fs file).
Qed.

(** Property X17. [Create] returns an archive exactly when every path of
    the list can be read; the container format plays no part in that. *)
Theorem Create_readable `{tar.Container} (fs : os.FS) (files : list string) :
  is_Ok (archive.Create fs files) = true
  <-> Forall (fun file => is_Ok (os.ReadFile fs file) = true) files.
Proof.
  split.
  - destruct (archive.Create fs files) as [blob| |] eqn:Hc; try done.
    intros _. by apply Create_Ok_inv in Hc as [? _].
  - intros Hall. by rewrite Create_Ok.
Qed.

(** Property X18. When a path of the list cannot be read and the paths
    before it can, [Create] returns no archive but the error
    [failed to read file <path>: <cause>] for that first path, whatever
    follows it in the list. *)
Theorem Create_first_unreadable `{tar.Container} (fs : os.FS)
    (before rest : list string) (file e : string) :
  Forall (fun file => is_Ok (os.ReadFile fs file) = true) before ->
  os.ReadFile fs file = Err e ->
  archive.Create fs (before ++ file :: rest)
  = Err (wrap ("failed to read file " +:+ file) e).
Proof.
  intros Hall Hread.
  destruct (writeFiles_records fs before tar.NewWriter I Hall)
    as (tw & Hw & _).
  unfold archive.Create. rewrite writeFiles_app, Hw. simpl.
  by rewrite Hread.
Qed.

Lemma Create_first_unreadable_witness :
  archive.Create fs0 ([".env"] ++ "missing" :: ["b.json"])
  = Err (wrap ("failed to read file " +:+ "missing")
              "open missing: no such file or directory").
Proof.
  apply (Create_first_unreadable fs0 [".env"] ["b.json"] "missing"
           "open missing: no such file or directory");
    [repeat constructor | reflexivity].
Defined.

Section ArchiveMore.
Context `{tar.ContainerLaws}.

(** Property X19. [ListFiles] of an archive [Create] returned for a list
    of paths is that list: the same paths, in the same order, a path
    given twice listed twice. *)
Theorem ListFiles_Create (fs : os.FS) (files : list string) (blob : bytes) :
  archive.Create fs files = Ok blob ->
  archive.ListFiles blob = Ok files.
Proof.
  intros [Hall ->]%Create_Ok_inv. unfold archive.ListFiles.
  rewrite Extract_records by by apply recordsOf_wf. simpl.
  f_equal. rewrite <- !list_fmap_compose.
  rewrite <- (list_fmap_id files) at 2. apply list_fmap_ext.
  intros i file _. apply Path_entryOf_recordOf.
Qed.
End ArchiveMore.

Lemma ListFiles_Create_witness :
  archive.ListFiles archive1 = Ok threeFiles.
Proof.
  apply (ListFiles_Create (H0 := numbered_laws) fs1 threeFiles archive1).
  by vm_compute.
Defined.

(** ** What ExtractToFiles leaves *)

Section Entries.
Context `{tar.Container}.

Lemma writeEntries_app sys fs entries1 entries2 :
  archive.writeEntries sys fs (entries1 ++ entries2)
  = match archive.writeEntries sys fs entries1 with
    | (Ok _, fs1) => archive.writeEntries sys fs1 entries2
    | r => r
    end.
Proof.
  revert fs. induction entries1 as [|e entries1 IH]; intros fs; [done|].
  cbn [app archive.writeEntries].
  destruct (if negb _ && negb _ then _ else _) as [[]| |]; try done.
  destruct (os.WriteFile sys fs _ _ _) as [[[]| |] fs1]; done.
Qed.

(** An entry that cannot be written changes nothing, or leaves its
    file with the first bytes of its data. *)
Lemma writeEntries_failed_step sys fs entry msg fs' :
  archive.writeEntries sys fs [entry] = (Err msg, fs') ->
  fs' = fs
  \/ exists f n, fs' = <[archive.Path entry := f]> fs
                 /\ os.contents f = take n (archive.Data entry).
Proof.
  cbn [archive.writeEntries].
  destruct (if negb _ && negb _ then _ else _) as [[]| |];
    [|left; congruence..].
  destruct (os.WriteFile sys fs _ _ _) as [[[]| |] fs1] eqn:Hw;
    [congruence| |congruence].
  intros [= _ <-]. by apply WriteFile_failed in Hw.
Qed.

(** After the loop, a path holds the data of the entries written to it,
    when they agree on it. *)
Lemma writeEntries_contents sys fs entries fs' path content :
  archive.writeEntries sys fs entries = (Ok (), fs') ->
  (forall entry, entry ∈ entries -> archive.Path entry = path ->
                 archive.Data entry = content) ->
  (exists f, fs !! path = Some f /\ os.contents f = content)
  \/ (exists entry, entry ∈ entries /\ archive.Path entry = path) ->
  exists f, fs' !! path = Some f /\ os.contents f = content.
Proof.
  revert fs. induction entries as [|e entries IH]; intros fs Hw Hsame Hcase.
  - injection Hw as <-. destruct Hcase as [?|(? & []%elem_of_nil & _)]. done.
  - cbn [archive.writeEntries] in Hw.
    destruct (if negb _ && negb _ then _ else _) as [[]| |];
      try discriminate.
    destruct (os.WriteFile sys fs _ _ _) as [[[]| |] fs1] eqn:Hwf;
      try discriminate.
    destruct (WriteFile_Ok_inv _ _ _ _ _ _ Hwf) as [Hnul Hopen].
    destruct (WriteFile_Ok sys fs (archive.Path e) (archive.Data e)
                (archive.Mode e) Hnul Hopen) as (f & Hwf' & Hc & _).
    rewrite Hwf in Hwf'. injection Hwf' as ->.
    apply (IH _ Hw).
    + intros entry Hin. apply Hsame. by right.
    + destruct (decide (archive.Path e = path)) as [Hp|Hp].
      * left. exists f. rewrite Hp, lookup_insert_eq. split; [done|].
        rewrite Hc. apply Hsame; [by left|done].
      * destruct Hcase as [(g & Hg & Hgc)|(entry & Hin & Hpath)].
        -- left. exists g. by rewrite lookup_insert_ne.
        -- right. exists entry. split; [|done].
           apply elem_of_cons in Hin as [->|Hin]; [done|done].
Qed.

(** Property X20. [ExtractToFiles] does not roll back: when the entries
    [written] of the archive have been written and the next one fails,
    at its directory or at its file, the call returns that error. Every
    other path of the file map then holds what it held after [written];
    the path of the failing entry is as it was or, when the write fails
    after the open, holds a file with the first bytes of the entry. The
    entries behind the failing one are not written. *)
Theorem ExtractToFiles_partial (sys : os.Sys) (fs fs1 fs2 : os.FS)
    (blob : bytes) (written rest : list archive.FileEntry)
    (entry : archive.FileEntry) (msg : string) :
  archive.Extract blob = Ok (written ++ entry :: rest) ->
  archive.writeEntries sys fs written = (Ok (), fs1) ->
  archive.writeEntries sys fs1 [entry] = (Err msg, fs2) ->
  archive.ExtractToFiles sys fs blob = (Err msg, fs2)
  /\ (forall path, path <> archive.Path entry -> fs2 !! path = fs1 !! path)
  /\ (fs2 !! archive.Path entry = fs1 !! archive.Path entry
      \/ exists f n, fs2 !! archive.Path entry = Some f
                     /\ os.contents f = take n (archive.Data entry)).
Proof.
  intros Hex Hw Hstep. split_and!.
  - unfold archive.ExtractToFiles. rewrite Hex.
    rewrite writeEntries_app, Hw.
    change (entry :: rest) with ([entry] ++ rest).
    by rewrite writeEntries_app, Hstep.
  - intros path Hpath.
    destruct (writeEntries_failed_step _ _ _ _ _ Hstep)
      as [->|(f & n & -> & _)]; [done|].
    by rewrite lookup_insert_ne.
  - destruct (writeEntries_failed_step _ _ _ _ _ Hstep)
      as [->|(f & n & -> & Hf)]; [by left|].
    right. exists f, n. by rewrite lookup_insert_eq.
Qed.
End Entries.

Lemma ExtractToFiles_partial_witness :
  archive.ExtractToFiles sysFull ∅ archive1
  = (Err "failed to write file b.json: write b.json: no space left on device",
     {[ ".env" := file "A=1" 384; ".env.local" := file "A=2" 384;
        "b.json" := file "{" 420 ]})
  /\ (forall path, path <> "b.json" ->
        ({[ ".env" := file "A=1" 384; ".env.local" := file "A=2" 384;
            "b.json" := file "{" 420 ]} : os.FS) !! path
        = ({[ ".env" := file "A=1" 384; ".env.local" := file "A=2" 384 ]}
             : os.FS) !! path).
Proof.
  destruct (ExtractToFiles_partial sysFull ∅
           {[ ".env" := file "A=1" 384; ".env.local" := file "A=2" 384 ]}
           {[ ".env" := file "A=1" 384; ".env.local" := file "A=2" 384;
              "b.json" := file "{" 420 ]}
           archive1
           [ {| archive.Path := ".env";
                archive.Data := bytes_of_string "A=1";
                archive.Mode := 384 |};
             {| archive.Path := ".env.local";
                archive.Data := bytes_of_string "A=2";
                archive.Mode := 384 |} ]
           []
           {| archive.Path := "b.json";
              archive.Data := bytes_of_string "{}";
              archive.Mode := 420 |}
           "failed to write file b.json: write b.json: no space left on device")
    as (Hcall & Hother & _); [by vm_compute..|].
  by split.
Defined.

(** ** The files push loads *)


Lemma loadEnvFiles_Ok_inv `{tar.Container} cfg fs data :
  cli.loadEnvFiles cfg fs = Ok data ->
  (exists file, config.GetEnvFiles cfg = [file]
                /\ os.ReadFile fs file = Ok data)
  \/ (length (config.GetEnvFiles cfg) <> 1
      /\ archive.Create fs (config.GetEnvFiles cfg) = Ok data).
Proof.
  unfold cli.loadEnvFiles. cbv zeta.
  destruct (list_find _ _) as [[i file]|]; [discriminate|].
  destruct (Nat.eqb_spec (length (config.GetEnvFiles cfg)) 1) as [Hone|Hne].
  - destruct (config.GetEnvFiles cfg) as [|file [|? ?]]; try discriminate.
    simpl. destruct (os.ReadFile fs file) as [d| |] eqn:Hr; try discriminate.
    intros [= <-]. left. by exists file.
  - destruct (archive.Create fs _) as [d| |] eqn:Hc; try discriminate.
    intros [= <-]. by right.
Qed.





Section LoadFacts.
Context `{tar.Container}.

End LoadFacts.

(** ** The differ, key by key *)

Lemma diffEnvMaps_lookup (oldMap newMap : gmap string string) (key : string) :
  ((cli.diffEnvMaps oldMap newMap).1.1 !! key,
   (cli.diffEnvMaps oldMap newMap).1.2 !! key,
   (cli.diffEnvMaps oldMap newMap).2 !! key)
  = match oldMap !! key, newMap !! key with
    | Some o, Some n =>
        if decide (o = n) then (None, None, None)
        else (None, None, Some (o +:+ " -> " +:+ n))
    | Some o, None => (None, Some o, None)
    | None, Some n => (Some n, None, None)
    | None, None => (None, None, None)
    end.
Proof.
  assert (H1 : map_to_list newMap ≡ₚ map_to_list newMap) by done.
  assert (H2 : map_to_list oldMap ≡ₚ map_to_list oldMap) by done.
  apply list_to_map_perm in H1 as [Hnd1 Hm1], H2 as [Hnd2 Hm2].
  unfold cli.diffEnvMaps, cli.diffEnvMapsIn.
  pose proof (diff_first_loop oldMap (map_to_list newMap) ∅ ∅ key Hnd1)
    as Hfirst.
  pose proof (diff_second_loop newMap (map_to_list oldMap) ∅ key Hnd2)
    as Hsecond.
  destruct (foldl _ (∅, ∅) (map_to_list newMap)) as [a c].
  simpl in *. destruct Hfirst as [-> ->]. rewrite Hsecond.
  rewrite Hm1, Hm2, !lookup_empty.
  destruct (oldMap !! key) as [o|], (newMap !! key) as [n|]; try done.
  by case_decide.
Qed.

Lemma diffEnvMaps_same (m : gmap string string) :
  cli.diffEnvMaps m m = (∅, ∅, ∅).
Proof.
  destruct (cli.diffEnvMaps m m) as [[a r] c] eqn:Hd.
  assert (Hk : forall key, a !! key = None /\ r !! key = None
                           /\ c !! key = None).
  { intros key. pose proof (diffEnvMaps_lookup m m key) as Hl.
    rewrite Hd in Hl. simpl in Hl.
    destruct (m !! key) as [o|]; [rewrite decide_True in Hl by done|];
      by injection Hl as -> -> ->. }
  f_equal; [f_equal|]; apply map_eq; intros key; rewrite lookup_empty;
    apply Hk.
Qed.

(** Property X22. [diffEnvMaps] returns three empty maps, which is when
    [diff] prints that there are no differences, exactly when the two
    maps are equal. *)
Theorem diffEnvMaps_no_differences (oldMap newMap : gmap string string) :
  cli.diffEnvMaps oldMap newMap = (∅, ∅, ∅) <-> oldMap = newMap.
Proof.
  split; [|intros ->; apply diffEnvMaps_same].
  intros Hd. apply map_eq. intros key.
  pose proof (diffEnvMaps_lookup oldMap newMap key) as Hl.
  rewrite Hd in Hl. simpl in Hl. rewrite !lookup_empty in Hl.
  destruct (oldMap !! key) as [o|], (newMap !! key) as [n|]; try done.
  case_decide; [by subst|done].
Qed.

(** Property X23. Comparing the two maps the other way round swaps
    [added] and [removed], and marks the same keys as changed. *)
Theorem diffEnvMaps_swap (oldMap newMap added removed changed
                          : gmap string string) :
  cli.diffEnvMaps oldMap newMap = (added, removed, changed) ->
  exists changed',
    cli.diffEnvMaps newMap oldMap = (removed, added, changed')
    /\ forall key, is_Some (changed' !! key) <-> is_Some (changed !! key).
Proof.
  intros Hd.
  destruct (cli.diffEnvMaps newMap oldMap) as [[a' r'] c'] eqn:Hd'.
  assert (Hk : forall key,
             a' !! key = removed !! key /\ r' !! key = added !! key
             /\ (is_Some (c' !! key) <-> is_Some (changed !! key))).
  { intros key.
    pose proof (diffEnvMaps_lookup oldMap newMap key) as Hl.
    pose proof (diffEnvMaps_lookup newMap oldMap key) as Hl'.
    rewrite Hd in Hl. rewrite Hd' in Hl'. simpl in Hl, Hl'.
    destruct (oldMap !! key) as [o|], (newMap !! key) as [n|];
      repeat case_decide; try congruence;
      injection Hl as Ha Hr Hc; injection Hl' as Ha' Hr' Hc';
      rewrite Ha, Hr, Hc, Ha', Hr', Hc'; split_and!; try done;
      split; intros _; eauto. }
  exists c'. split; [|intros key; apply Hk].
  f_equal. f_equal; apply map_eq; intros key; apply Hk.
Qed.

Lemma diffEnvMaps_swap_witness :
  exists changed',
    cli.diffEnvMaps newEnv oldEnv = ({[ "A" := "1" ]}, {[ "C" := "3" ]}, changed')
    /\ forall key, is_Some (changed' !! key)
                   <-> is_Some ((∅ : gmap string string) !! key).
Proof.
  apply (diffEnvMaps_swap oldEnv newEnv {[ "C" := "3" ]} {[ "A" := "1" ]} ∅).
  by vm_compute.
Defined.

(** ** Trimmed names and values *)

Lemma trim_trimmed s : trimmed s -> trim s = s.
Proof.
  intros [Hl Hr]. unfold trim.
  rewrite <- (app_nil_l s) at 1. rewrite trimLeft_run by (done || constructor).
  rewrite <- (app_nil_r s) at 1.
  by rewrite trimRight_run by (done || constructor).
Qed.

(** What [TrimSpace] removes is white space, and what it leaves has none
    at either end. *)
Lemma trim_split s :
  exists L R, run strings.spaces L /\ run strings.spaces R
              /\ s = L ++ trim s ++ R /\ trimmed (trim s).
Proof.
  destruct (trimLeft_split s) as (L & HL & Hs & Hcut).
  destruct (trimRight_split (strings.trimLeft s)) as (R & HR & Hs' & Hrcut).
  exists L, R. fold (trim s) in Hs', Hrcut. split_and!; try done.
  - by rewrite <- Hs', <- Hs.
  - destruct (strings.cutAny strings.spaces (trim s)) as [r|] eqn:Hc; [|done].
    apply cutAny_Some in Hc as (p & Hp & Hw).
    rewrite Hs', Hw, <- app_assoc in Hcut.
    rewrite (cutAny_char _ spaces_prefix_free) in Hcut by done. done.
Qed.

Lemma trim_idemp s : trim (trim s) = trim s.
Proof.
  destruct (trim_split s) as (L & R & _ & _ & _ & Ht). by apply trim_trimmed.
Qed.

Lemma trimmed_trim s : trim s = s -> trimmed s.
Proof.
  intros Heq. destruct (trim_split s) as (L & R & _ & _ & _ & Ht).
  by rewrite Heq in Ht.
Qed.

Lemma TrimSpace_trim s :
  bytes_of_string (strings.TrimSpace s) = trim (bytes_of_string s).
Proof. unfold strings.TrimSpace. by rewrite bytes_of_string_of_bytes. Qed.

Lemma TrimSpace_idemp s :
  strings.TrimSpace (strings.TrimSpace s) = strings.TrimSpace s.
Proof.
  apply bytes_of_string_inj. by rewrite !TrimSpace_trim, trim_idemp.
Qed.

Lemma TrimSpace_trimmed s :
  strings.TrimSpace s = s <-> trimmed (bytes_of_string s).
Proof.
  split.
  - intros Heq. apply trimmed_trim. by rewrite <- TrimSpace_trim, Heq.
  - intros Ht. apply bytes_of_string_inj.
    rewrite TrimSpace_trim. by apply trim_trimmed.
Qed.

Lemma trim_no_byte c s : c ∉ s -> c ∉ trim s.
Proof.
  destruct (trim_split s) as (L & R & _ & _ & Hs & _). intros Hc Hin.
  apply Hc. rewrite Hs. apply elem_of_app. right. apply elem_of_app. by left.
Qed.

(** ** What the parser returns *)

Lemma lineEntry_clean text name value :
  lineEntry text = Some (name, value) ->
  strings.TrimSpace name = name /\ strings.TrimSpace value = value
  /\ "="%char ∉ bytes_of_string name.
Proof.
  unfold lineEntry.
  destruct (String.eqb _ "" || strings.HasPrefix _ "#"); [discriminate|].
  destruct (strings.cut "=" text) as [[n v]|] eqn:Hcut; [|discriminate].
  intros [= <- <-]. apply cut_first in Hcut as [_ Hn].
  split_and!; [apply TrimSpace_idemp..|].
  rewrite TrimSpace_trim. by apply trim_no_byte.
Qed.

Lemma envOfLines_clean lines envMap name value :
  (forall name value, envMap !! name = Some value ->
     strings.TrimSpace name = name /\ strings.TrimSpace value = value
     /\ "="%char ∉ bytes_of_string name) ->
  foldl insertEntry envMap lines !! name = Some value ->
  strings.TrimSpace name = name /\ strings.TrimSpace value = value
  /\ "="%char ∉ bytes_of_string name.
Proof.
  revert envMap. induction lines as [|text lines IH]; intros envMap Hinv.
  - apply Hinv.
  - simpl. apply IH. intros n v. unfold insertEntry.
    destruct (lineEntry text) as [[n' v']|] eqn:Hl; [|apply Hinv].
    destruct (decide (n = n')) as [->|Hne].
    + rewrite lookup_insert_eq. intros [= <-]. by eapply lineEntry_clean.
    + rewrite lookup_insert_ne by done. apply Hinv.
Qed.

(** A map is returned only when every line fits the scanner. *)
Lemma parseEnvFile_Ok_inv data envMap :
  cli.parseEnvFile data = Ok envMap ->
  Forall (fun raw => length raw < bufio.MaxScanTokenSize) (bufio.rawLines data)
  /\ envMap = envOfLines (linesOf data).
Proof.
  intros Hp.
  assert (Hshort : Forall (fun raw => length raw < bufio.MaxScanTokenSize)
                          (bufio.rawLines data)).
  { apply Forall_forall. intros raw Hin.
    destruct (Nat.lt_ge_cases (length raw) bufio.MaxScanTokenSize) as [|Hl];
      [done|].
    unfold cli.parseEnvFile in Hp. rewrite scanLoop_long in Hp; [done|].
    apply Exists_exists. by exists raw. }
  split; [done|]. unfold cli.parseEnvFile in Hp.
  rewrite scanLoop_short in Hp by done. by injection Hp.
Qed.

(** Property X24. In a map [parseEnvFile] returns, no name and no value
    has white space at either end (trimming them again changes nothing),
    and no name holds an [=]; the empty name is possible. *)
Theorem parseEnvFile_trimmed (data : bytes) (envMap : gmap string string)
    (name value : string) :
  cli.parseEnvFile data = Ok envMap ->
  envMap !! name = Some value ->
  strings.TrimSpace name = name /\ strings.TrimSpace value = value
  /\ "="%char ∉ bytes_of_string name.
Proof.
  intros [_ ->]%parseEnvFile_Ok_inv. apply envOfLines_clean.
  intros n v. by rewrite lookup_empty.
Qed.

Lemma parseEnvFile_trimmed_witness :
  strings.TrimSpace "B" = "B" /\ strings.TrimSpace "2=3" = "2=3"
  /\ "="%char ∉ bytes_of_string "B".
Proof.
  apply (parseEnvFile_trimmed envText {[ "A" := "1"; "B" := "2=3" ]}
           "B" "2=3");
    by vm_compute.
Defined.

(** ** Formatting and parsing back *)

Lemma cutAny_app_byte ps a c b :
  Forall (fun p : bytes => c ∉ p) ps ->
  strings.cutAny ps a = None ->
  strings.cutAny ps (a ++ c :: b) = None.
Proof.
  intros Hc Ha. apply cutAny_None. apply cutAny_None in Ha.
  rewrite Forall_forall in Ha, Hc |- *. intros p Hp Hpre.
  destruct (prefix_weak_total p a (a ++ c :: b)) as [Hpa|[b' ->]];
    [done|by exists (c :: b)|by apply (Ha p Hp)|].
  apply prefix_app_inv in Hpre. destruct b' as [|c' b'].
  - rewrite app_nil_r in Hp. by apply (Ha a Hp).
  - assert (c' = c) as -> by (destruct Hpre as [k Hk]; by injection Hk).
    apply (Hc _ Hp). apply elem_of_app. right. by left.
Qed.

Lemma rspaces_no_equals : Forall (fun p : bytes => "="%char ∉ p) rspaces.
Proof.
  apply Forall_fmap. eapply Forall_impl; [apply spaces_no_equals|].
  intros p Hp. simpl. by rewrite elem_of_reverse.
Qed.

(** A line [name=value] of trimmed parts has no white space at either
    end. *)
Lemma trimmed_entry k v :
  "="%char ∉ k -> trimmed k -> trimmed v -> trimmed (k ++ "="%char :: v).
Proof.
  intros Hk [Hkl Hkr] [Hvl Hvr]. split.
  - by apply cutAny_app_byte; [apply spaces_no_equals|].
  - rewrite reverse_app, reverse_cons, <- app_assoc.
    by apply (cutAny_app_byte rspaces (reverse v) "=" (reverse k));
      [apply rspaces_no_equals|].
Qed.

Lemma dropCR_trimmed l : trimmed l -> bufio.dropCR l = l.
Proof.
  intros [_ Hr]. unfold bufio.dropCR.
  destruct (reverse l) as [|c r] eqn:Hrev; [done|].
  destruct (Ascii.eqb_spec c "013"); [|done]. subst c.
  apply cutAny_None in Hr. rewrite Forall_forall in Hr.
  exfalso. apply (Hr ["013"%char]).
  - apply (bool_decide_unpack _). vm_compute. done.
  - by exists r.
Qed.

Lemma lineEntry_formatted k v :
  cleanEntry (k, v) -> lineEntry (k +:+ "=" +:+ v) = Some (k, v).
Proof.
  intros (Hk & Hv & Heq & _ & _ & Hhash & _). simpl in *.
  assert (Ht : trimmed (bytes_of_string (k +:+ "=" +:+ v))).
  { rewrite !bytes_of_string_app. simpl.
    apply trimmed_entry; [done|by apply TrimSpace_trimmed..]. }
  unfold lineEntry. rewrite (proj2 (TrimSpace_trimmed _) Ht).
  replace (String.eqb (k +:+ "=" +:+ v) "") with false
    by (by destruct k).
  replace (strings.HasPrefix (k +:+ "=" +:+ v) "#") with false.
  2:{ destruct k as [|a k]; [done|]. unfold strings.HasPrefix in *.
      change (String a k +:+ "=" +:+ v) with (String a (k +:+ "=" +:+ v)).
      cbn -[ascii_dec] in Hhash |- *.
      destruct (ascii_dec "#" a); [by destruct k|done]. }
  simpl. unfold strings.cut.
  rewrite !bytes_of_string_app. simpl.
  rewrite (proj2 (cutBytes_Some "=" (bytes_of_string k ++ "="%char
                                     :: bytes_of_string v)
                    (bytes_of_string k) (bytes_of_string v)))
    by done.
  by rewrite !string_of_bytes_of_string, Hk, Hv.
Qed.

Lemma rawLines_line l rest :
  "010"%char ∉ l ->
  bufio.rawLines (l ++ "010"%char :: rest) = l :: bufio.rawLines rest.
Proof.
  induction l as [|c l IH]; intros Hnl; [done|].
  apply not_elem_of_cons in Hnl as [Hc Hl]. cbn [app bufio.rawLines].
  destruct (Ascii.eqb_spec c "010"); [done|]. by rewrite IH.
Qed.

Lemma rawLines_Join (lines : list string) :
  lines <> [] ->
  Forall (fun l => "010"%char ∉ bytes_of_string l) lines ->
  bufio.rawLines
    (bytes_of_string (strings.Join lines (String "010" EmptyString)
                      +:+ String "010" EmptyString))
  = map bytes_of_string lines.
Proof.
  intros Hne Hall. induction Hall as [|l lines Hl Hall IH]; [done|].
  destruct lines as [|l' lines].
  - cbn [strings.Join]. rewrite bytes_of_string_app. simpl.
    by rewrite rawLines_line.
  - cbn [strings.Join] in *. rewrite !string_app_assoc.
    rewrite bytes_of_string_app. cbn [map].
    change (bytes_of_string (String "010" EmptyString +:+ ?s))
      with ("010"%char :: bytes_of_string s).
    rewrite rawLines_line by done. f_equal. by apply IH.
Qed.

Lemma foldl_insertEntry_formatted (order : list (string * string)) envMap :
  Forall cleanEntry order ->
  foldl insertEntry envMap (map (fun kv => kv.1 +:+ "=" +:+ kv.2) order)
  = cli.rangeInsert order envMap.
Proof.
  intros Hall. unfold cli.rangeInsert. revert envMap.
  induction Hall as [|[k v] order Hkv _ IH]; intros envMap; [done|].
  cbn [map foldl fst snd]. rewrite <- IH. f_equal.
  unfold insertEntry. by rewrite (lineEntry_formatted k v).
Qed.

(** Property X25. [parseEnvFile] reads back what [formatEnvFile] writes:
    for a map of clean entries ([cleanEntry]), written in whatever order
    the map is ranged over, the result is the map itself; the empty map
    is written as one empty line and read back as the empty map. *)
Theorem parseEnvFile_formatEnvFile (envMap : gmap string string)
    (order : list (string * string)) :
  order ≡ₚ map_to_list envMap ->
  Forall cleanEntry order ->
  cli.parseEnvFile (bytes_of_string (cli.formatEnvFileIn order)) = Ok envMap
  /\ (order = map_to_list envMap ->
      cli.parseEnvFile (bytes_of_string (cli.formatEnvFile envMap))
      = Ok envMap).
Proof.
  intros Hperm Hall.
  assert (Hin : cli.parseEnvFile (bytes_of_string (cli.formatEnvFileIn order))
                = Ok envMap).
  2:{ split; [done|]. intros Horder. unfold cli.formatEnvFile.
      by rewrite <- Horder. }
  unfold cli.formatEnvFileIn, cli.parseEnvFile.
  destruct order as [|kv order].
  { apply Permutation_nil_l in Hperm. symmetry in Hperm.
    apply map_to_list_empty_iff in Hperm. by subst envMap. }
  set (lines := map (fun kv => kv.1 +:+ "=" +:+ kv.2) (kv :: order)).
  assert (Hnl : Forall (fun l => "010"%char ∉ bytes_of_string l) lines).
  { apply Forall_fmap. eapply Forall_impl; [done|].
    intros [k v] (_ & _ & _ & Hk & Hv & _). simpl in *.
    rewrite !bytes_of_string_app. simpl.
    rewrite elem_of_app, elem_of_cons. intros [?|[?|?]]; done. }
  rewrite rawLines_Join by done.
  rewrite scanLoop_short.
  - f_equal. rewrite <- list_fmap_compose.
    assert (Hlines : (fun raw => string_of_bytes (bufio.dropCR raw))
                       ∘ bytes_of_string <$> lines = lines).
    { rewrite <- (list_fmap_id lines) at 2. apply Forall_fmap_ext.
      apply Forall_fmap. eapply Forall_impl; [done|].
      intros [k v] (Hk & Hv & Heq & _). simpl in *.
      rewrite dropCR_trimmed; [apply string_of_bytes_of_string|].
      rewrite !bytes_of_string_app. simpl.
      apply trimmed_entry; [done|by apply TrimSpace_trimmed..]. }
    rewrite Hlines. unfold lines.
    rewrite foldl_insertEntry_formatted by done.
    rewrite (rangeInsert_union _ envMap) by done.
    by rewrite (right_id_L ∅ (∪)).
  - apply Forall_fmap, Forall_fmap. eapply Forall_impl; [done|].
    intros [k v] (_ & _ & _ & _ & _ & _ & Hlen). simpl in *.
    rewrite !bytes_of_string_app, length_app. simpl.
    rewrite !bytes_of_string_length. lia.
Qed.

Lemma parseEnvFile_formatEnvFile_witness :
  cli.parseEnvFile
    (bytes_of_string (cli.formatEnvFileIn [("B", "2"); ("A", "x=1")]))
  = Ok {[ "A" := "x=1"; "B" := "2" ]}
  /\ ([("B", "2"); ("A", "x=1")] = map_to_list {[ "A" := "x=1"; "B" := "2" ]} ->
      cli.parseEnvFile
        (bytes_of_string (cli.formatEnvFile {[ "A" := "x=1"; "B" := "2" ]}))
      = Ok {[ "A" := "x=1"; "B" := "2" ]}).
Proof.
  apply (parseEnvFile_formatEnvFile {[ "A" := "x=1"; "B" := "2" ]}
           [("B", "2"); ("A", "x=1")]).
  - vm_compute. apply perm_swap.
  - apply Forall_cons. split; [|apply Forall_cons; split; [|constructor]].
    + unfold cleanEntry. split_and!.
      * by vm_compute.
      * by vm_compute.
      * apply (bool_decide_unpack _). by vm_compute.
      * apply (bool_decide_unpack _). by vm_compute.
      * apply (bool_decide_unpack _). by vm_compute.
      * by vm_compute.
      * apply Nat.ltb_lt. by vm_compute.
    + unfold cleanEntry. split_and!;
        [by vm_compute | by vm_compute
        | apply (bool_decide_unpack _); by vm_compute
        | apply (bool_decide_unpack _); by vm_compute
        | apply (bool_decide_unpack _); by vm_compute
        | by vm_compute
        | apply Nat.ltb_lt; by vm_compute].
Defined.

(** ** Versions from Git *)

(** Property X26. Whatever the Git commands print, a version
    [GetCurrentVersion] returns, tag or branch, has no white space at
    either end: trimming it again changes nothing. *)
Theorem GetCurrentVersion_trimmed (r : git.Repo) (version : string) :
  git.GetCurrentVersion r = Ok version ->
  strings.TrimSpace version = version.
Proof.
  assert (Hbranch : orWrap "failed to determine current version"
                           (git.GetCurrentBranch r) = Ok version ->
                    strings.TrimSpace version = version).
  { unfold git.GetCurrentBranch.
    destruct (git.abbrevRef r) as [output| |]; try discriminate.
    simpl. destruct (String.eqb _ "HEAD"); [discriminate|].
    intros [= <-]. apply TrimSpace_idemp. }
  unfold git.GetCurrentVersion, git.GetCurrentTag.
  destruct (git.describeExact r) as [output| |].
  - destruct (negb _); [|done]. intros [= <-]. apply TrimSpace_idemp.
  - destruct (git.describeNearest r) as [output| |]; try done.
    destruct (negb _); [|done]. intros [= <-]. apply TrimSpace_idemp.
  - destruct (git.describeNearest r) as [output| |]; try done.
    destruct (negb _); [|done]. intros [= <-]. apply TrimSpace_idemp.
Qed.

Lemma GetCurrentVersion_trimmed_witness :
  strings.TrimSpace "v1.2.0" = "v1.2.0".
Proof.
  apply (GetCurrentVersion_trimmed detached "v1.2.0"). by vm_compute.
Defined.

(** ** Push, pull and diff against a store *)

Lemma storageNew_valid {S} (cfg : config.Config) (newErr : option string)
    (store : S) :
  config.Validate cfg = None ->
  cli.storageNew cfg newErr store
  = match newErr with Some e => Err e | None => Ok store end.
Proof.
  unfold config.Validate, cli.storageNew.
  destruct (String.eqb _ config.StorageTypeS3); [done|].
  destruct (String.eqb _ config.StorageTypeAzure); [done|].
  destruct (String.eqb _ config.StorageTypeGCS); [done|]. done.
Qed.

Section PushMore.
Context `{tar.Container} {S : Type} `{storage.Storage S}.

(** A push that succeeds has loaded the files, prepared the data and
    uploaded it under the tag. *)
Lemma runPush_Ok_inv cfg tagFlag git fs rng newErr (store store' : S) :
  cli.runPush cfg tagFlag git fs rng newErr store = (Ok (), store') ->
  exists tag data blob rest,
    config.Validate cfg = None
    /\ versionTag tagFlag git = Ok tag
    /\ cli.loadEnvFiles cfg fs = Ok data
    /\ cli.prepareData data cfg rng = (Ok blob, rest)
    /\ storage.Upload store tag blob = (Ok (), store').
Proof.
  unfold cli.runPush. cbv zeta. fold (versionTag tagFlag git).
  destruct (config.Validate cfg) eqn:Hv; [discriminate|].
  destruct (versionTag tagFlag git) as [tag| |] eqn:Ht; try discriminate.
  destruct (cli.loadEnvFiles cfg fs) as [data| |] eqn:Hl; try discriminate.
  destruct (cli.prepareData data cfg rng) as [[blob| |] rest] eqn:Hp;
    try discriminate.
  rewrite (storageNew_valid _ _ _ Hv).
  destruct newErr; [discriminate|]. simpl.
  destruct (storage.Exists store tag) as [ex| |]; try discriminate.
  destruct (storage.Upload store tag blob) as [[[]| |] st] eqn:Hu;
    try discriminate.
  intros [= <-]. by exists tag, data, blob, rest.
Qed.

(** Property X27. Without [--force], when a configured file exists and
    the answer to the question is neither [y] nor [Y], [runPull] leaves
    every local file as it is, whatever the store holds; and when the
    tag is in the store, the cancelled pull returns no error. *)
Theorem runPull_asks_first (cfg : config.Config) (tagFlag : string)
    (git : cli.Git) (sys : os.Sys) (fs : os.FS) (response : string)
    (newErr : option string) (store : S) (file tag : string) :
  file ∈ config.GetEnvFiles cfg ->
  is_Ok (os.Stat fs file) = true ->
  response <> "y" -> response <> "Y" ->
  (cli.runPull cfg tagFlag false git sys fs response newErr store).2 = fs
  /\ (config.Validate cfg = None -> versionTag tagFlag git = Ok tag ->
      newErr = None -> storage.Exists store tag = Ok true ->
      cli.runPull cfg tagFlag false git sys fs response newErr store
      = (Ok (), fs)).
Proof.
  intros Hin Hstat Hy HY.
  assert (Hask : negb false
            && (0 <? length (filter (fun file => is_Ok (os.Stat fs file) = true)
                               (config.GetEnvFiles cfg)))%nat
            && negb (String.eqb response "y")
            && negb (String.eqb response "Y") = true).
  { rewrite !string_eqb_false by done. simpl. rewrite !andb_true_r.
    apply Nat.ltb_lt.
    assert (Hf : file ∈ filter (fun file => is_Ok (os.Stat fs file) = true)
                          (config.GetEnvFiles cfg))
      by (by apply list_elem_of_filter).
    destruct (filter _ _); [by apply elem_of_nil in Hf|simpl; lia]. }
  unfold cli.runPull. cbv zeta. fold (versionTag tagFlag git).
  rewrite Hask. split.
  - destruct (config.Validate cfg); [done|].
    destruct (versionTag tagFlag git) as [t| |]; try done.
    destruct (orWrap _ (cli.storageNew cfg newErr store)) as [st| |];
      try done.
    destruct (storage.Exists st t) as [[]| |]; done.
  - intros Hv -> ->. rewrite Hv. simpl.
    rewrite (storageNew_valid _ _ _ Hv). simpl. by intros ->.
Qed.
End PushMore.

Lemma runPull_asks_first_witness :
  (cli.runPull (cfgOf false "" [".env"]) "v1" false git0 sys0 fs0 "n" None
               store1).2 = fs0
  /\ (config.Validate (cfgOf false "" [".env"]) = None ->
      versionTag "v1" git0 = Ok "v1" ->
      (None : option string) = None ->
      storage.Exists store1 "v1" = Ok true ->
      cli.runPull (cfgOf false "" [".env"]) "v1" false git0 sys0 fs0 "n" None
                  store1
      = (Ok (), fs0)).
Proof.
  apply (runPull_asks_first (cfgOf false "" [".env"]) "v1" git0 sys0 fs0 "n"
           None store1 ".env" "v1");
    [apply (bool_decide_unpack _); by vm_compute | reflexivity
    | discriminate | discriminate].
Defined.

Section PushOne.
Context `{tar.Container}.

(** Property X28. Against a mock store, [runPush] either leaves the
    store as it was, every failure included, or succeeds and changes
    what is stored under its tag alone: the download of every other tag
    is as before. *)
Theorem runPush_one_key (cfg : config.Config) (tagFlag : string)
    (git : cli.Git) (fs : os.FS) (rng : bytes) (newErr : option string)
    (m m' : storage.MockStorage) (r : result unit) :
  cli.runPush cfg tagFlag git fs rng newErr m = (r, m') ->
  m' = m
  \/ (exists tag blob,
        r = Ok () /\ versionTag tagFlag git = Ok tag
        /\ storage.mockDownload m' tag = Ok blob
        /\ forall other, other <> tag ->
             storage.mockDownload m' other = storage.mockDownload m other).
Proof.
  unfold cli.runPush. cbv zeta. fold (versionTag tagFlag git).
  destruct (config.Validate cfg); [by intros [= <- <-]; left|].
  destruct (versionTag tagFlag git) as [tag| |];
    [|by intros [= <- <-]; left..].
  destruct (cli.loadEnvFiles cfg fs) as [data| |];
    [|by intros [= <- <-]; left..].
  destruct (cli.prepareData data cfg rng) as [[blob| |] rest];
    [|by intros [= <- <-]; left..].
  destruct (orWrap _ (cli.storageNew cfg newErr m)) as [st| |] eqn:Hnew;
    [|by intros [= <- <-]; left..].
  assert (st = m) as ->.
  { unfold cli.storageNew in Hnew. destruct (_ || _); [|done].
    destruct newErr; [done|]. by injection Hnew. }
  destruct (storage.Exists m tag) as [ex| |];
    [|by intros [= <- <-]; left..].
  destruct (storage.Error m) eqn:He.
  - change (storage.Upload m tag blob) with (storage.mockUpload m tag blob).
    unfold storage.mockUpload. rewrite He. intros [= <- <-]. by left.
  - destruct (mockUpload_stores m tag blob He)
      as (m1 & Hup & Hdown & _ & Hother).
    change (storage.Upload m tag blob) with (storage.mockUpload m tag blob).
    rewrite Hup. intros [= <- <-]. right. exists tag, blob.
    split_and!; try done. intros other Hne. by apply Hother.
Qed.
End PushOne.

Lemma runPush_one_key_witness :
  pushed1 = store1
  \/ (exists tag blob,
        Ok () = Ok () /\ versionTag "v3" git0 = Ok tag
        /\ storage.mockDownload pushed1 tag = Ok blob
        /\ forall other, other <> tag ->
             storage.mockDownload pushed1 other
             = storage.mockDownload store1 other).
Proof.
  apply (runPush_one_key (cfgOf true hexKey1 [".env"]) "v3" git0 fs0 nonce1
           None store1 pushed1 (Ok ())).
  by vm_compute.
Defined.

Section RoundTrip.
Context `{tar.ContainerLaws}.

(** What push loaded, [saveEnvFiles] puts back at every configured
    path. *)
Lemma saveEnvFiles_restores cfg fs data sys fs2 fs2' :
  cli.loadEnvFiles cfg fs = Ok data ->
  cli.saveEnvFiles sys fs2 data cfg = (Ok (), fs2') ->
  Forall (fun file => exists f, fs2' !! file = Some f
                                /\ os.ReadFile fs file = Ok (os.contents f))
         (config.GetEnvFiles cfg).
Proof.
  intros [(file & Hfiles & Hread)|(Hlen & Hcreate)]%loadEnvFiles_Ok_inv.
  - unfold cli.saveEnvFiles. rewrite Hfiles. simpl.
    destruct (os.WriteFile sys fs2 file data 384) as [[[]| |] fs1] eqn:Hw;
      try discriminate.
    intros [= <-].
    destruct (WriteFile_Ok_inv _ _ _ _ _ _ Hw) as [Hnul Hopen].
    destruct (WriteFile_Ok sys fs2 file data 384 Hnul Hopen)
      as (f & Hw' & Hc & _).
    rewrite Hw in Hw'. injection Hw' as ->.
    repeat constructor. exists f. rewrite lookup_insert_eq. by rewrite Hc.
  - apply Create_Ok_inv in Hcreate as [Hall ->].
    unfold cli.saveEnvFiles.
    destruct (Nat.eqb_spec (length (config.GetEnvFiles cfg)) 1); [done|].
    unfold archive.ExtractToFiles.
    rewrite Extract_records by by apply recordsOf_wf.
    destruct (archive.writeEntries _ _ _) as [[[]| |] fs1] eqn:Hw;
      try discriminate.
    intros [= <-]. apply Forall_forall. intros file Hin.
    pose proof (proj1 (Forall_forall _ _) Hall file Hin) as Hfile.
    apply entryOf_recordOf in Hfile as (Hpath & Hread & _).
    rewrite Hread.
    destruct (writeEntries_contents _ _ _ _ file
                (archive.Data (entryOf (recordOf fs file))) Hw)
      as (f & Hf & Hc).
    + intros entry (r & -> & (file' & -> & Hin')%list_elem_of_fmap)
        %list_elem_of_fmap Hp.
      rewrite Path_entryOf_recordOf in Hp. by subst file'.
    + right. exists (entryOf (recordOf fs file)). split; [|done].
      apply list_elem_of_fmap_2, list_elem_of_fmap_2, Hin.
    + exists f. by rewrite Hc.
Qed.

(** Property X29. A forced pull that succeeds after a push that
    succeeded, with the same configuration and tag and a mock store in
    between, leaves at every configured path a file with the content the
    path had when it was pushed: one file or several, encrypted or
    not. *)
Theorem pull_after_push (cfg : config.Config) (tagFlag : string)
    (git : cli.Git) (fs : os.FS) (rng : bytes) (newErr newErr' : option string)
    (m m' : storage.MockStorage) (sys : os.Sys) (fs2 fs2' : os.FS)
    (response : string) :
  cli.runPush cfg tagFlag git fs rng newErr m = (Ok (), m') ->
  cli.runPull cfg tagFlag true git sys fs2 response newErr' m' = (Ok (), fs2') ->
  Forall (fun file => exists f, fs2' !! file = Some f
                                /\ os.ReadFile fs file = Ok (os.contents f))
         (config.GetEnvFiles cfg).
Proof.
  intros (tag & data & blob & rest & Hv & Ht & Hload & Hprep & Hup)
    %runPush_Ok_inv.
  apply mockUpload_Ok_inv in Hup as (_ & He' & Hdata).
  assert (Hblob : storage.data m' !! storage.BuildKey "" tag = Some blob)
    by (by rewrite Hdata, lookup_insert_eq).
  destruct (mockDownload_uploaded _ _ _ He' Hblob) as [Hdown Hex].
  unfold cli.runPull. cbv zeta. fold (versionTag tagFlag git).
  rewrite Hv, Ht, (storageNew_valid _ _ _ Hv).
  destruct newErr'; [discriminate|]. simpl.
  rewrite Hex, Hdown. simpl.
  rewrite (processData_of_prepareData _ _ _ _ _ Hprep).
  by apply saveEnvFiles_restores.
Qed.
End RoundTrip.

Lemma pull_after_push_witness :
  Forall (fun file => exists f, fs1 !! file = Some f
                                /\ os.ReadFile fs1 file = Ok (os.contents f))
         (config.GetEnvFiles (cfgOf true hexKey1 threeFiles)).
Proof.
  apply (pull_after_push (H0 := numbered_laws)
           (cfgOf true hexKey1 threeFiles) "v1" git0 fs1 nonce1 None None
           storage.NewMockStorage
           {| storage.data :=
                {[ "v1.env" := envelope (aes.encryptBlock key1) nonce1
                                        archive1 ]};
              storage.Error := None |}
           sys0 ∅ fs1 "");
    by vm_compute.
Defined.

Section DiffFacts.
Context `{tar.Container}.

(** Property X30. After two pushes under different tags to a mock store,
    [runDiff] of the two tags compares what was in the files: it returns
    the difference of the env maps of the two pushed contents, whether or
    not the blobs were encrypted, and under whichever nonces. *)
Theorem diff_after_push (cfg : config.Config) (tag1 tag2 : string)
    (git : cli.Git) (fs1 fs2 : os.FS) (rng1 rng2 : bytes)
    (newErr1 newErr2 : option string) (m0 m1 m2 : storage.MockStorage)
    (data1 data2 : bytes) (env1 env2 : gmap string string) :
  tag1 <> "" -> tag2 <> "" -> tag1 <> tag2 ->
  cli.runPush cfg tag1 git fs1 rng1 newErr1 m0 = (Ok (), m1) ->
  cli.runPush cfg tag2 git fs2 rng2 newErr2 m1 = (Ok (), m2) ->
  cli.loadEnvFiles cfg fs1 = Ok data1 ->
  cli.parseDataToEnvMap data1 cfg = Ok env1 ->
  cli.loadEnvFiles cfg fs2 = Ok data2 ->
  cli.parseDataToEnvMap data2 cfg = Ok env2 ->
  cli.runDiff cfg tag1 tag2 None m2 = Ok (cli.diffEnvMaps env1 env2).
Proof.
  intros Hne1 Hne2 Hne
    (t1 & d1 & blob1 & rest1 & Hv & Ht1 & Hload1 & Hprep1 & Hup1)
    %runPush_Ok_inv
    (t2 & d2 & blob2 & rest2 & _ & Ht2 & Hload2 & Hprep2 & Hup2)
    %runPush_Ok_inv Hl1 Hp1 Hl2 Hp2.
  unfold versionTag in Ht1, Ht2.
  rewrite string_eqb_false in Ht1, Ht2 by done. simpl in Ht1, Ht2.
  injection Ht1 as <-. injection Ht2 as <-.
  rewrite Hl1 in Hload1. injection Hload1 as <-.
  rewrite Hl2 in Hload2. injection Hload2 as <-.
  apply mockUpload_Ok_inv in Hup1 as (_ & He1 & Hdata1).
  apply mockUpload_Ok_inv in Hup2 as (_ & He2 & Hdata2).
  assert (Hb2 : storage.data m2 !! storage.BuildKey "" tag2 = Some blob2)
    by (by rewrite Hdata2, lookup_insert_eq).
  assert (Hb1 : storage.data m2 !! storage.BuildKey "" tag1 = Some blob1).
  { rewrite Hdata2, lookup_insert_ne by (by intros ?%BuildKey_tag_inj).
    by rewrite Hdata1, lookup_insert_eq. }
  destruct (mockDownload_uploaded _ _ _ He2 Hb1) as [Hdown1 _].
  destruct (mockDownload_uploaded _ _ _ He2 Hb2) as [Hdown2 _].
  unfold cli.runDiff. rewrite Hv, (storageNew_valid _ _ _ Hv).
  simpl. rewrite Hdown1. simpl.
  rewrite (processData_of_prepareData _ _ _ _ _ Hprep1). simpl.
  rewrite Hp1. simpl. rewrite Hdown2. simpl.
  rewrite (processData_of_prepareData _ _ _ _ _ Hprep2). simpl.
  by rewrite Hp2.
Qed.
End DiffFacts.

Lemma diff_after_push_witness :
  cli.runDiff (cfgOf true hexKey1 [".env"]) "v1" "v2" None
    {| storage.data :=
         {[ "v1.env" := blobA1;
            "v2.env" := envelope (aes.encryptBlock key1) (replicate 12 zero)
                                 (bytes_of_string "A=2") ]};
       storage.Error := None |}
  = Ok (cli.diffEnvMaps {[ "A" := "1" ]} {[ "A" := "2" ]}).
Proof.
  apply (diff_after_push (cfgOf true hexKey1 [".env"]) "v1" "v2" git0
           fs0 {[ ".env" := file "A=2" 384 ]} nonce1 (replicate 12 zero)
           None None storage.NewMockStorage
           {| storage.data := {[ "v1.env" := blobA1 ]};
              storage.Error := None |}
           {| storage.data :=
                {[ "v1.env" := blobA1;
                   "v2.env" := envelope (aes.encryptBlock key1)
                                        (replicate 12 zero)
                                        (bytes_of_string "A=2") ]};
              storage.Error := None |}
           (bytes_of_string "A=1") (bytes_of_string "A=2")
           {[ "A" := "1" ]} {[ "A" := "2" ]});
    solve [discriminate | by vm_compute].
Defined.
